(** * Parameter curves: piecewise-exponential envelopes

    A shallow embedding of [parameter_curve.py] (classes [ParameterCurve]
    and [ParameterCurveSegment]) and the properties its specification
    states about it.

    Numbers.  The Python code computes on floats; here a number is a real
    ([R]), [math.exp] is [exp] and [math.log] is [ln] on its domain.  The
    results below are therefore statements about the algorithms in exact
    arithmetic: rounding, overflow of [math.exp] and NaN are outside the
    model.  Everything the code decides by comparing numbers ([<], [<=],
    [==], the [1e-6] threshold on the shape) is kept.

    Errors.  A Python exception is a value [Raise e] of [result]; a loop or
    a recursion the code does not bound structurally carries a counter and
    answers [OutOfFuel] when the counter runs out.

    State.  A curve owns a Python list of segment objects and mutates it in
    place; a mutating method is a function from the segment list to the new
    segment list together with what the call returned or raised.

    Cached coefficients.  A segment caches [_A] and [_B].  Every write to
    [_start_level], [_end_level] or [_curve_shape] in the source is
    followed by [_calculate_coefficients] (the property setters,
    [split_at], [shift_vertical], [scale_vertical]) and the constructor
    resets the cache, so what a read sees is always the value computed
    from the current fields: the cache is the function
    [_calculate_coefficients] of the segment. *)

From Stdlib Require Import Reals Lra List Bool Arith Lia ZArith.
Import ListNotations.

Open Scope R_scope.

(** ** Exceptions and results *)

Inductive exn : Type :=
| AssertionError
| ZeroDivisionError
| IndexError
| ValueError
| TypeError.

Inductive result (A : Type) : Type :=
| Ok (a : A)
| Raise (e : exn)
| OutOfFuel.

Arguments Ok {A} a.
Arguments Raise {A} e.
Arguments OutOfFuel {A}.

Definition bind {A B : Type} (m : result A) (k : A -> result B) : result B :=
  match m with
  | Ok a => k a
  | Raise e => Raise e
  | OutOfFuel => OutOfFuel
  end.

Notation "x <- m ;; k" := (bind m (fun x => k))
  (at level 61, m at next level, right associativity).
Notation "' pat <- m ;; k" := (bind m (fun x => match x with pat => k end))
  (at level 61, pat pattern, m at next level, right associativity).

(** Python's [/] on numbers. *)
Definition div (x y : R) : result R :=
  if Req_dec_T y 0 then Raise ZeroDivisionError else Ok (x / y).

(** Python's [math.log]. *)
Definition log (x : R) : result R :=
  if Rlt_dec 0 x then Ok (ln x) else Raise ValueError.

(** Comparisons as booleans, so that [and], [or] and [not] of the source
    read the same here. *)
Definition Rltb (x y : R) : bool := if Rlt_dec x y then true else false.
Definition Rleb (x y : R) : bool := if Rle_dec x y then true else false.
Definition Reqb (x y : R) : bool := if Req_dec_T x y then true else false.

(** The threshold under which a shape counts as linear ([0.000001]). *)
Definition shape_epsilon : R := 1 / 1000000.

(** ** Segments *)

Module Segment.

Record t : Type := mk {
  start_time : R;
  end_time : R;
  start_level : R;
  end_level : R;
  curve_shape : R
}.

(** The argument [curve_shape] of the constructor: a number, or a string
    that [eval] reads with [exp] bound to [log(end_level / start_level)].
    The strings are modelled by the arithmetic expressions over [exp]. *)
Inductive shape_expr : Type :=
| SExp
| SNum (r : R)
| SNeg (e : shape_expr)
| SAdd (e1 e2 : shape_expr)
| SSub (e1 e2 : shape_expr)
| SMul (e1 e2 : shape_expr)
| SDiv (e1 e2 : shape_expr).

Inductive shape_arg : Type :=
| ShapeNumber (r : R)
| ShapeString (e : shape_expr).

Fixpoint eval (e : shape_expr) (exp_shape : R) : result R :=
  match e with
  | SExp => Ok exp_shape
  | SNum r => Ok r
  | SNeg e => v <- eval e exp_shape ;; Ok (- v)
  | SAdd e1 e2 => a <- eval e1 exp_shape ;; b <- eval e2 exp_shape ;; Ok (a + b)
  | SSub e1 e2 => a <- eval e1 exp_shape ;; b <- eval e2 exp_shape ;; Ok (a - b)
  | SMul e1 e2 => a <- eval e1 exp_shape ;; b <- eval e2 exp_shape ;; Ok (a * b)
  | SDiv e1 e2 => a <- eval e1 exp_shape ;; b <- eval e2 exp_shape ;; div a b
  end.

(** [ParameterCurveSegment.__init__] *)
Definition init (start_time end_time start_level end_level : R)
    (shape : shape_arg) : result t :=
  match shape with
  | ShapeString e =>
      ratio <- div end_level start_level ;;
      if Rltb 0 ratio then
        exp_shape <- log ratio ;;
        match eval e exp_shape with
        | Ok s => Ok (mk start_time end_time start_level end_level s)
        | Raise _ => Raise ValueError
        | OutOfFuel => OutOfFuel
        end
      else Raise AssertionError
  | ShapeNumber s => Ok (mk start_time end_time start_level end_level s)
  end.

(** [_calculate_coefficients]: [None] is the flag for the linear case. *)
Definition calculate_coefficients (s : t) : result (option (R * R)) :=
  if Rltb (Rabs (curve_shape s)) shape_epsilon then Ok None
  else
    q <- div (end_level s - start_level s) (exp (curve_shape s) - 1) ;;
    b <- div (end_level s - start_level s)
             (curve_shape s * (exp (curve_shape s) - 1)) ;;
    Ok (Some (start_level s - q, b)).

Definition duration (s : t) : R := end_time s - start_time s.

Definition max_level (s : t) : R := Rmax (start_level s) (end_level s).

(** [__contains__] *)
Definition contains (s : t) (x : R) : bool :=
  Rleb (start_time s) x && Rltb x (end_time s).

(** [value_at(t, clip_at_boundary)] *)
Definition value_at (s : t) (x : R) (clip_at_boundary : bool) : result R :=
  _ <- calculate_coefficients s ;;
  if clip_at_boundary && Rleb (end_time s) x then Ok (end_level s)
  else if clip_at_boundary && Rleb x (start_time s) then Ok (start_level s)
  else
    norm_t <- div (x - start_time s) (end_time s - start_time s) ;;
    if Rltb (Rabs (curve_shape s)) shape_epsilon then
      Ok (start_level s + norm_t * (end_level s - start_level s))
    else
      q <- div (end_level s - start_level s) (exp (curve_shape s) - 1) ;;
      Ok (start_level s + q * (exp (curve_shape s * norm_t) - 1)).

(** [_segment_antiderivative] *)
Definition segment_antiderivative (s : t) (A B normalized_t : R) : R :=
  A * normalized_t + B * exp (curve_shape s * normalized_t).

(** [integrate_segment(t1, t2)] *)
Definition integrate_segment (s : t) (t1 t2 : R) : result R :=
  if Rleb (start_time s) t1 && Rleb t1 (end_time s)
     && Rleb (start_time s) t2 && Rleb t2 (end_time s)
  then
    if Reqb t1 t2 then Ok 0
    else
      coefficients <- calculate_coefficients s ;;
      norm_t1 <- div (t1 - start_time s) (end_time s - start_time s) ;;
      norm_t2 <- div (t2 - start_time s) (end_time s - start_time s) ;;
      if Rltb (Rabs (curve_shape s)) shape_epsilon then
        let start_level' := (1 - norm_t1) * start_level s + norm_t1 * end_level s in
        let end_level' := (1 - norm_t2) * start_level s + norm_t2 * end_level s in
        Ok ((t2 - t1) * (start_level' + end_level') / 2)
      else
        match coefficients with
        | Some (A, B) =>
            let segment_length := end_time s - start_time s in
            Ok (segment_length *
                (segment_antiderivative s A B norm_t2
                 - segment_antiderivative s A B norm_t1))
        | None => Raise TypeError
        end
  else Raise AssertionError.

(** [split_at(t)]: the pair of the segment as modified and the new one. *)
Definition split_at (s : t) (x : R) : result (t * t) :=
  if Rltb (start_time s) x && Rltb x (end_time s) then
    middle_level <- value_at s x true ;;
    f <- div (x - start_time s) (end_time s - start_time s) ;;
    let curve_shape_1 := f * curve_shape s in
    let curve_shape_2 := curve_shape s - curve_shape_1 in
    let new_segment := mk x (end_time s) middle_level (end_level s) curve_shape_2 in
    Ok (mk (start_time s) x (start_level s) middle_level curve_shape_1, new_segment)
  else Raise AssertionError.

End Segment.

(** ** Curves *)

Module Curve.

Import Segment.

(** The list [_segments]. *)
Definition t : Type := list Segment.t.

(** [self._segments[-1]] *)
Fixpoint last_segment (c : t) : option Segment.t :=
  match c with
  | [] => None
  | [s] => Some s
  | _ :: rest => last_segment rest
  end.

(** Assignment to attributes of [self._segments[-1]]. *)
Fixpoint update_last (f : Segment.t -> Segment.t) (c : t) : t :=
  match c with
  | [] => []
  | [s] => [f s]
  | s :: rest => s :: update_last f rest
  end.

Definition length (c : t) : R :=
  match last_segment c with
  | None => 0
  | Some s => end_time s
  end.

Definition start_level (c : t) : result R :=
  match c with
  | [] => Raise IndexError
  | s :: _ => Ok (Segment.start_level s)
  end.

Definition end_level (c : t) : result R :=
  match last_segment c with
  | None => Raise IndexError
  | Some s => Ok (Segment.end_level s)
  end.

(** [levels], [durations] and [curve_shapes]: the flattened views. *)
Definition levels (c : t) : result (list R) :=
  e <- end_level c ;; Ok (map Segment.start_level c ++ [e]).

Definition durations (c : t) : list R := map Segment.duration c.

Definition curve_shapes (c : t) : list R := map Segment.curve_shape c.

(** [value_at(t)]: the scan runs over the reversed list. *)
Fixpoint value_at_scan (reversed : list Segment.t) (c : t) (x : R) : result R :=
  match reversed with
  | [] => end_level c
  | s :: rest =>
      if contains s x then Segment.value_at s x true
      else value_at_scan rest c x
  end.

Definition value_at (c : t) (x : R) : result R :=
  if Rltb x 0 then start_level c else value_at_scan (rev c) c x.

(** Python's [max] of a sequence. *)
Definition max_of (l : list R) : result R :=
  match l with
  | [] => Raise ValueError
  | x :: rest => Ok (fold_left Rmax rest x)
  end.

Definition anchor_points (t1 t2 : R) (s : Segment.t) : list R :=
  (if Rleb t1 (start_time s) && Rleb (start_time s) t2
   then [Segment.start_level s] else [])
  ++ (if Rleb t1 (end_time s) && Rleb (end_time s) t2
      then [Segment.end_level s] else []).

(** [max_level(t_range)] *)
Definition max_level (c : t) (t_range : option (R * R)) : result R :=
  match t_range with
  | None => max_of (map Segment.max_level c)
  | Some (t1, t2) =>
      if Rltb t1 t2 then
        v1 <- value_at c t1 ;;
        v2 <- value_at c t2 ;;
        max_of ([v1; v2] ++ flat_map (anchor_points t1 t2) c)
      else Raise AssertionError
  end.

(** *** Mutation: each method maps the segment list to the new segment
    list and to what the call returned. *)

(** [append_segment(level, duration, curve_shape, tolerance)] *)
Definition append_segment (c : t) (level duration curve_shape tolerance : R)
    : t * result unit :=
  match last_segment c with
  | None => (c, Raise IndexError)
  | Some l =>
      let new_segment :=
        mk (length c) (length c + duration) (Segment.end_level l) level curve_shape in
      if Reqb (Segment.duration l) 0 then
        if Reqb duration 0 then
          (update_last (fun s => mk (start_time s) (end_time s)
                                    (Segment.start_level s) level
                                    (Segment.curve_shape s)) c, Ok tt)
        else if negb (Reqb (Segment.end_level l) (Segment.start_level l)) then
          (c ++ [new_segment], Ok tt)
        else
          (update_last (fun s => mk (start_time s) (length c + duration)
                                    (Segment.start_level s) level curve_shape) c,
           Ok tt)
      else
        let continues : result bool :=
          if Reqb (Segment.curve_shape l) 0 && Reqb curve_shape 0 then
            v <- Segment.value_at l (length c + duration) false ;;
            Ok (Rleb (Rabs (v - level)) tolerance)
          else Ok false in
        match continues with
        | Ok true =>
            (update_last (fun s => mk (start_time s) (length c + duration)
                                      (Segment.start_level s) level
                                      (Segment.curve_shape s)) c, Ok tt)
        | Ok false => (c ++ [new_segment], Ok tt)
        | Raise e => (c, Raise e)
        | OutOfFuel => (c, OutOfFuel)
        end
  end.

(** [insert(t, level, curve_shape_in, curve_shape_out)]: the loop over
    the segments when [t] is not after the curve. *)
Fixpoint insert_loop (x level curve_shape_in curve_shape_out : R)
    (segments : list Segment.t) : list Segment.t :=
  match segments with
  | [] => []
  | s :: rest =>
      if Rltb (start_time s) x && Rltb x (end_time s) then
        mk (start_time s) x (Segment.start_level s) level curve_shape_in
        :: mk x (end_time s) level (Segment.end_level s) curve_shape_out
        :: rest
      else
        let s1 :=
          if Reqb x (start_time s)
          then mk (start_time s) (end_time s) level (Segment.end_level s) curve_shape_out
          else s in
        let s2 :=
          if Reqb x (end_time s)
          then mk (start_time s1) (end_time s1) (Segment.start_level s1) level
                  curve_shape_in
          else s1 in
        s2 :: insert_loop x level curve_shape_in curve_shape_out rest
  end.

Definition insert (c : t) (x level curve_shape_in curve_shape_out : R)
    : t * result unit :=
  if Rleb 0 x then
    if Rltb (length c) x then
      append_segment c level (x - length c) curve_shape_in 0
    else (insert_loop x level curve_shape_in curve_shape_out c, Ok tt)
  else (c, Raise AssertionError).

(** [insert_interpolated(t)]: the loop goes on over the list it has just
    inserted into, so the segment it visits after a split is the new
    second half; the counter bounds the number of visits. *)
Fixpoint insert_interpolated_loop (fuel : nat) (x : R)
    (segments : list Segment.t) : result (list Segment.t) :=
  match fuel with
  | O => OutOfFuel
  | S fuel' =>
      match segments with
      | [] => Ok []
      | s :: rest =>
          if Reqb x (start_time s) then Ok segments
          else if contains s x then
            '(part1, part2) <- Segment.split_at s x ;;
            tail <- insert_interpolated_loop fuel' x (part2 :: rest) ;;
            Ok (part1 :: tail)
          else
            tail <- insert_interpolated_loop fuel' x rest ;;
            Ok (s :: tail)
      end
  end.

Definition insert_interpolated (c : t) (x : R) : t * result unit :=
  if Rleb 0 x then
    if Rleb x (length c) then
      if Reqb x (length c) then (c, Ok tt)
      else
        match insert_interpolated_loop (S (List.length c)) x c with
        | Ok c' => (c', Ok tt)
        | Raise e => (c, Raise e)
        | OutOfFuel => (c, OutOfFuel)
        end
    else (c, Raise AssertionError)
  else (c, Raise AssertionError).

(** [pop_segment()]: returns the popped segment, or nothing when the only
    segment is collapsed instead. *)
Definition pop_segment (c : t) : t * result (option Segment.t) :=
  match c with
  | [s] =>
      if negb (Reqb (end_time s) (start_time s))
         || negb (Reqb (Segment.end_level s) (Segment.start_level s))
      then ([mk (start_time s) (start_time s) (Segment.start_level s)
                (Segment.start_level s) (Segment.curve_shape s)], Ok None)
      else (c, Raise IndexError)
  | _ =>
      match last_segment c with
      | None => (c, Raise IndexError)
      | Some s => (removelast c, Ok (Some s))
      end
  end.

(** [while True: try: self.pop_segment() except IndexError: break] *)
Fixpoint pop_all (fuel : nat) (c : t) : t * result unit :=
  match fuel with
  | O => (c, OutOfFuel)
  | S fuel' =>
      match pop_segment c with
      | (c', Ok _) => pop_all fuel' c'
      | (c', Raise IndexError) => (c', Ok tt)
      | (c', Raise e) => (c', Raise e)
      | (c', OutOfFuel) => (c', OutOfFuel)
      end
  end.

(** [while self.length() > t: self.pop_segment()] *)
Fixpoint pop_while_longer (fuel : nat) (c : t) (x : R) : t * result unit :=
  match fuel with
  | O => (c, OutOfFuel)
  | S fuel' =>
      if Rltb x (length c) then
        match pop_segment c with
        | (c', Ok _) => pop_while_longer fuel' c' x
        | (c', Raise e) => (c', Raise e)
        | (c', OutOfFuel) => (c', OutOfFuel)
        end
      else (c, Ok tt)
  end.

(** The [for] loop of [remove_segments_after]: [remaining] are the
    segments from index [i] on, [c] the whole list. *)
Fixpoint remove_segments_after_loop (remaining : list Segment.t) (c : t) (x : R)
    : t * result unit :=
  match remaining with
  | [] => (c, Ok tt)
  | this_segment :: rest =>
      if Reqb x (start_time this_segment) then
        pop_while_longer (S (List.length c)) c x
      else if Rltb (start_time this_segment) x && Rltb x (end_time this_segment) then
        match insert_interpolated c x with
        | (c', Ok _) => pop_while_longer (S (List.length c')) c' x
        | (c', Raise e) => (c', Raise e)
        | (c', OutOfFuel) => (c', OutOfFuel)
        end
      else remove_segments_after_loop rest c x
  end.

Definition remove_segments_after (c : t) (x : R) : t * result unit :=
  if Rltb x 0 then
    match pop_all (S (List.length c)) c with
    | (c', Ok _) => remove_segments_after_loop c' c' x
    | (c', r) => (c', r)
    end
  else remove_segments_after_loop c c x.

(** *** Construction and the compact serialized form *)

(** [_construct_segments_list(levels, durations, curve_shapes)]; [t0] is
    the time the loop has reached, 0 at the start. *)
Fixpoint construct_segments_list (t0 : R) (levels durations curve_shapes : list R)
    : result (list Segment.t) :=
  match levels with
  | level :: ((next_level :: _) as levels') =>
      match durations, curve_shapes with
      | d :: durations', shape :: curve_shapes' =>
          tail <- construct_segments_list (t0 + d) levels' durations' curve_shapes' ;;
          Ok (mk t0 (t0 + d) level next_level shape :: tail)
      | _, _ => Raise IndexError
      end
  | [_] => Ok []
  | [] => Raise IndexError
  end.

(** [initialize(levels, durations, curve_shapes)], which
    [from_levels_and_durations] calls on a new curve. *)
Definition initialize (levels durations : list R) (curve_shapes : option (list R))
    : result t :=
  match levels with
  | [] => Raise AssertionError
  | _ =>
      let levels := match levels with [_] => levels ++ levels | _ => levels end in
      if Nat.eqb (List.length durations) (List.length levels - 1) then
        let curve_shapes :=
          match curve_shapes with
          | None => repeat 0 (List.length levels - 1)
          | Some shapes => shapes
          end in
        construct_segments_list 0 levels durations curve_shapes
      else Raise AssertionError
  end.

Definition from_levels_and_durations := initialize.

(** [from_levels(levels, length)] *)
Definition from_levels (levels : list R) (length : R) : result t :=
  match levels with
  | [] => Raise AssertionError
  | _ =>
      let levels := match levels with [_] => levels ++ levels | _ => levels end in
      d <- div length (INR (List.length levels - 1)) ;;
      let durations := repeat d (List.length levels - 1) in
      let curves := repeat 0 (List.length levels - 1) in
      from_levels_and_durations levels durations (Some curves)
  end.

(** The four shapes of list that [to_json] writes and [from_list] tells
    apart by nesting and length. *)
Inductive json : Type :=
| Levels (levels : list R)
| LevelsLength (levels : list R) (length : R)
| LevelsDurations (levels durations : list R)
| LevelsDurationsShapes (levels durations curve_shapes : list R).

(** [from_list(constructor_list)] *)
Definition from_list (constructor_list : json) : result t :=
  match constructor_list with
  | Levels [] => Raise IndexError
  | Levels levels => from_levels levels 1
  | LevelsLength levels length => from_levels levels length
  | LevelsDurations levels durations =>
      from_levels_and_durations levels durations None
  | LevelsDurationsShapes levels durations curve_shapes =>
      from_levels_and_durations levels durations (Some curve_shapes)
  end.

Definition from_json := from_list.

(** [all(x == durations[0] for x in durations)] *)
Definition all_equal_first (l : list R) : bool :=
  match l with
  | [] => true
  | first :: _ => forallb (fun x => Reqb x first) l
  end.

(** [to_json()] *)
Definition to_json (c : t) : result json :=
  levels <- levels c ;;
  let durations := durations c in
  let curve_shapes := curve_shapes c in
  let even_durations := all_equal_first durations in
  let curvature_unnecessary := forallb (fun x => Reqb x 0) curve_shapes in
  if even_durations && curvature_unnecessary then
    if Reqb (length c) 1 then Ok (Levels levels)
    else Ok (LevelsLength levels (length c))
  else if curvature_unnecessary then Ok (LevelsDurations levels durations)
  else Ok (LevelsDurationsShapes levels durations curve_shapes).

(** *** Integration *)

(** The bisection of [integrate_interval]: [start_index] moves to the
    middle of what is left of the list as long as the segment there ends
    before [t1] and more than three segments follow. *)
Fixpoint bisect_start (fuel : nat) (segments : list Segment.t) (t1 : R)
    (start_index : nat) : result nat :=
  match fuel with
  | O => OutOfFuel
  | S fuel' =>
      let new_start_index :=
        (start_index + (List.length segments - start_index) / 2)%nat in
      match nth_error segments new_start_index with
      | None => Raise IndexError
      | Some s =>
          if Rltb (end_time s) t1
             && Nat.ltb 3 (List.length segments - new_start_index)
          then bisect_start fuel' segments t1 new_start_index
          else Ok start_index
      end
  end.

(** The [for] loop of [integrate_interval], a [break] ending it. *)
Fixpoint integrate_scan (segments : list Segment.t) (t1 t2 : R) (integral : R)
    : result R :=
  match segments with
  | [] => Ok integral
  | s :: rest =>
      if Rltb t1 (start_time s) then
        if Rltb (start_time s) t2 then
          if Rleb t2 (end_time s) then
            v <- integrate_segment s (start_time s) t2 ;;
            Ok (integral + v)
          else
            v <- integrate_segment s (start_time s) (end_time s) ;;
            integrate_scan rest t1 t2 (integral + v)
        else integrate_scan rest t1 t2 integral
      else if contains s t1 then
        if contains s t2 then
          v <- integrate_segment s t1 t2 ;;
          Ok (integral + v)
        else
          v <- integrate_segment s t1 (end_time s) ;;
          integrate_scan rest t1 t2 (integral + v)
      else integrate_scan rest t1 t2 integral
  end.

(** [integrate_interval(t1, t2)]; the counter bounds the depth of the
    recursion through the edge conditions. *)
Fixpoint integrate_interval_rec (fuel : nat) (c : t) (t1 t2 : R) : result R :=
  match fuel with
  | O => OutOfFuel
  | S fuel' =>
      if Reqb t1 t2 then Ok 0
      else if Rltb t2 t1 then
        v <- integrate_interval_rec fuel' c t2 t1 ;; Ok (- v)
      else if Rltb t1 0 then
        match c with
        | [] => Raise IndexError
        | s :: _ =>
            v <- integrate_interval_rec fuel' c 0 t2 ;;
            Ok (- t1 * Segment.start_level s + v)
        end
      else if Rltb (length c) t2 then
        e <- end_level c ;;
        v <- integrate_interval_rec fuel' c t1 (length c) ;;
        Ok ((t2 - length c) * e + v)
      else
        start_index <- bisect_start (S (List.length c)) c t1 0 ;;
        integrate_scan (skipn start_index c) t1 t2 0
  end.

(** No call goes deeper than a few levels: a swap of the bounds, then
    one level for each side that is out of range. *)
Definition recursion_depth : nat := 8.

Definition integrate_interval (c : t) (t1 t2 : R) : result R :=
  integrate_interval_rec recursion_depth c t1 t2.

(** The integral as the specification describes it without the
    optimization: the sum of the per-segment definite integrals over the
    whole segment list, nothing skipped. *)
Fixpoint integrate_interval_no_bisection_rec (fuel : nat) (c : t) (t1 t2 : R)
    : result R :=
  match fuel with
  | O => OutOfFuel
  | S fuel' =>
      if Reqb t1 t2 then Ok 0
      else if Rltb t2 t1 then
        v <- integrate_interval_no_bisection_rec fuel' c t2 t1 ;; Ok (- v)
      else if Rltb t1 0 then
        match c with
        | [] => Raise IndexError
        | s :: _ =>
            v <- integrate_interval_no_bisection_rec fuel' c 0 t2 ;;
            Ok (- t1 * Segment.start_level s + v)
        end
      else if Rltb (length c) t2 then
        e <- end_level c ;;
        v <- integrate_interval_no_bisection_rec fuel' c t1 (length c) ;;
        Ok ((t2 - length c) * e + v)
      else integrate_scan c t1 t2 0
  end.

Definition integrate_interval_no_bisection (c : t) (t1 t2 : R) : result R :=
  integrate_interval_no_bisection_rec recursion_depth c t1 t2.

(** [get_upper_integration_bound(t1, desired_area, max_error)] *)
Fixpoint get_upper_integration_bound (fuel : nat) (c : t)
    (t1 desired_area max_error : R) : result R :=
  match fuel with
  | O => OutOfFuel
  | S fuel' =>
      if Rltb desired_area max_error then Ok t1
      else
        t1_level <- value_at c t1 ;;
        q <- div desired_area t1_level ;;
        let t2_guess := q + t1 in
        area <- integrate_interval c t1 t2_guess ;;
        if Rleb area desired_area then
          if Rltb (desired_area - area) max_error then Ok t2_guess
          else
            get_upper_integration_bound fuel' c t2_guess (desired_area - area)
              max_error
        else
          m <- max_level c (Some (t1, t2_guess)) ;;
          q' <- div t1_level m ;;
          let conservative_guess := q' * (t2_guess - t1) + t1 in
          a <- integrate_interval c t1 conservative_guess ;;
          get_upper_integration_bound fuel' c conservative_guess
            (desired_area - a) max_error
  end.

End Curve.

(** ** Combining two segments *)

Module Combine.

Import Segment.

(** [from_endpoints_and_halfway_level] *)
Definition from_endpoints_and_halfway_level
    (start_time end_time start_level end_level halfway_level : R)
    : result Segment.t :=
  if Rltb (Rmin start_level end_level) halfway_level
     && Rltb halfway_level (Rmax start_level end_level)
  then
    if Reqb end_level start_level then
      Ok (mk start_time end_time start_level end_level 0)
    else
      halfway_level_normalized <-
        div (halfway_level - start_level) (end_level - start_level) ;;
      q <- div 1 halfway_level_normalized ;;
      l <- log (q - 1) ;;
      Ok (mk start_time end_time start_level end_level (2 * l))
  else Raise AssertionError.

(** What [_split_binary_function_applied_pair] returns: one segment, or
    a curve made of the fitted segments. *)
Inductive combined : Type :=
| OneSegment (s : Segment.t)
| SeveralSegments (c : Curve.t).

(** The variables of the sampling loop. *)
Record sampling : Type := mk_sampling {
  value : option R;
  first_difference : option R;
  second_difference : option R;
  split_points : list R
}.

(** [t not in split_points] *)
Definition not_in (x : R) (l : list R) : bool := negb (existsb (Reqb x) l).

(** The value of the combined function at time [x]. *)
Definition combined_value (input1 input2 : Segment.t)
    (binary_function : R -> R -> R) (x : R) : result R :=
  v1 <- Segment.value_at input1 x true ;;
  v2 <- Segment.value_at input2 x true ;;
  Ok (binary_function v1 v2).

(** One pass through the body of [for x in range(0, resolution)]. *)
Definition sample (input1 input2 : Segment.t) (binary_function : R -> R -> R)
    (resolution : nat) (st : sampling) (x : nat) : result sampling :=
  q <- div (INR x) (INR resolution) ;;
  let t := start_time input1 + q * Segment.duration input1 in
  this_value <- combined_value input1 input2 binary_function t ;;
  match value st with
  | None =>
      Ok (mk_sampling (Some this_value) (first_difference st)
            (second_difference st) (split_points st))
  | Some value =>
      let this_difference := this_value - value in
      match first_difference st with
      | None =>
          Ok (mk_sampling (Some this_value) (Some this_difference)
                (second_difference st) (split_points st))
      | Some first_difference =>
          let points1 :=
            if Rltb (this_difference * first_difference) 0
            then split_points st ++ [t] else split_points st in
          let this_second_difference := this_difference - first_difference in
          let points2 :=
            match second_difference st with
            | None => points1
            | Some second_difference =>
                if Rltb (this_second_difference * second_difference) 0
                then if not_in t points1 then points1 ++ [t] else points1
                else points1
            end in
          Ok (mk_sampling (Some this_value) (Some this_difference)
                (Some this_second_difference) points2)
      end
  end.

Fixpoint sample_all (input1 input2 : Segment.t) (binary_function : R -> R -> R)
    (resolution : nat) (xs : list nat) (st : sampling) : result sampling :=
  match xs with
  | [] => Ok st
  | x :: xs' =>
      st' <- sample input1 input2 binary_function resolution st x ;;
      sample_all input1 input2 binary_function resolution xs' st'
  end.

(** [key_points.insert(i, x)] *)
Definition list_insert (i : nat) (x : R) (l : list R) : list R :=
  firstn i l ++ x :: skipn i l.

(** The loop [while i < len(key_points) - 1]; the counter bounds the
    number of passes through its body. *)
Fixpoint fit_segments (fuel : nat) (input1 input2 : Segment.t)
    (binary_function : R -> R -> R) (key_points : list R) (i : nat)
    (segments : list Segment.t) : result (list Segment.t) :=
  match fuel with
  | O => OutOfFuel
  | S fuel' =>
      if (i <? List.length key_points - 1)%nat then
        match nth_error key_points i, nth_error key_points (i + 1) with
        | Some segment_start, Some segment_end =>
            let halfway_point := (segment_start + segment_end) / 2 in
            segment_start_value <-
              combined_value input1 input2 binary_function segment_start ;;
            segment_end_value <-
              combined_value input1 input2 binary_function segment_end ;;
            segment_halfway_value <-
              combined_value input1 input2 binary_function halfway_point ;;
            if negb (Rltb (Rmin segment_start_value segment_end_value)
                          segment_halfway_value
                     && Rltb segment_halfway_value
                             (Rmax segment_start_value segment_end_value))
            then
              fit_segments fuel' input1 input2 binary_function
                (list_insert (i + 1) halfway_point key_points) i segments
            else
              segment <-
                from_endpoints_and_halfway_level segment_start segment_end
                  segment_start_value segment_end_value segment_halfway_value ;;
              fit_segments fuel' input1 input2 binary_function key_points
                (i + 1) (segments ++ [segment])
        | _, _ => Raise IndexError
        end
      else Ok segments
  end.

(** [_split_binary_function_applied_pair(input1, input2,
    binary_function, resolution)] *)
Definition split_binary_function_applied_pair (fuel : nat)
    (input1 input2 : Segment.t) (binary_function : R -> R -> R)
    (resolution : nat) : result combined :=
  if Reqb (start_time input2) (start_time input1)
     && Reqb (end_time input2) (end_time input1)
  then
    st <- sample_all input1 input2 binary_function resolution
            (seq 0 resolution) (mk_sampling None None None []) ;;
    let key_points := [start_time input1] ++ split_points st ++ [end_time input1] in
    segments <- fit_segments fuel input1 input2 binary_function key_points 0 [] ;;
    match segments with
    | [s] => Ok (OneSegment s)
    | _ => Ok (SeveralSegments segments)
    end
  else Raise ValueError.

(** [__add__] and [__mul__] with another segment. *)
Definition add (fuel : nat) (s other : Segment.t) : result combined :=
  split_binary_function_applied_pair fuel s other Rplus 60.

Definition mul (fuel : nat) (s other : Segment.t) : result combined :=
  split_binary_function_applied_pair fuel s other Rmult 60.

End Combine.

(** ** The other methods of a segment *)

Module SegmentOps.

Import Segment.

(** [clone()] *)
Definition clone (s : Segment.t) : Segment.t :=
  mk (start_time s) (end_time s) (Segment.start_level s) (Segment.end_level s)
     (curve_shape s).

(** [shift_vertical(amount)]: the segment after the call. *)
Definition shift_vertical (s : Segment.t) (amount : R) : Segment.t :=
  mk (start_time s) (end_time s) (Segment.start_level s + amount)
     (Segment.end_level s + amount) (curve_shape s).

(** [scale_vertical(amount)]: the segment after the call. *)
Definition scale_vertical (s : Segment.t) (amount : R) : Segment.t :=
  mk (start_time s) (end_time s) (Segment.start_level s * amount)
     (Segment.end_level s * amount) (curve_shape s).

(** [__neg__] *)
Definition neg (s : Segment.t) : Segment.t :=
  mk (start_time s) (end_time s) (- Segment.start_level s) (- Segment.end_level s)
     (curve_shape s).

(** [is_shifted_version_of(other)] *)
Definition is_shifted_version_of (s other : Segment.t) : bool :=
  Reqb (start_time s) (start_time other)
  && Reqb (end_time s) (end_time other)
  && Reqb (Segment.start_level s - Segment.start_level other)
          (Segment.end_level s - Segment.end_level other)
  && Reqb (curve_shape s) (curve_shape other).

(** [average_level()] *)
Definition average_level (s : Segment.t) : result R :=
  v <- integrate_segment s (start_time s) (end_time s) ;;
  div v (duration s).

(** [max_absolute_slope()] *)
Definition max_absolute_slope (s : Segment.t) : result R :=
  if Reqb (duration s) 0 then Ok 0
  else if Rltb (Rabs (curve_shape s)) shape_epsilon then
    div (Rabs (Segment.end_level s - Segment.start_level s)) (duration s)
  else
    q <- div (exp (Rabs (curve_shape s))
              * Rabs (Segment.end_level s - Segment.start_level s))
             (duration s) ;;
    div (q * Rabs (curve_shape s)) (exp (Rabs (curve_shape s)) - 1).

(** The right operand of [+], [-], [*] and [/]: a number, another
    segment, or an object of another kind that has no arithmetic of its
    own (a string, say). *)
Inductive operand : Type :=
| Number (k : R)
| OtherSegment (other : Segment.t)
| Unsupported.

(** [-other] *)
Definition negate (other : operand) : result operand :=
  match other with
  | Number k => Ok (Number (- k))
  | OtherSegment o => Ok (OtherSegment (neg o))
  | Unsupported => Raise TypeError
  end.

(** [1 / other]: a segment has no [__rtruediv__]. *)
Definition reciprocal (other : operand) : result operand :=
  match other with
  | Number k => q <- div 1 k ;; Ok (Number q)
  | OtherSegment _ => Raise TypeError
  | Unsupported => Raise TypeError
  end.

(** [__add__(other)]; the counter is that of the combination of two
    segments. *)
Definition add (fuel : nat) (s : Segment.t) (other : operand)
    : result Combine.combined :=
  match other with
  | Number k => Ok (Combine.OneSegment (shift_vertical (clone s) k))
  | OtherSegment o => Combine.add fuel s o
  | Unsupported => Raise TypeError
  end.

Definition radd := add.

(** [__sub__(other)] *)
Definition sub (fuel : nat) (s : Segment.t) (other : operand)
    : result Combine.combined :=
  minus_other <- negate other ;; add fuel s minus_other.

(** [__rsub__(other)] *)
Definition rsub (fuel : nat) (s : Segment.t) (other : operand)
    : result Combine.combined :=
  minus_other <- negate other ;; radd fuel s minus_other.

(** [__mul__(other)] *)
Definition mul (fuel : nat) (s : Segment.t) (other : operand)
    : result Combine.combined :=
  match other with
  | Number k => Ok (Combine.OneSegment (scale_vertical (clone s) k))
  | OtherSegment o => Combine.mul fuel s o
  | Unsupported => Raise TypeError
  end.

Definition rmul := mul.

(** [__truediv__(other)] *)
Definition truediv (fuel : nat) (s : Segment.t) (other : operand)
    : result Combine.combined :=
  inverse <- reciprocal other ;; mul fuel s inverse.

(** Python's list comprehension over a body that can raise. *)
Fixpoint traverse {A B : Type} (f : A -> result B) (l : list A) : result (list B) :=
  match l with
  | [] => Ok []
  | a :: l' => b <- f a ;; bs <- traverse f l' ;; Ok (b :: bs)
  end.

End SegmentOps.

(** ** The other methods of a curve *)

Module CurveOps.

Import Segment.

(** [average_level()] *)
Definition average_level (c : Curve.t) : result R :=
  v <- Curve.integrate_interval c 0 (Curve.length c) ;;
  div v (Curve.length c).

(** [max_absolute_slope()] *)
Definition max_absolute_slope (c : Curve.t) : result R :=
  slopes <- SegmentOps.traverse SegmentOps.max_absolute_slope c ;;
  Curve.max_of slopes.

(** [normalize_to_duration(desired_duration, in_place)]: the segments of
    the curve after the call, and the curve the call returns. *)
Definition normalize_to_duration (c : Curve.t) (desired_duration : R)
    (in_place : bool) : Curve.t * result Curve.t :=
  if negb (Reqb (Curve.length c) desired_duration) then
    match div desired_duration (Curve.length c) with
    | Ok ratio =>
        let out :=
          map (fun s => mk (start_time s * ratio) (end_time s * ratio)
                           (Segment.start_level s) (Segment.end_level s)
                           (curve_shape s)) c in
        (if in_place then out else c, Ok out)
    | Raise e => (c, Raise e)
    | OutOfFuel => (c, OutOfFuel)
    end
  else (c, Ok c).

(** The loop of [inflection_points]. *)
Fixpoint inflection_points_from (last_direction : Z) (segments : list Segment.t)
    : list R :=
  match segments with
  | [] => []
  | s :: rest =>
      let direction :=
        if Rltb (Segment.start_level s) (Segment.end_level s) then 1%Z
        else if Rltb (Segment.end_level s) (Segment.start_level s) then (-1)%Z
        else last_direction in
      if Z.ltb (last_direction * direction) 0
      then start_time s :: inflection_points_from direction rest
      else inflection_points_from direction rest
  end.

(** [inflection_points()] *)
Definition inflection_points (c : Curve.t) : list R :=
  inflection_points_from 0%Z c.

(** [is_shifted_version_of(other)] *)
Definition is_shifted_version_of (c other : Curve.t) : bool :=
  forallb (fun xy => SegmentOps.is_shifted_version_of (fst xy) (snd xy))
          (combine c other).

(** [shift_vertical(amount)]: the segments after the call. *)
Definition shift_vertical (c : Curve.t) (amount : R) : Curve.t :=
  map (fun s => SegmentOps.shift_vertical s amount) c.

(** [__add__(other)]: the list the new curve is built on, one result of
    [segment + other] for each segment. *)
Definition add (fuel : nat) (c : Curve.t) (other : SegmentOps.operand)
    : result (list Combine.combined) :=
  SegmentOps.traverse (fun s => SegmentOps.add fuel s other) c.

Definition radd := add.

(** [__sub__(other)] *)
Definition sub (fuel : nat) (c : Curve.t) (other : SegmentOps.operand)
    : result (list Combine.combined) :=
  minus_other <- SegmentOps.negate other ;; add fuel c minus_other.

(** [__rsub__(other)] *)
Definition rsub (fuel : nat) (c : Curve.t) (other : SegmentOps.operand)
    : result (list Combine.combined) :=
  minus_other <- SegmentOps.negate other ;; radd fuel c minus_other.

(** [__mul__(other)] *)
Definition mul (fuel : nat) (c : Curve.t) (other : SegmentOps.operand)
    : result (list Combine.combined) :=
  SegmentOps.traverse (fun s => SegmentOps.mul fuel s other) c.

Definition rmul := mul.

(** [__truediv__(other)] *)
Definition truediv (fuel : nat) (c : Curve.t) (other : SegmentOps.operand)
    : result (list Combine.combined) :=
  inverse <- SegmentOps.reciprocal other ;; mul fuel c inverse.

(** *** Splitting a curve *)

(** Python's [list.sort] on numbers. *)
Fixpoint insert_sorted (x : R) (l : list R) : list R :=
  match l with
  | [] => [x]
  | y :: l' => if Rleb x y then x :: l else y :: insert_sorted x l'
  end.

Fixpoint sort (l : list R) : list R :=
  match l with
  | [] => []
  | x :: l' => insert_sorted x (sort l')
  end.

(** The argument [t] of [split_at]: a time, or a tuple or list of times. *)
Inductive split_times : Type :=
| At (t : R)
| AtAll (ts : list R).

(** What [split_at] returns: the tuple [(to_split,)], the tuple
    [(to_split, second_half)], or the tuple of [to_split] and of the
    tuple that the call on the second half returned. *)
Inductive pieces : Type :=
| Whole (c : Curve.t)
| Halves (first second : Curve.t)
| FirstAnd (first : Curve.t) (rest : pieces).

(** The outcome of [split_at] when nothing it has an exception for is
    raised; [UnboundLocalError] is the error of reading [second_half]
    when no segment starts at the split time. *)
Inductive split_outcome : Type :=
| Returned (p : pieces)
| UnboundLocalError.

(** The loop that looks for the segment starting at [t]: the segments
    before it, and the segments from it on moved back by [t]. *)
Fixpoint cut_at (t : R) (segments : list Segment.t)
    : option (list Segment.t * list Segment.t) :=
  match segments with
  | [] => None
  | s :: rest =>
      if Reqb (start_time s) t then
        Some ([], map (fun s' => mk (start_time s' - t) (end_time s' - t)
                                    (Segment.start_level s') (Segment.end_level s')
                                    (curve_shape s')) segments)
      else
        match cut_at t rest with
        | Some (before, after) => Some (s :: before, after)
        | None => None
        end
  end.

(** [split_at(t, change_original)]: the segments of the curve after the
    call, and what the call returns.  The counter bounds the depth of
    the recursion on the remaining split times. *)
Fixpoint split_at (fuel : nat) (c : Curve.t) (t : split_times)
    (change_original : bool) : Curve.t * result split_outcome :=
  match fuel with
  | O => (c, OutOfFuel)
  | S fuel' =>
      let to_split := if change_original then c else map SegmentOps.clone c in
      let after_call (changed : Curve.t) := if change_original then changed else c in
      let usable :=
        match t with
        | At t0 => Some (t0, None)
        | AtAll ts =>
            match filter (fun x => Rleb 0 x && Rleb x (Curve.length to_split)) ts with
            | [] => None
            | [t0] => Some (t0, None)
            | ts' =>
                match sort ts' with
                | [] => None
                | t0 :: later => Some (t0, Some (map (fun x => x - t0) later))
                end
            end
        end in
      match usable with
      | None => (after_call to_split, Ok (Returned (Whole to_split)))
      | Some (t0, remaining_splits) =>
          if negb (Rltb 0 t0 && Rltb t0 (Curve.length to_split)) then
            (after_call to_split, Ok (Returned (Whole to_split)))
          else
            match Curve.insert_interpolated to_split t0 with
            | (inserted, Ok _) =>
                match cut_at t0 inserted with
                | None => (after_call inserted, Ok UnboundLocalError)
                | Some (first, second_half) =>
                    match remaining_splits with
                    | None =>
                        (after_call first, Ok (Returned (Halves first second_half)))
                    | Some remaining =>
                        match split_at fuel' second_half (AtAll remaining) true with
                        | (_, Ok (Returned rest)) =>
                            (after_call first, Ok (Returned (FirstAnd first rest)))
                        | (_, Ok UnboundLocalError) =>
                            (after_call first, Ok UnboundLocalError)
                        | (_, Raise e) => (after_call first, Raise e)
                        | (_, OutOfFuel) => (after_call first, OutOfFuel)
                        end
                    end
                end
            | (inserted, Raise e) => (after_call inserted, Raise e)
            | (inserted, OutOfFuel) => (after_call inserted, OutOfFuel)
            end
      end
  end.

End CurveOps.

(** * The vocabulary of the properties *)

(** ** The structural invariant of a curve *)

Module Invariant.

Import Segment.

(** A segment runs forward in time (a zero-length jump included). *)
Definition well_formed (s : Segment.t) : Prop := start_time s <= end_time s.

Fixpoint sorted (c : Curve.t) : Prop :=
  match c with
  | s1 :: ((s2 :: _) as rest) => start_time s1 <= start_time s2 /\ sorted rest
  | _ => True
  end.

Fixpoint contiguous (c : Curve.t) : Prop :=
  match c with
  | s1 :: ((s2 :: _) as rest) => end_time s1 = start_time s2 /\ contiguous rest
  | _ => True
  end.

Definition starts_at_zero (c : Curve.t) : Prop :=
  match c with
  | s :: _ => start_time s = 0
  | [] => False
  end.

(** The four conditions of the data model. *)
Definition structural (c : Curve.t) : Prop :=
  c <> [] /\ sorted c /\ contiguous c /\ starts_at_zero c.

(** A curve: segments that run forward in time, in a list that satisfies
    the structural invariant. *)
Definition valid (c : Curve.t) : Prop :=
  Forall well_formed c /\ structural c.

(** Adjacent segments agree in level. *)
Fixpoint level_continuous (c : Curve.t) : Prop :=
  match c with
  | s1 :: ((s2 :: _) as rest) =>
      Segment.end_level s1 = Segment.start_level s2 /\ level_continuous rest
  | _ => True
  end.

(** The same invariant in the form the proofs use: the segments follow
    one another from time [a] on, each but the last running forward. *)
Fixpoint link (a : R) (c : Curve.t) : Prop :=
  match c with
  | [] => True
  | [s] => start_time s = a
  | s :: rest => start_time s = a /\ a <= end_time s /\ link (end_time s) rest
  end.

(** The same with the last segment running forward too. *)
Fixpoint chain (a : R) (c : Curve.t) : Prop :=
  match c with
  | [] => True
  | s :: rest => start_time s = a /\ a <= end_time s /\ chain (end_time s) rest
  end.

(** No segment is a zero-length jump. *)
Definition positive_durations (c : Curve.t) : Prop :=
  Forall (fun s => start_time s < end_time s) c.

(** A single segment with nothing left to pop. *)
Definition collapsed (c : Curve.t) : Prop :=
  exists s, c = [s] /\ end_time s = start_time s
            /\ Segment.end_level s = Segment.start_level s.

End Invariant.

(** ** The functions the properties are stated and proved with *)

Module Model.

Import Segment Invariant.

(** The share of the level change done at normalized time [u]. *)
Definition progress (S u : R) : R := (exp (S * u) - 1) / (exp S - 1).

(** The value the formula of [value_at] gives at normalized time [u]. *)
Definition interpolate (s : Segment.t) (u : R) : R :=
  if Rltb (Rabs (curve_shape s)) shape_epsilon
  then start_level s + u * (end_level s - start_level s)
  else start_level s
       + (end_level s - start_level s) / (exp (curve_shape s) - 1)
         * (exp (curve_shape s * u) - 1).

(** The normalized time [norm_t] of [value_at] and [integrate_segment]. *)
Definition normalize (s : Segment.t) (x : R) : R :=
  (x - start_time s) / (end_time s - start_time s).

(** The scan of [value_at] in list order: under the invariant the first
    segment that ends after [x] is the one the reversed scan finds. *)
Fixpoint value_at_forward (segments : list Segment.t) (beyond : result R) (x : R)
    : result R :=
  match segments with
  | [] => beyond
  | s :: rest =>
      if Rltb x (end_time s) then Segment.value_at s x true
      else value_at_forward rest beyond x
  end.

(** The two halves [split_at] makes are evaluated by the same formula as
    the segment when the segment is linear, or when neither half falls
    under the threshold that switches a half to the linear formula. *)
Definition split_exact (s : Segment.t) (x : R) : Prop :=
  Rabs (curve_shape s) < shape_epsilon
  \/ (shape_epsilon <= Rabs (normalize s x * curve_shape s)
      /\ shape_epsilon <= Rabs (curve_shape s - normalize s x * curve_shape s)).

(** The two segments [split_at] returns. *)
Definition first_half (s : Segment.t) (x : R) : Segment.t :=
  mk (start_time s) x (Segment.start_level s)
     (interpolate s (normalize s x)) (normalize s x * curve_shape s).

Definition second_half (s : Segment.t) (x : R) : Segment.t :=
  mk x (end_time s) (interpolate s (normalize s x)) (Segment.end_level s)
     (curve_shape s - normalize s x * curve_shape s).

(** A primitive of the interpolation formula: [integrate_segment]
    between two times of the segment is the difference of its values. *)
Definition primitive (s : Segment.t) (x : R) : R :=
  let n := normalize s x in
  if Rltb (Rabs (curve_shape s)) shape_epsilon then
    Segment.start_level s * (x - start_time s)
    + (Segment.end_level s - Segment.start_level s)
      * (end_time s - start_time s) * n * n / 2
  else
    (end_time s - start_time s)
    * ((Segment.start_level s
        - (Segment.end_level s - Segment.start_level s) / (exp (curve_shape s) - 1))
       * n
       + (Segment.end_level s - Segment.start_level s)
         / (curve_shape s * (exp (curve_shape s) - 1))
         * exp (curve_shape s * n)).

(** The time of the segment nearest to [x]. *)
Definition clamp (s : Segment.t) (x : R) : R :=
  Rmax (start_time s) (Rmin x (end_time s)).

(** What a segment contributes to the integral from [t1] to [t2]. *)
Definition piece (s : Segment.t) (t1 t2 : R) : R :=
  primitive s (clamp s t2) - primitive s (clamp s t1).

(** The sum of the contributions of the segments. *)
Fixpoint area (c : Curve.t) (t1 t2 : R) : R :=
  match c with
  | [] => 0
  | s :: rest => piece s t1 t2 + area rest t1 t2
  end.

Definition first_level (c : Curve.t) : R :=
  match c with
  | s :: _ => Segment.start_level s
  | [] => 0
  end.

Definition last_level (c : Curve.t) : R :=
  match Curve.last_segment c with
  | Some s => Segment.end_level s
  | None => 0
  end.

(** The integral from [t1] to [t2] of the curve extended by its first
    level before time 0 and by its last level after its length. *)
Definition total (c : Curve.t) (t1 t2 : R) : R :=
  first_level c * (Rmin t2 0 - Rmin t1 0)
  + area c t1 t2
  + last_level c * (Rmax t2 (Curve.length c) - Rmax t1 (Curve.length c)).

(** [self._segments[0]] *)
Definition first_segment (c : Curve.t) : result Segment.t :=
  match c with
  | [] => Raise IndexError
  | s :: _ => Ok s
  end.

(** A segment the scan of [integrate_interval] passes over. *)
Definition ends_before (t1 : R) (s : Segment.t) : Prop :=
  start_time s <= t1 /\ end_time s <= t1.

(** A segment that stays at one level. *)
Definition constant_segment (s : Segment.t) (k : R) : Prop :=
  start_time s < end_time s
  /\ Segment.start_level s = k /\ Segment.end_level s = k /\ curve_shape s = 0.

(** The sampling loop of the combination has seen no change of sign in
    the differences of a function that stays at [v]. *)
Definition flat (v : R) (st : Combine.sampling) : Prop :=
  (Combine.value st = None \/ Combine.value st = Some v)
  /\ (Combine.first_difference st = None \/ Combine.first_difference st = Some 0)
  /\ (Combine.second_difference st = None \/ Combine.second_difference st = Some 0)
  /\ Combine.split_points st = [].

End Model.

(** ** Curves and segments used as examples *)

Module Examples.

Import Segment.

Definition jump_at_zero : Curve.t := [mk 0 0 1 2 0; mk 0 1 2 3 0].

Definition linear_ramp : Segment.t := mk 0 2 1 3 0.

(** A segment from 0 to 1 over [[0, 1]] whose shape, [1.5e-6], is just
    above the threshold: each half gets the shape [0.75e-6], under the
    threshold, and is evaluated by the linear formula. *)
Definition nearly_linear : Segment.t := mk 0 1 0 1 (3 / 2000000).

Definition two_ramps : Curve.t := [mk 0 1 1 3 0; mk 1 2 3 2 0].

(** What [append_segment(4, -1)] makes of [two_ramps]: the last segment
    runs backward in time, from time 2 to time 1. *)
Definition backward_end : Curve.t :=
  [mk 0 1 1 3 0; mk 1 2 3 2 0; mk 2 1 2 4 0].

(** A jump from 9 to 1 at time 0, then the constant level 1. *)
Definition jump_then_flat : Curve.t := [mk 0 0 9 1 0; mk 0 1 1 1 0].

Definition ramp_from_zero : Curve.t := [mk 0 1 0 1 0].

(** Eight segments of duration 1, rising by 1 each. *)
Definition staircase : Curve.t :=
  [mk 0 1 0 1 0; mk 1 2 1 2 0; mk 2 3 2 3 0; mk 3 4 3 4 0;
   mk 4 5 4 5 0; mk 5 6 5 6 0; mk 6 7 6 7 0; mk 7 8 7 8 0].

(** Two linear segments that do not meet: the level is 1 at the end of
    the first and 5 at the start of the second. *)
Definition broken_ramps : Curve.t := [mk 0 1 0 1 0; mk 1 2 5 6 0].

Definition level_one : Segment.t := mk 0 1 1 1 0.
Definition level_two : Segment.t := mk 0 1 2 2 0.

End Examples.

(** ** Further notions the properties of the other methods use *)

Module Notions.

Import Segment Invariant Model.

(** The middle of the time range of a segment. *)
Definition midpoint (s : Segment.t) : R := (start_time s + end_time s) / 2.

(** Every level of the curve is at least [m] / at most [M]. *)
Definition levels_at_least (m : R) (c : Curve.t) : Prop :=
  Forall (fun s => m <= Segment.start_level s /\ m <= Segment.end_level s) c.

Definition levels_at_most (M : R) (c : Curve.t) : Prop :=
  Forall (fun s => Segment.start_level s <= M /\ Segment.end_level s <= M) c.

(** The time of [[a, b]] nearest to [x]. *)
Definition clip (a b x : R) : R := Rmax a (Rmin x b).

(** How far the curve has risen above its first level at time [x]: the
    sum over the segments of the change of level each has made by then. *)
Fixpoint rise (c : Curve.t) (x : R) : R :=
  match c with
  | [] => 0
  | s :: rest =>
      (interpolate s (normalize s (clamp s x)) - Segment.start_level s)
      + rise rest x
  end.

End Notions.

(** * Properties *)

Import Model.

Lemma Rltb_true x y : Rltb x y = true <-> x < y.
Proof. unfold Rltb. destruct (Rlt_dec x y); split; intros; auto; discriminate. Qed.

Lemma Rltb_false x y : Rltb x y = false <-> y <= x.
Proof.
  unfold Rltb. destruct (Rlt_dec x y); split; intros; auto; try discriminate; lra.
Qed.

Lemma Rleb_true x y : Rleb x y = true <-> x <= y.
Proof. unfold Rleb. destruct (Rle_dec x y); split; intros; auto; discriminate. Qed.

Lemma Rleb_false x y : Rleb x y = false <-> y < x.
Proof.
  unfold Rleb. destruct (Rle_dec x y); split; intros; auto; try discriminate; lra.
Qed.

Lemma Reqb_true x y : Reqb x y = true <-> x = y.
Proof. unfold Reqb. destruct (Req_dec_T x y); split; intros; auto; discriminate. Qed.

Lemma Reqb_false x y : Reqb x y = false <-> x <> y.
Proof.
  unfold Reqb. destruct (Req_dec_T x y); split; intros; auto; try discriminate.
  contradiction.
Qed.

Lemma div_ok x y : y <> 0 -> div x y = Ok (x / y).
Proof. intros H. unfold div. destruct (Req_dec_T y 0); [contradiction | reflexivity]. Qed.

Lemma div_zero x : div x 0 = Raise ZeroDivisionError.
Proof. unfold div. destruct (Req_dec_T 0 0); [reflexivity | contradiction]. Qed.

(** Deciding the comparisons of the code on given numbers. *)
Ltac decide_tests :=
  repeat match goal with
  | |- context [Rltb ?a ?b] =>
      first [ replace (Rltb a b) with true by (symmetry; apply Rltb_true; lra)
            | replace (Rltb a b) with false by (symmetry; apply Rltb_false; lra) ]
  | |- context [Rleb ?a ?b] =>
      first [ replace (Rleb a b) with true by (symmetry; apply Rleb_true; lra)
            | replace (Rleb a b) with false by (symmetry; apply Rleb_false; lra) ]
  | |- context [Reqb ?a ?b] =>
      first [ replace (Reqb a b) with true by (symmetry; apply Reqb_true; lra)
            | replace (Reqb a b) with false
                by (symmetry; apply Reqb_false; intro; lra) ]
  end.


(** ** Arithmetic of the interpolation formula *)

Lemma shape_epsilon_pos : 0 < shape_epsilon.
Proof. unfold shape_epsilon. lra. Qed.

Lemma exp_minus_1_neq_0 (S : R) : S <> 0 -> exp S - 1 <> 0.
Proof.
  intros H. destruct (Rlt_dec 0 S) as [Hpos | Hneg].
  - pose proof (exp_increasing 0 S Hpos) as HE. rewrite exp_0 in HE. lra.
  - assert (HS : S < 0) by lra.
    pose proof (exp_increasing S 0 HS) as HE. rewrite exp_0 in HE. lra.
Qed.

Lemma not_linear_neq_0 (S : R) : Rltb (Rabs S) shape_epsilon = false -> S <> 0.
Proof.
  intros H. apply Rltb_false in H. intros ->. rewrite Rabs_R0 in H.
  pose proof shape_epsilon_pos. lra.
Qed.

Lemma progress_0 S : progress S 0 = 0.
Proof. unfold progress. rewrite Rmult_0_r, exp_0. unfold Rdiv. lra. Qed.

Lemma progress_1 S : S <> 0 -> progress S 1 = 1.
Proof.
  intros H. unfold progress. rewrite Rmult_1_r. field. now apply exp_minus_1_neq_0.
Qed.

Lemma exp_le_mono (x y : R) : x <= y -> exp x <= exp y.
Proof.
  intros [H | ->]; [left; now apply exp_increasing | right; reflexivity].
Qed.

Lemma progress_mono S u1 u2 : S <> 0 -> u1 <= u2 -> progress S u1 <= progress S u2.
Proof.
  intros HS Hu. unfold progress.
  destruct (Rlt_dec 0 S) as [Hpos | Hneg].
  - assert (0 < exp S - 1)
      by (pose proof (exp_increasing 0 S Hpos); rewrite exp_0 in *; lra).
    assert (exp (S * u1) <= exp (S * u2)) by (apply exp_le_mono; nra).
    unfold Rdiv. apply Rmult_le_compat_r; [left; now apply Rinv_0_lt_compat | lra].
  - assert (HS' : S < 0) by lra.
    assert (exp S - 1 < 0)
      by (pose proof (exp_increasing S 0 HS'); rewrite exp_0 in *; lra).
    assert (exp (S * u2) <= exp (S * u1)) by (apply exp_le_mono; nra).
    assert (Hinv : / (exp S - 1) < 0) by now apply Rinv_lt_0_compat.
    unfold Rdiv. nra.
Qed.

Lemma progress_bounds S u : S <> 0 -> 0 <= u <= 1 -> 0 <= progress S u <= 1.
Proof.
  intros HS [H0 H1]. split.
  - rewrite <- (progress_0 S). now apply progress_mono.
  - rewrite <- (progress_1 S HS). now apply progress_mono.
Qed.

(** ** Segment evaluation *)

Module SegmentFacts.

Import Segment Model.

Lemma calculate_coefficients_ok s :
  exists c, calculate_coefficients s = Ok c.
Proof.
  unfold calculate_coefficients.
  destruct (Rltb (Rabs (curve_shape s)) shape_epsilon) eqn:E; [now eexists | ].
  pose proof (not_linear_neq_0 _ E) as HS.
  pose proof (exp_minus_1_neq_0 _ HS) as HE.
  rewrite !div_ok; [simpl; now eexists | | assumption].
  apply Rmult_integral_contrapositive_currified; assumption.
Qed.

Lemma value_at_unclipped s x :
  start_time s <> end_time s ->
  value_at s x false = Ok (interpolate s (normalize s x)).
Proof.
  intros Hne. unfold value_at, interpolate, normalize.
  destruct (calculate_coefficients_ok s) as [c ->]. simpl.
  rewrite div_ok by lra. simpl.
  destruct (Rltb (Rabs (curve_shape s)) shape_epsilon) eqn:E; [reflexivity | ].
  rewrite div_ok by (apply exp_minus_1_neq_0; now apply not_linear_neq_0).
  reflexivity.
Qed.

Lemma value_at_inside s x :
  start_time s < x < end_time s ->
  value_at s x true = Ok (interpolate s (normalize s x)).
Proof.
  intros [H1 H2]. rewrite <- value_at_unclipped by lra.
  unfold value_at. destruct (calculate_coefficients_ok s) as [c ->]. simpl.
  replace (Rleb (end_time s) x) with false by (symmetry; apply Rleb_false; lra).
  replace (Rleb x (start_time s)) with false by (symmetry; apply Rleb_false; lra).
  reflexivity.
Qed.

Lemma value_at_end s x :
  end_time s <= x -> value_at s x true = Ok (end_level s).
Proof.
  intros H. unfold value_at. destruct (calculate_coefficients_ok s) as [c ->]. simpl.
  replace (Rleb (end_time s) x) with true by (symmetry; now apply Rleb_true).
  reflexivity.
Qed.

Lemma value_at_start s x :
  x <= start_time s -> x < end_time s -> value_at s x true = Ok (start_level s).
Proof.
  intros H1 H2. unfold value_at. destruct (calculate_coefficients_ok s) as [c ->]. simpl.
  replace (Rleb (end_time s) x) with false by (symmetry; apply Rleb_false; lra).
  replace (Rleb x (start_time s)) with true by (symmetry; now apply Rleb_true).
  reflexivity.
Qed.

Lemma interpolate_progress s u :
  Rltb (Rabs (curve_shape s)) shape_epsilon = false ->
  interpolate s u
  = start_level s + (end_level s - start_level s) * progress (curve_shape s) u.
Proof.
  intros E. unfold interpolate, progress. rewrite E.
  field. apply exp_minus_1_neq_0. now apply not_linear_neq_0.
Qed.

Lemma interpolate_0 s : interpolate s 0 = start_level s.
Proof.
  destruct (Rltb (Rabs (curve_shape s)) shape_epsilon) eqn:E.
  - unfold interpolate. rewrite E. lra.
  - rewrite interpolate_progress, progress_0 by assumption. lra.
Qed.

Lemma interpolate_1 s : interpolate s 1 = end_level s.
Proof.
  destruct (Rltb (Rabs (curve_shape s)) shape_epsilon) eqn:E.
  - unfold interpolate. rewrite E. lra.
  - rewrite interpolate_progress, progress_1 by (try apply not_linear_neq_0; assumption).
    lra.
Qed.

(** Between two normalized times the interpolated value stays between
    the values at those times: the interpolation is monotone. *)
Lemma interpolate_between s u1 u u2 :
  u1 <= u <= u2 ->
  Rmin (interpolate s u1) (interpolate s u2) <= interpolate s u
  <= Rmax (interpolate s u1) (interpolate s u2).
Proof.
  intros [H1 H2].
  assert (Hkey : exists p1 p p2, p1 <= p <= p2 /\
            interpolate s u1 = start_level s + (end_level s - start_level s) * p1 /\
            interpolate s u = start_level s + (end_level s - start_level s) * p /\
            interpolate s u2 = start_level s + (end_level s - start_level s) * p2).
  { destruct (Rltb (Rabs (curve_shape s)) shape_epsilon) eqn:E.
    - exists u1, u, u2. unfold interpolate. rewrite E. repeat split; lra.
    - pose proof (not_linear_neq_0 _ E) as HS.
      exists (progress (curve_shape s) u1), (progress (curve_shape s) u),
             (progress (curve_shape s) u2).
      rewrite !interpolate_progress by assumption.
      repeat split; try reflexivity; now apply progress_mono. }
  destruct Hkey as (p1 & p & p2 & [Hp1 Hp2] & -> & -> & ->).
  set (d := end_level s - start_level s).
  unfold Rmin, Rmax.
  destruct (Rle_dec 0 d) as [Hd | Hd];
    destruct (Rle_dec _ _) as [Hle | Hle]; split;
    try (pose proof (Rmult_le_compat_l d _ _ Hd Hp1);
         pose proof (Rmult_le_compat_l d _ _ Hd Hp2); lra);
    assert (Hd' : 0 <= - d) by lra;
    pose proof (Rmult_le_compat_l (- d) _ _ Hd' Hp1);
    pose proof (Rmult_le_compat_l (- d) _ _ Hd' Hp2); lra.
Qed.

Lemma interpolate_bounds s u :
  0 <= u <= 1 ->
  Rmin (start_level s) (end_level s) <= interpolate s u
  <= Rmax (start_level s) (end_level s).
Proof.
  intros H. pose proof (interpolate_between s 0 u 1 H) as HB.
  now rewrite interpolate_0, interpolate_1 in HB.
Qed.

Lemma normalize_bounds s x :
  start_time s < end_time s -> start_time s <= x <= end_time s ->
  0 <= normalize s x <= 1.
Proof.
  intros Hlt [H1 H2]. unfold normalize.
  assert (0 < / (end_time s - start_time s)) by (apply Rinv_0_lt_compat; lra).
  unfold Rdiv. split.
  - apply Rmult_le_pos; lra.
  - apply Rmult_le_reg_r with (end_time s - start_time s); [lra | ].
    rewrite Rmult_assoc, Rinv_l by lra. lra.
Qed.

Lemma normalize_mono s x y :
  start_time s < end_time s -> x <= y -> normalize s x <= normalize s y.
Proof.
  intros Hlt Hxy. unfold normalize, Rdiv.
  apply Rmult_le_compat_r; [ | lra].
  left. apply Rinv_0_lt_compat. lra.
Qed.

Lemma normalize_start s : start_time s < end_time s -> normalize s (start_time s) = 0.
Proof. intros H. unfold normalize. field. lra. Qed.

Lemma normalize_end s : start_time s < end_time s -> normalize s (end_time s) = 1.
Proof. intros H. unfold normalize. field. lra. Qed.

(** On the closed time range of a segment of positive duration
    [value_at] is the interpolation formula, the clipped ends included. *)
Lemma value_at_closed s x :
  start_time s < end_time s -> start_time s <= x <= end_time s ->
  value_at s x true = Ok (interpolate s (normalize s x)).
Proof.
  intros Hlt [H1 H2].
  destruct (Req_dec_T x (end_time s)) as [-> | Hne].
  - rewrite value_at_end by lra. now rewrite normalize_end, interpolate_1.
  - destruct (Req_dec_T x (start_time s)) as [-> | Hns].
    + rewrite value_at_start by lra. now rewrite normalize_start, interpolate_0.
    + apply value_at_inside. lra.
Qed.

End SegmentFacts.

(** ** The invariant in the form the proofs use *)

Module InvariantFacts.

Import Segment Invariant Examples.

Lemma link_cons a s rest :
  link a (s :: rest) <->
  start_time s = a /\ (rest <> [] -> a <= end_time s /\ link (end_time s) rest).
Proof.
  destruct rest as [ | s2 rest]; simpl; split.
  - intros H. split; [assumption | intros Hne; now contradiction Hne].
  - now intros [H _].
  - intros (H1 & H2 & H3). split; [assumption | intros _; now split].
  - intros [H1 H2]. destruct H2 as [H2 H3]; [discriminate | now repeat split].
Qed.

Lemma link_sorted_contiguous a c :
  link a c <->
  (match c with s :: _ => start_time s = a | [] => True end)
  /\ sorted c /\ contiguous c.
Proof.
  revert a. induction c as [ | s1 rest IH]; intros a.
  - simpl. tauto.
  - destruct rest as [ | s2 rest].
    + simpl. tauto.
    + change (link a (s1 :: s2 :: rest))
        with (start_time s1 = a /\ a <= end_time s1 /\ link (end_time s1) (s2 :: rest)).
      rewrite (IH (end_time s1)).
      change (sorted (s1 :: s2 :: rest))
        with (start_time s1 <= start_time s2 /\ sorted (s2 :: rest)).
      change (contiguous (s1 :: s2 :: rest))
        with (end_time s1 = start_time s2 /\ contiguous (s2 :: rest)).
      split.
      * intros (H1 & H2 & H3 & H4 & H5). repeat split; try assumption; lra.
      * intros (H1 & (H2 & H3) & (H4 & H5)). repeat split; try assumption; lra.
Qed.

Lemma structural_link c : structural c <-> c <> [] /\ link 0 c.
Proof.
  unfold structural. rewrite link_sorted_contiguous.
  destruct c as [ | s rest]; simpl; [tauto | ]. tauto.
Qed.

Lemma chain_link a c : chain a c -> link a c.
Proof.
  revert a. induction c as [ | s rest IH]; intros a H; [exact I | ].
  destruct H as (H1 & H2 & H3). apply link_cons. split; [assumption | ].
  intros _. split; [assumption | now apply IH].
Qed.

Lemma chain_well_formed a c : chain a c -> Forall well_formed c.
Proof.
  revert a. induction c as [ | s rest IH]; intros a H; [constructor | ].
  destruct H as (H1 & H2 & H3). constructor; [ | now apply (IH (end_time s))].
  unfold well_formed. lra.
Qed.

Lemma link_chain a c : link a c -> Forall well_formed c -> chain a c.
Proof.
  revert a. induction c as [ | s rest IH]; intros a H HF; [exact I | ].
  inversion HF as [ | ? ? Hs Hrest]; subst.
  apply link_cons in H. destruct H as [H1 H2]. unfold well_formed in Hs.
  simpl. repeat split; [assumption | lra | ].
  destruct rest as [ | s2 rest]; [exact I | ].
  destruct H2 as [_ H2]; [discriminate | ]. now apply IH.
Qed.

Lemma valid_chain c : valid c <-> c <> [] /\ chain 0 c.
Proof.
  unfold valid. rewrite structural_link. split.
  - intros (HF & Hne & HL). split; [assumption | now apply link_chain].
  - intros (Hne & HC). repeat split; try assumption.
    + now apply chain_well_formed with 0.
    + now apply chain_link.
Qed.

Lemma last_segment_app c s : Curve.last_segment (c ++ [s]) = Some s.
Proof.
  induction c as [ | s1 rest IH]; [reflexivity | ].
  simpl. destruct (rest ++ [s]) eqn:E; [now destruct rest | exact IH].
Qed.

Lemma last_segment_cons s c :
  c <> [] -> Curve.last_segment (s :: c) = Curve.last_segment c.
Proof. destruct c; [intros H; now contradiction H | reflexivity]. Qed.

Lemma last_segment_some c : c <> [] -> exists s, Curve.last_segment c = Some s.
Proof.
  induction c as [ | s1 rest IH]; intros H; [now contradiction H | ].
  destruct rest as [ | s2 rest]; [now exists s1 | ].
  rewrite last_segment_cons by discriminate. apply IH. discriminate.
Qed.

Lemma length_cons s c : c <> [] -> Curve.length (s :: c) = Curve.length c.
Proof. intros H. unfold Curve.length. now rewrite last_segment_cons. Qed.

Lemma end_level_cons s c : c <> [] -> Curve.end_level (s :: c) = Curve.end_level c.
Proof. intros H. unfold Curve.end_level. now rewrite last_segment_cons. Qed.

(** Along a chain every segment lies between the start of the chain and
    the length of the curve. *)
Lemma chain_bounds a c :
  chain a c -> c <> [] ->
  a <= Curve.length c /\
  Forall (fun s => a <= start_time s /\ end_time s <= Curve.length c) c.
Proof.
  revert a. induction c as [ | s rest IH]; intros a H Hne; [now contradiction Hne | ].
  destruct H as (H1 & H2 & H3).
  destruct rest as [ | s2 rest].
  - unfold Curve.length. simpl. split; [lra | ]. constructor; [lra | constructor].
  - rewrite length_cons by discriminate.
    destruct (IH _ H3) as [HL HF]; [discriminate | ].
    split; [lra | ]. constructor; [lra | ].
    eapply Forall_impl; [ | exact HF]. simpl. intros x Hx. lra.
Qed.

Lemma valid_length_nonneg c : valid c -> 0 <= Curve.length c.
Proof.
  intros H. apply valid_chain in H. destruct H as [Hne HC].
  now apply chain_bounds.
Qed.

(** The example curves are curves. *)

Lemma jump_at_zero_valid : valid jump_at_zero.
Proof.
  unfold valid, structural, jump_at_zero. simpl. repeat split; try lra.
  - repeat constructor; unfold well_formed; simpl; lra.
  - discriminate.
Qed.

Lemma two_ramps_valid : valid two_ramps.
Proof.
  unfold valid, structural, two_ramps. simpl. repeat split; try lra.
  - repeat constructor; unfold well_formed; simpl; lra.
  - discriminate.
Qed.

Lemma jump_then_flat_valid : valid jump_then_flat.
Proof.
  unfold valid, structural, jump_then_flat. simpl. repeat split; try lra.
  - repeat constructor; unfold well_formed; simpl; lra.
  - discriminate.
Qed.

Lemma staircase_valid : valid staircase.
Proof.
  unfold valid, structural, staircase. simpl. repeat split; try lra.
  - repeat constructor; unfold well_formed; simpl; lra.
  - discriminate.
Qed.

Lemma broken_ramps_valid : valid broken_ramps.
Proof.
  unfold valid, structural, broken_ramps. simpl. repeat split; try lra.
  - repeat constructor; unfold well_formed; simpl; lra.
  - discriminate.
Qed.

End InvariantFacts.

(** ** Evaluation of a curve *)

Module CurveFacts.

Import Segment Invariant Model Examples InvariantFacts SegmentFacts.

Lemma scan_skip l1 l2 c x :
  Forall (fun s => contains s x = false) l1 ->
  Curve.value_at_scan (l1 ++ l2) c x = Curve.value_at_scan l2 c x.
Proof.
  induction 1 as [ | s l Hs _ IH]; [reflexivity | ].
  simpl. now rewrite Hs.
Qed.

Lemma scan_none l c x :
  Forall (fun s => contains s x = false) l ->
  Curve.value_at_scan l c x = Curve.end_level c.
Proof.
  intros H. rewrite <- (app_nil_r l). now rewrite scan_skip.
Qed.

Lemma scan_last l s c x :
  contains s x = false ->
  Curve.value_at_scan (l ++ [s]) c x = Curve.value_at_scan l c x.
Proof.
  intros Hs. induction l as [ | s1 l IH]; simpl.
  - now rewrite Hs.
  - now rewrite IH.
Qed.

Lemma chain_starts_after a c :
  chain a c -> Forall (fun s => a <= start_time s) c.
Proof.
  revert a. induction c as [ | s rest IH]; intros a H; [constructor | ].
  destruct H as (H1 & H2 & H3). constructor; [lra | ].
  eapply Forall_impl; [ | exact (IH _ H3)]. simpl. intros. lra.
Qed.

Lemma not_contains_before s x : x < start_time s -> contains s x = false.
Proof.
  intros H. unfold contains.
  replace (Rleb (start_time s) x) with false by (symmetry; apply Rleb_false; lra).
  reflexivity.
Qed.

Lemma not_contains_after s x : end_time s <= x -> contains s x = false.
Proof.
  intros H. unfold contains.
  replace (Rltb x (end_time s)) with false by (symmetry; apply Rltb_false; lra).
  apply andb_false_r.
Qed.

Lemma scan_forward a segments c x :
  chain a segments -> a <= x ->
  Curve.value_at_scan (rev segments) c x
  = value_at_forward segments (Curve.end_level c) x.
Proof.
  revert a. induction segments as [ | s rest IH]; intros a H Hx; [reflexivity | ].
  destruct H as (H1 & H2 & H3). simpl.
  destruct (Rltb x (end_time s)) eqn:E.
  - apply Rltb_true in E. rewrite scan_skip.
    + simpl. unfold contains.
      replace (Rleb (start_time s) x) with true by (symmetry; apply Rleb_true; lra).
      replace (Rltb x (end_time s)) with true by (symmetry; apply Rltb_true; lra).
      reflexivity.
    + apply Forall_rev. eapply Forall_impl; [ | exact (chain_starts_after _ _ H3)].
      simpl. intros s' Hs'. apply not_contains_before. lra.
  - apply Rltb_false in E. rewrite scan_last by now apply not_contains_after.
    now apply IH with (end_time s).
Qed.

Lemma value_at_forward_eq c x :
  valid c -> 0 <= x ->
  Curve.value_at c x = value_at_forward c (Curve.end_level c) x.
Proof.
  intros H Hx. apply valid_chain in H. destruct H as [_ HC].
  unfold Curve.value_at.
  replace (Rltb x 0) with false by (symmetry; apply Rltb_false; lra).
  now apply scan_forward with 0.
Qed.

Lemma value_at_negative c x : x < 0 -> Curve.value_at c x = Curve.start_level c.
Proof.
  intros H. unfold Curve.value_at.
  now replace (Rltb x 0) with true by (symmetry; now apply Rltb_true).
Qed.

Lemma value_at_forward_beyond segments beyond x :
  Forall (fun s => end_time s <= x) segments ->
  value_at_forward segments beyond x = beyond.
Proof.
  induction 1 as [ | s l Hs _ IH]; [reflexivity | ].
  simpl. now replace (Rltb x (end_time s)) with false
    by (symmetry; now apply Rltb_false).
Qed.

Lemma value_at_beyond c x :
  valid c -> Curve.length c <= x -> Curve.value_at c x = Curve.end_level c.
Proof.
  intros H Hx. pose proof (valid_length_nonneg c H) as HL.
  rewrite value_at_forward_eq by (assumption || lra).
  apply valid_chain in H. destruct H as [Hne HC].
  apply value_at_forward_beyond.
  eapply Forall_impl; [ | exact (proj2 (chain_bounds _ _ HC Hne))].
  simpl. intros s Hs. lra.
Qed.

Lemma forward_after_jumps a jumps s rest beyond :
  chain a (jumps ++ s :: rest) ->
  Forall (fun j => start_time j = end_time j) jumps ->
  start_time s < end_time s ->
  value_at_forward (jumps ++ s :: rest) beyond a = Ok (Segment.start_level s).
Proof.
  intros Hch Hjumps Hpos. revert a Hch.
  induction Hjumps as [ | j jumps Hj _ IH]; intros a Hch.
  - destruct Hch as (Hst & _). cbn [app value_at_forward].
    replace (Rltb a (end_time s)) with true by (symmetry; apply Rltb_true; lra).
    apply value_at_start; lra.
  - destruct Hch as (Hst & _ & Hrest). cbn [app value_at_forward].
    replace (Rltb a (end_time j)) with false by (symmetry; apply Rltb_false; lra).
    replace a with (end_time j) by lra. now apply IH.
Qed.

Lemma chain_zero_length a c :
  chain a c -> Forall (fun j => start_time j = end_time j) c ->
  Forall (fun j => end_time j <= a) c.
Proof.
  intros Hch Hzero. revert a Hch.
  induction Hzero as [ | j c Hj _ IH]; intros a Hch; [constructor | ].
  destruct Hch as (Hst & _ & Hrest). constructor; [lra | ].
  replace a with (end_time j) by lra. now apply IH.
Qed.

(** C2 (as amended).  For every curve [c] whose segments run forward in
    time, [value_at(length)] is [end_level()]; [value_at(0)] is the
    start level of the first segment of positive duration, the level
    after all the zero-length jumps at time 0 (the reversed scan of
    [value_at] passes over them), and [end_level()] when every segment
    has zero length.  So [value_at(0)] is [start_level()] when the first
    segment has a positive duration, and on a curve of one segment
    whose two levels are equal. *)
Theorem value_at_endpoints (c : Curve.t) :
  valid c ->
  Curve.value_at c (Curve.length c) = Curve.end_level c
  /\ (forall jumps s rest, c = jumps ++ s :: rest ->
      Forall (fun j => start_time j = end_time j) jumps ->
      start_time s < end_time s ->
      Curve.value_at c 0 = Ok (Segment.start_level s))
  /\ (Forall (fun j => start_time j = end_time j) c ->
      Curve.value_at c 0 = Curve.end_level c)
  /\ (forall s rest, c = s :: rest -> start_time s < end_time s ->
      Curve.value_at c 0 = Curve.start_level c)
  /\ (forall s, c = [s] -> Segment.start_level s = Segment.end_level s ->
      Curve.value_at c 0 = Curve.start_level c).
Proof.
  intros H. pose proof (proj1 (valid_chain c) H) as [Hne Hch].
  assert (Hjumps : forall jumps s rest, c = jumps ++ s :: rest ->
            Forall (fun j => start_time j = end_time j) jumps ->
            start_time s < end_time s ->
            Curve.value_at c 0 = Ok (Segment.start_level s)).
  { intros jumps s rest Hc Hzero Hpos.
    rewrite value_at_forward_eq by (assumption || lra).
    rewrite Hc in *. now apply forward_after_jumps. }
  assert (Hzero : Forall (fun j => start_time j = end_time j) c ->
            Curve.value_at c 0 = Curve.end_level c).
  { intros Hall. rewrite value_at_forward_eq by (assumption || lra).
    apply value_at_forward_beyond. now apply chain_zero_length. }
  assert (Hfirst : forall s rest, c = s :: rest -> start_time s < end_time s ->
            Curve.value_at c 0 = Curve.start_level c).
  { intros s rest Hc Hpos. rewrite (Hjumps [] s rest Hc (Forall_nil _) Hpos).
    now rewrite Hc. }
  split; [apply value_at_beyond; [assumption | lra] | ].
  split; [exact Hjumps | ]. split; [exact Hzero | ]. split; [exact Hfirst | ].
  intros s Hc Hlevel.
  destruct (Rlt_dec (start_time s) (end_time s)) as [Hpos | Hnpos].
  - now apply (Hfirst s []).
  - rewrite Hzero.
    + rewrite Hc. unfold Curve.end_level. simpl. now rewrite Hlevel.
    + rewrite Hc in *. constructor; [ | constructor].
      destruct Hch as (Hst & Hle & _). lra.
Qed.

Lemma value_at_endpoints_witness :
  Curve.value_at two_ramps (Curve.length two_ramps) = Curve.end_level two_ramps
  /\ Curve.value_at two_ramps 0 = Curve.start_level two_ramps
  /\ Curve.value_at jump_at_zero 0 = Ok 2.
Proof.
  destruct (value_at_endpoints two_ramps two_ramps_valid)
    as (Hend & _ & _ & Hstart & _).
  destruct (value_at_endpoints jump_at_zero jump_at_zero_valid)
    as (_ & Hjumps & _).
  split; [exact Hend | ]. split.
  - apply (Hstart (mk 0 1 1 3 0) [mk 1 2 3 2 0] eq_refl). simpl. lra.
  - apply (Hjumps [mk 0 0 1 2 0] (mk 0 1 2 3 0) [] eq_refl).
    + constructor; [reflexivity | constructor].
    + simpl. lra.
Defined.

(** The segments have to run forward in time: [backward_end] meets the
    four conditions of the structural invariant, and its value at its
    length, 1, is the level 3 that the second segment starts with, not
    its end level 4. *)
Lemma value_at_length_of_backward_end :
  structural backward_end
  /\ Curve.value_at backward_end (Curve.length backward_end) = Ok 3
  /\ Curve.end_level backward_end = Ok 4.
Proof.
  split; [ | split; [ | reflexivity]].
  - unfold structural, backward_end. simpl.
    repeat split; try lra; try discriminate.
  - unfold Curve.value_at, Curve.length, backward_end. simpl.
    unfold contains. simpl. decide_tests. simpl.
    apply value_at_start; simpl; lra.
Qed.

(** C2 as stated fails: with a zero-length jump from 1 to 2 at time 0,
    [value_at(0)] is 2 and [start_level()] is 1. *)
Lemma value_at_zero_after_jump :
  valid jump_at_zero
  /\ Curve.value_at jump_at_zero 0 = Ok 2
  /\ Curve.start_level jump_at_zero = Ok 1
  /\ Curve.value_at jump_at_zero 0 <> Curve.start_level jump_at_zero.
Proof.
  assert (HV : Curve.value_at jump_at_zero 0 = Ok 2).
  { unfold Curve.value_at, jump_at_zero. simpl. unfold contains. simpl.
    decide_tests. simpl. apply value_at_start; simpl; lra. }
  split; [exact jump_at_zero_valid | ].
  split; [exact HV | ]. split; [reflexivity | ].
  rewrite HV. simpl. intros H. injection H. lra.
Qed.

End CurveFacts.

(** ** The mutating methods keep the invariant *)

Module MutationFacts.

Import Segment Invariant Model Examples InvariantFacts SegmentFacts CurveFacts.

Lemma chain_app a c n :
  chain a c -> c <> [] -> start_time n = Curve.length c ->
  start_time n <= end_time n -> chain a (c ++ [n]).
Proof.
  revert a. induction c as [ | s rest IH]; intros a H Hne Hn Hwf;
    [now contradiction Hne | ].
  destruct H as (H1 & H2 & H3). simpl. repeat split; try assumption.
  destruct rest as [ | s2 rest].
  - unfold Curve.length in Hn. simpl in *. repeat split; lra.
  - rewrite length_cons in Hn by discriminate.
    apply IH; auto. discriminate.
Qed.

Lemma chain_app_link a c n :
  chain a c -> c <> [] -> start_time n = Curve.length c -> link a (c ++ [n]).
Proof.
  revert a. induction c as [ | s rest IH]; intros a H Hne Hn;
    [now contradiction Hne | ].
  destruct H as (H1 & H2 & H3).
  change ((s :: rest) ++ [n]) with (s :: (rest ++ [n])).
  apply link_cons. split; [assumption | ]. intros _. split; [assumption | ].
  destruct rest as [ | s2 rest].
  - unfold Curve.length in Hn. simpl in *. lra.
  - rewrite length_cons in Hn by discriminate.
    apply IH; auto. discriminate.
Qed.

Lemma update_last_nonempty f c : c <> [] -> Curve.update_last f c <> [].
Proof. destruct c as [ | s [ | s2 rest]]; simpl; intros H; congruence. Qed.

Lemma chain_update_last_link a c f :
  chain a c -> (forall s, start_time (f s) = start_time s) ->
  link a (Curve.update_last f c).
Proof.
  intros H Hf. revert a H. induction c as [ | s rest IH]; intros a H; [exact I | ].
  destruct H as (H1 & H2 & H3).
  destruct rest as [ | s2 rest].
  - simpl. now rewrite Hf.
  - change (Curve.update_last f (s :: s2 :: rest))
      with (s :: Curve.update_last f (s2 :: rest)).
    apply link_cons. split; [assumption | ]. intros _. split; [assumption | ].
    now apply IH.
Qed.

Lemma chain_update_last a c f :
  chain a c -> (forall s, start_time (f s) = start_time s) ->
  (forall s, Curve.last_segment c = Some s -> start_time s <= end_time (f s)) ->
  chain a (Curve.update_last f c).
Proof.
  intros H Hf. revert a H. induction c as [ | s rest IH]; intros a H Hl; [exact I | ].
  destruct H as (H1 & H2 & H3).
  destruct rest as [ | s2 rest].
  - simpl. rewrite Hf. repeat split; [assumption | ].
    specialize (Hl s eq_refl). lra.
  - change (Curve.update_last f (s :: s2 :: rest))
      with (s :: Curve.update_last f (s2 :: rest)).
    simpl chain. repeat split; try assumption.
    apply IH; [assumption | ]. intros s' Hs'. apply Hl. exact Hs'.
Qed.

Lemma chain_last a c s :
  chain a c -> Curve.last_segment c = Some s ->
  a <= start_time s /\ start_time s <= end_time s.
Proof.
  revert a. induction c as [ | s1 rest IH]; intros a H Hl; [discriminate | ].
  destruct H as (H1 & H2 & H3).
  destruct rest as [ | s2 rest].
  - injection Hl as <-. lra.
  - destruct (IH _ H3 Hl). lra.
Qed.

Lemma chain_removelast a c : chain a c -> chain a (removelast c).
Proof.
  revert a. induction c as [ | s rest IH]; intros a H; [exact I | ].
  destruct H as (H1 & H2 & H3).
  destruct rest as [ | s2 rest]; [exact I | ].
  change (removelast (s :: s2 :: rest)) with (s :: removelast (s2 :: rest)).
  simpl chain. repeat split; try assumption. now apply IH.
Qed.

Lemma removelast_nonempty (s1 s2 : Segment.t) rest : removelast (s1 :: s2 :: rest) <> [].
Proof.
  change (removelast (s1 :: s2 :: rest)) with (s1 :: removelast (s2 :: rest)).
  discriminate.
Qed.

(** *** [append_segment] *)

Lemma append_segment_ok c level d shape tol :
  valid c ->
  snd (Curve.append_segment c level d shape tol) = Ok tt
  /\ structural (fst (Curve.append_segment c level d shape tol))
  /\ (0 <= d -> valid (fst (Curve.append_segment c level d shape tol))).
Proof.
  intros H. apply valid_chain in H. destruct H as [Hne HC].
  destruct (last_segment_some c Hne) as [l Hl].
  destruct (chain_last _ _ _ HC Hl) as [Hl0 Hlwf].
  assert (HLen : Curve.length c = end_time l) by (unfold Curve.length; now rewrite Hl).
  assert (Happ : forall n, start_time n = Curve.length c ->
            end_time n = Curve.length c + d ->
            structural (c ++ [n]) /\ (0 <= d -> valid (c ++ [n]))).
  { intros n Hn1 Hn2. split.
    - apply structural_link. split; [now destruct c | now apply chain_app_link].
    - intros Hd. apply valid_chain. split; [now destruct c | ].
      apply chain_app; try assumption. lra. }
  assert (Hupd : forall f, (forall s, start_time (f s) = start_time s) ->
            (forall s, end_time (f s) = end_time s
                       \/ end_time (f s) = Curve.length c + d) ->
            structural (Curve.update_last f c)
            /\ (0 <= d -> valid (Curve.update_last f c))).
  { intros f Hf1 Hf2. split.
    - apply structural_link. split; [now apply update_last_nonempty | ].
      now apply chain_update_last_link.
    - intros Hd. apply valid_chain. split; [now apply update_last_nonempty | ].
      apply chain_update_last; try assumption.
      intros s Hs. rewrite Hl in Hs. injection Hs as <-.
      destruct (Hf2 l) as [-> | ->]; lra. }
  unfold Curve.append_segment. rewrite Hl.
  destruct (Reqb (duration l) 0) eqn:Edur.
  - destruct (Reqb d 0) eqn:Ed.
    + simpl. split; [reflexivity | ]. apply Hupd; simpl; auto.
    + destruct (negb (Reqb (Segment.end_level l) (Segment.start_level l))).
      * simpl. split; [reflexivity | ]. apply Happ; reflexivity.
      * simpl. split; [reflexivity | ]. apply Hupd; simpl; auto.
  - apply Reqb_false in Edur. unfold duration in Edur.
    destruct (Reqb (curve_shape l) 0 && Reqb shape 0).
    + rewrite value_at_unclipped by lra. simpl.
      destruct (Rleb _ tol).
      * simpl. split; [reflexivity | ]. apply Hupd; simpl; auto.
      * simpl. split; [reflexivity | ]. apply Happ; reflexivity.
    + simpl. split; [reflexivity | ]. apply Happ; reflexivity.
Qed.

(** *** [insert] *)

Lemma chain_insert_loop a x level s_in s_out c :
  chain a c ->
  chain a (Curve.insert_loop x level s_in s_out c)
  /\ (c <> [] -> Curve.insert_loop x level s_in s_out c <> []).
Proof.
  revert a. induction c as [ | s rest IH]; intros a H; [split; [exact I | auto] | ].
  destruct H as (H1 & H2 & H3). simpl.
  destruct (Rltb (start_time s) x && Rltb x (end_time s)) eqn:E.
  - apply andb_true_iff in E. destruct E as [E1 E2].
    apply Rltb_true in E1. apply Rltb_true in E2.
    split; [ | discriminate]. simpl. repeat split; try assumption; lra.
  - split; [ | discriminate].
    destruct (IH _ H3) as [IH1 _].
    destruct (Reqb x (start_time s)); destruct (Reqb x (end_time s)); simpl;
      repeat split; assumption.
Qed.

Lemma insert_ok c x level s_in s_out :
  valid c -> 0 <= x ->
  snd (Curve.insert c x level s_in s_out) = Ok tt
  /\ valid (fst (Curve.insert c x level s_in s_out)).
Proof.
  intros H Hx. unfold Curve.insert.
  replace (Rleb 0 x) with true by (symmetry; now apply Rleb_true).
  destruct (Rltb (Curve.length c) x) eqn:E.
  - apply Rltb_true in E.
    destruct (append_segment_ok c level (x - Curve.length c) s_in 0 H) as (H1 & _ & H3).
    split; [assumption | apply H3; lra].
  - simpl. split; [reflexivity | ].
    apply valid_chain in H. destruct H as [Hne HC]. apply valid_chain.
    destruct (chain_insert_loop 0 x level s_in s_out c HC) as [H1 H2].
    split; [now apply H2 | assumption].
Qed.

(** *** [insert_interpolated] *)

Lemma split_at_ok s x :
  start_time s < x < end_time s ->
  Segment.split_at s x
  = Ok (mk (start_time s) x (Segment.start_level s)
           (interpolate s (normalize s x)) (normalize s x * curve_shape s),
        mk x (end_time s) (interpolate s (normalize s x)) (Segment.end_level s)
           (curve_shape s - normalize s x * curve_shape s)).
Proof.
  intros [H1 H2]. unfold Segment.split_at.
  replace (Rltb (start_time s) x) with true by (symmetry; now apply Rltb_true).
  replace (Rltb x (end_time s)) with true by (symmetry; now apply Rltb_true).
  simpl. rewrite value_at_inside by lra. simpl.
  rewrite div_ok by lra. reflexivity.
Qed.

Lemma insert_interpolated_loop_ok a x segments fuel :
  chain a segments -> (List.length segments < fuel)%nat ->
  exists segments',
    Curve.insert_interpolated_loop fuel x segments = Ok segments'
    /\ chain a segments'
    /\ (segments <> [] -> segments' <> [])
    /\ (forall s', Curve.last_segment segments' = Some s' ->
        exists s, Curve.last_segment segments = Some s /\ end_time s' = end_time s).
Proof.
  revert a fuel. induction segments as [ | s rest IH]; intros a fuel H Hfuel.
  - destruct fuel as [ | fuel]; [inversion Hfuel | ].
    exists []. simpl. repeat split; auto. intros s' Hs'. discriminate.
  - destruct fuel as [ | fuel]; [inversion Hfuel | ]. simpl in Hfuel.
    destruct H as (H1 & H2 & H3). simpl.
    destruct (Reqb x (start_time s)) eqn:E1.
    + exists (s :: rest). repeat split; try assumption; auto.
      intros s' Hs'. now exists s'.
    + apply Reqb_false in E1.
      destruct (contains s x) eqn:E2.
      * unfold contains in E2. apply andb_true_iff in E2. destruct E2 as [E2 E3].
        apply Rleb_true in E2. apply Rltb_true in E3.
        rewrite split_at_ok by lra. simpl.
        destruct fuel as [ | fuel]; [lia | ]. simpl.
        replace (Reqb x x) with true by (symmetry; now apply Reqb_true).
        simpl. eexists. split; [reflexivity | ].
        split; [simpl; repeat split; try assumption; lra | ].
        split; [discriminate | ].
        destruct rest as [ | s2 rest].
        { intros s' Hs'. injection Hs' as <-. exists s. now split. }
        { intros s' Hs'. exists s'. split; [exact Hs' | reflexivity]. }
      * destruct (IH (end_time s) fuel H3) as (tail & Ht & HtC & Htne & Hte);
          [lia | ].
        rewrite Ht. simpl. exists (s :: tail).
        split; [reflexivity | ].
        split; [simpl; now repeat split | ].
        split; [discriminate | ].
        destruct rest as [ | s2 rest].
        { destruct fuel; simpl in Ht; [discriminate | ]. injection Ht as <-.
          intros s' Hs'. now exists s'. }
        { assert (tail <> []) by (apply Htne; discriminate).
          rewrite !last_segment_cons by (assumption || discriminate).
          intros s' Hs'. now apply Hte. }
Qed.

Lemma insert_interpolated_ok c x :
  valid c -> 0 <= x <= Curve.length c ->
  snd (Curve.insert_interpolated c x) = Ok tt
  /\ valid (fst (Curve.insert_interpolated c x))
  /\ Curve.length (fst (Curve.insert_interpolated c x)) = Curve.length c.
Proof.
  intros H [Hx0 HxL]. unfold Curve.insert_interpolated.
  replace (Rleb 0 x) with true by (symmetry; now apply Rleb_true).
  replace (Rleb x (Curve.length c)) with true by (symmetry; now apply Rleb_true).
  destruct (Reqb x (Curve.length c));
    [simpl; split; [reflexivity | split; [assumption | reflexivity]] | ].
  pose proof H as H'. apply valid_chain in H'. destruct H' as [Hne HC].
  destruct (insert_interpolated_loop_ok 0 x c (S (List.length c)) HC)
    as (c' & Hc' & HC' & Hne' & Hlast); [lia | ].
  rewrite Hc'. simpl. split; [reflexivity | ].
  split; [apply valid_chain; split; [now apply Hne' | assumption] | ].
  unfold Curve.length.
  destruct (last_segment_some c' (Hne' Hne)) as [s' Hs'].
  rewrite Hs'. destruct (Hlast s' Hs') as (s & -> & Hs). exact Hs.
Qed.

(** *** [pop_segment] and the loops over it *)

Lemma removelast_shorter (s : Segment.t) rest :
  List.length (removelast (s :: rest)) = List.length rest.
Proof.
  revert s. induction rest as [ | s2 rest IH]; intros s; [reflexivity | ].
  change (removelast (s :: s2 :: rest)) with (s :: removelast (s2 :: rest)).
  cbn [List.length]. now rewrite IH.
Qed.

Lemma pop_segment_chain a c c' r :
  chain a c -> c <> [] -> Curve.pop_segment c = (c', r) ->
  chain a c' /\ c' <> [].
Proof.
  intros H Hne Hpop. destruct c as [ | s [ | s2 rest]]; [now contradiction Hne | | ].
  - destruct H as (H1 & H2 & _). unfold Curve.pop_segment in Hpop.
    destruct (negb (Reqb (end_time s) (start_time s))
              || negb (Reqb (Segment.end_level s) (Segment.start_level s)));
      injection Hpop as <- <-.
    + split; [simpl; repeat split; try assumption; lra | discriminate].
    + split; [simpl; now repeat split | discriminate].
  - unfold Curve.pop_segment in Hpop.
    destruct (last_segment_some (s :: s2 :: rest) Hne) as [l Hl].
    rewrite Hl in Hpop. injection Hpop as <- <-.
    split; [exact (chain_removelast _ _ H) | exact (removelast_nonempty s s2 rest)].
Qed.

Lemma pop_all_chain a fuel c :
  chain a c -> c <> [] ->
  chain a (fst (Curve.pop_all fuel c)) /\ fst (Curve.pop_all fuel c) <> [].
Proof.
  revert c. induction fuel as [ | fuel IH]; intros c H Hne; [now split | ].
  simpl. destruct (Curve.pop_segment c) as [c' r] eqn:E.
  destruct (pop_segment_chain _ _ _ _ H Hne E) as [HC' Hne'].
  destruct r as [o | e | ]; [now apply IH | | now split].
  destruct e; now split.
Qed.

Lemma pop_all_ok fuel c :
  c <> [] -> (List.length c < fuel)%nat \/ (collapsed c /\ (1 <= fuel)%nat) ->
  snd (Curve.pop_all fuel c) = Ok tt /\ collapsed (fst (Curve.pop_all fuel c)).
Proof.
  revert c. induction fuel as [ | fuel IH]; intros c Hne Hfuel.
  - destruct Hfuel as [Hf | [_ Hf]]; inversion Hf.
  - destruct c as [ | s [ | s2 rest]]; [now contradiction Hne | | ].
    + simpl.
      destruct (Reqb (end_time s) (start_time s)) eqn:E1;
        destruct (Reqb (Segment.end_level s) (Segment.start_level s)) eqn:E2; simpl;
        try (apply IH; [discriminate | ]; right; split;
             [eexists; split; [reflexivity | split; reflexivity] | ];
             destruct Hfuel as [Hf | [(s' & Hs' & Ht & Hl) _]];
             [simpl in Hf; lia | ];
             injection Hs' as <-;
             apply Reqb_true in Ht || apply Reqb_false in E1;
             try (apply Reqb_false in E2); congruence).
      apply Reqb_true in E1. apply Reqb_true in E2.
      split; [reflexivity | ]. exists s. now repeat split.
    + destruct Hfuel as [Hf | [(s' & Hs' & _) _]]; [ | discriminate].
      simpl in Hf.
      destruct (last_segment_some (s :: s2 :: rest) Hne) as [l Hl].
      change (Curve.pop_all (S fuel) (s :: s2 :: rest))
        with (match Curve.pop_segment (s :: s2 :: rest) with
              | (c', Ok _) => Curve.pop_all fuel c'
              | (c', Raise IndexError) => (c', Ok tt)
              | (c', Raise e) => (c', Raise e)
              | (c', OutOfFuel) => (c', OutOfFuel)
              end).
      unfold Curve.pop_segment. rewrite Hl.
      apply IH; [apply removelast_nonempty | ]. left.
      rewrite removelast_shorter. simpl. lia.
Qed.

Lemma pop_while_longer_chain a fuel c x :
  chain a c -> c <> [] ->
  chain a (fst (Curve.pop_while_longer fuel c x))
  /\ fst (Curve.pop_while_longer fuel c x) <> [].
Proof.
  revert c. induction fuel as [ | fuel IH]; intros c H Hne; [now split | ].
  simpl. destruct (Rltb x (Curve.length c)); [ | now split].
  destruct (Curve.pop_segment c) as [c' r] eqn:E.
  destruct (pop_segment_chain _ _ _ _ H Hne E) as [HC' Hne'].
  destruct r as [o | e | ]; [now apply IH | now split | now split].
Qed.

Lemma pop_while_longer_ok a fuel c x :
  chain a c -> c <> [] -> a <= x ->
  (List.length c < fuel)%nat
  \/ ((exists s, c = [s] /\ end_time s = start_time s) /\ (1 <= fuel)%nat) ->
  snd (Curve.pop_while_longer fuel c x) = Ok tt.
Proof.
  revert c. induction fuel as [ | fuel IH]; intros c H Hne Hx Hfuel.
  - destruct Hfuel as [Hf | [_ Hf]]; inversion Hf.
  - destruct c as [ | s [ | s2 rest]]; [now contradiction Hne | | ].
    + destruct H as (H1 & H2 & _).
      simpl. unfold Curve.length. simpl.
      destruct (Rltb x (end_time s)) eqn:E; [ | reflexivity].
      apply Rltb_true in E.
      destruct Hfuel as [Hf | [(s' & Hs' & Ht) _]];
        [ | injection Hs' as <-; lra].
      simpl in Hf.
      replace (Reqb (end_time s) (start_time s)) with false
        by (symmetry; apply Reqb_false; lra).
      simpl. apply IH.
      * simpl. repeat split; lra.
      * discriminate.
      * lra.
      * right. split; [ | lia]. eexists. split; [reflexivity | reflexivity].
    + destruct Hfuel as [Hf | [(s' & Hs' & _) _]]; [ | discriminate].
      simpl in Hf.
      change (Curve.pop_while_longer (S fuel) (s :: s2 :: rest) x)
        with (if Rltb x (Curve.length (s :: s2 :: rest)) then
                match Curve.pop_segment (s :: s2 :: rest) with
                | (c', Ok _) => Curve.pop_while_longer fuel c' x
                | (c', Raise e) => (c', Raise e)
                | (c', OutOfFuel) => (c', OutOfFuel)
                end
              else (s :: s2 :: rest, Ok tt)).
      destruct (Rltb x (Curve.length (s :: s2 :: rest))); [ | reflexivity].
      destruct (last_segment_some (s :: s2 :: rest) Hne) as [l Hl].
      unfold Curve.pop_segment. rewrite Hl.
      apply IH; [now apply chain_removelast | apply removelast_nonempty | assumption | ].
      left. rewrite removelast_shorter. simpl. lia.
Qed.

(** *** [remove_segments_after] *)

Lemma remove_segments_after_loop_none remaining c x :
  Forall (fun s => x < start_time s) remaining ->
  Curve.remove_segments_after_loop remaining c x = (c, Ok tt).
Proof.
  induction 1 as [ | s rest Hs _ IH]; [reflexivity | ].
  simpl.
  replace (Reqb x (start_time s)) with false by (symmetry; apply Reqb_false; lra).
  replace (Rltb (start_time s) x) with false by (symmetry; apply Rltb_false; lra).
  exact IH.
Qed.

Lemma remove_segments_after_loop_ok remaining c x :
  valid c -> 0 <= x ->
  Forall (fun s => end_time s <= Curve.length c) remaining ->
  snd (Curve.remove_segments_after_loop remaining c x) = Ok tt
  /\ valid (fst (Curve.remove_segments_after_loop remaining c x)).
Proof.
  intros H Hx. pose proof H as H'. apply valid_chain in H'. destruct H' as [Hne HC].
  induction 1 as [ | s rest Hs _ IH]; [now split | ].
  cbn [Curve.remove_segments_after_loop]. destruct (Reqb x (start_time s)).
  - split.
    + apply pop_while_longer_ok with 0; try assumption. left. lia.
    + apply valid_chain.
      destruct (pop_while_longer_chain 0 (S (List.length c)) c x HC Hne). now split.
  - destruct (Rltb (start_time s) x && Rltb x (end_time s)) eqn:E; [ | exact IH].
    apply andb_true_iff in E. destruct E as [E1 E2].
    apply Rltb_true in E1. apply Rltb_true in E2.
    destruct (insert_interpolated_ok c x H) as (Hr & Hv & _); [lra | ].
    destruct (Curve.insert_interpolated c x) as [c' r]. simpl in Hr, Hv. subst r.
    apply valid_chain in Hv. destruct Hv as [Hne' HC'].
    split.
    + apply pop_while_longer_ok with 0; try assumption. left. lia.
    + apply valid_chain.
      destruct (pop_while_longer_chain 0 (S (List.length c')) c' x HC' Hne'). now split.
Qed.

Lemma remove_segments_after_ok c x :
  valid c ->
  snd (Curve.remove_segments_after c x) = Ok tt
  /\ valid (fst (Curve.remove_segments_after c x)).
Proof.
  intros H. pose proof H as H'. apply valid_chain in H'. destruct H' as [Hne HC].
  unfold Curve.remove_segments_after.
  destruct (Rltb x 0) eqn:E.
  - apply Rltb_true in E.
    destruct (pop_all_ok (S (List.length c)) c Hne) as [Hr Hcol]; [left; lia | ].
    destruct (pop_all_chain 0 (S (List.length c)) c HC Hne) as [HC' Hne'].
    destruct (Curve.pop_all (S (List.length c)) c) as [c' r].
    simpl in *. subst r.
    rewrite remove_segments_after_loop_none.
    + split; [reflexivity | ]. apply valid_chain. now split.
    + eapply Forall_impl; [ | exact (chain_starts_after _ _ HC')].
      simpl. intros. lra.
  - apply Rltb_false in E.
    apply remove_segments_after_loop_ok; try assumption.
    eapply Forall_impl; [ | exact (proj2 (chain_bounds _ _ HC Hne))].
    simpl. intros s Hs. lra.
Qed.




End MutationFacts.

(** ** Splitting a segment *)

Module SplitFacts.

Import Segment Invariant Model Examples InvariantFacts SegmentFacts CurveFacts
  MutationFacts.

Lemma normalize_strict s x :
  start_time s < x < end_time s -> 0 < normalize s x < 1.
Proof.
  intros [H1 H2]. unfold normalize.
  assert (0 < / (end_time s - start_time s)) by (apply Rinv_0_lt_compat; lra).
  unfold Rdiv. split.
  - apply Rmult_lt_0_compat; lra.
  - apply Rmult_lt_reg_r with (end_time s - start_time s); [lra | ].
    rewrite Rmult_assoc, Rinv_l by lra. lra.
Qed.

Lemma Rltb_Rabs_true v e : - e < v < e -> Rltb (Rabs v) e = true.
Proof. intros H. apply Rltb_true. apply Rabs_def1; lra. Qed.

Lemma Rltb_Rabs_false v e : e <= v \/ v <= - e -> Rltb (Rabs v) e = false.
Proof.
  intros H. apply Rltb_false. unfold Rabs. destruct (Rcase_abs v); lra.
Qed.

(** Which formula each half uses. *)
Lemma split_exact_cases s x :
  start_time s < x < end_time s -> split_exact s x ->
  (Rltb (Rabs (curve_shape s)) shape_epsilon = true
   /\ Rltb (Rabs (normalize s x * curve_shape s)) shape_epsilon = true
   /\ Rltb (Rabs (curve_shape s - normalize s x * curve_shape s)) shape_epsilon = true)
  \/ (Rltb (Rabs (curve_shape s)) shape_epsilon = false
      /\ Rltb (Rabs (normalize s x * curve_shape s)) shape_epsilon = false
      /\ Rltb (Rabs (curve_shape s - normalize s x * curve_shape s)) shape_epsilon
         = false).
Proof.
  intros Hx Hex. pose proof (normalize_strict s x Hx) as [Hf0 Hf1].
  unfold split_exact in Hex.
  set (f := normalize s x) in *. set (S := curve_shape s) in *.
  assert (H1 : Rabs (f * S) = f * Rabs S)
    by (rewrite Rabs_mult, (Rabs_right f); [reflexivity | lra]).
  assert (H2 : Rabs (S - f * S) = (1 - f) * Rabs S).
  { replace (S - f * S) with ((1 - f) * S) by ring.
    rewrite Rabs_mult, (Rabs_right (1 - f)); [reflexivity | lra]. }
  pose proof (Rabs_pos S) as HS.
  rewrite H1, H2 in *. set (A := Rabs S) in *.
  destruct Hex as [Hlin | [Ha Hb]].
  - left. rewrite !Rltb_true. repeat split; nra.
  - right. rewrite !Rltb_false. repeat split; nra.
Qed.

Lemma interpolate_first_half s t x :
  start_time s < t < end_time s -> split_exact s t ->
  interpolate (first_half s t) (normalize (first_half s t) x)
  = interpolate s (normalize s x).
Proof.
  intros Ht Hex. pose proof (normalize_strict s t Ht) as [Hf0 Hf1].
  destruct (split_exact_cases s t Ht Hex) as [(E & E1 & _) | (E & E1 & _)];
    unfold interpolate, first_half, normalize in *; simpl;
    unfold interpolate, normalize; rewrite E, E1.
  - field. lra.
  - pose proof (exp_minus_1_neq_0 _ (not_linear_neq_0 _ E)) as HE.
    pose proof (exp_minus_1_neq_0 _ (not_linear_neq_0 _ E1)) as HE1.
    set (a := start_time s) in *. set (b := end_time s) in *.
    set (S := curve_shape s) in *.
    replace ((t - a) / (b - a) * S * ((x - a) / (t - a)))
      with (S * ((x - a) / (b - a))) by (field; lra).
    replace ((t - a) / (b - a) * S) with (S * ((t - a) / (b - a))) in * by ring.
    set (K1 := exp (S * ((t - a) / (b - a)))) in *.
    set (Ku := exp (S * ((x - a) / (b - a)))).
    set (K := exp S) in *.
    field. split; assumption.
Qed.

Lemma interpolate_second_half s t x :
  start_time s < t < end_time s -> split_exact s t ->
  interpolate (second_half s t) (normalize (second_half s t) x)
  = interpolate s (normalize s x).
Proof.
  intros Ht Hex. pose proof (normalize_strict s t Ht) as [Hf0 Hf1].
  destruct (split_exact_cases s t Ht Hex) as [(E & _ & E2) | (E & _ & E2)];
    unfold interpolate, second_half, normalize in *; simpl;
    unfold interpolate, normalize; rewrite E, E2.
  - field. lra.
  - pose proof (exp_minus_1_neq_0 _ (not_linear_neq_0 _ E)) as HE.
    pose proof (exp_minus_1_neq_0 _ (not_linear_neq_0 _ E2)) as HE2.
    set (a := start_time s) in *. set (b := end_time s) in *.
    set (S := curve_shape s) in *.
    set (S1 := S * ((t - a) / (b - a))).
    set (S2 := S - (t - a) / (b - a) * S) in *.
    set (v := (x - t) / (b - t)).
    assert (HS : S = S1 + S2) by (unfold S1, S2; ring).
    assert (Hu : S * ((x - a) / (b - a)) = S1 + S2 * v)
      by (unfold S1, S2, v; field; lra).
    rewrite Hu. rewrite HS in HE. rewrite HS.
    rewrite !exp_plus in *.
    set (K1 := exp S1) in *.
    set (K2 := exp S2) in *.
    set (Kv := exp (S2 * v)).
    field. split; assumption.
Qed.

Lemma split_at_halves s t :
  start_time s < t < end_time s ->
  Segment.split_at s t = Ok (first_half s t, second_half s t).
Proof. intros H. now rewrite split_at_ok. Qed.

Lemma first_half_value s t x :
  start_time s < t < end_time s -> split_exact s t -> start_time s <= x <= t ->
  Segment.value_at (first_half s t) x true = Segment.value_at s x true.
Proof.
  intros Ht Hex Hx.
  rewrite (value_at_closed s) by lra.
  rewrite (value_at_closed (first_half s t)) by (simpl; lra).
  now rewrite interpolate_first_half.
Qed.

Lemma second_half_value s t x :
  start_time s < t < end_time s -> split_exact s t -> t <= x <= end_time s ->
  Segment.value_at (second_half s t) x true = Segment.value_at s x true.
Proof.
  intros Ht Hex Hx.
  rewrite (value_at_closed s) by lra.
  rewrite (value_at_closed (second_half s t)) by (simpl; lra).
  now rewrite interpolate_second_half.
Qed.

(** *** [insert_interpolated] and the values of the curve *)

Lemma insert_interpolated_loop_shape fuel t segments segments' :
  Curve.insert_interpolated_loop fuel t segments = Ok segments' ->
  Curve.start_level segments' = Curve.start_level segments
  /\ Curve.end_level segments' = Curve.end_level segments.
Proof.
  revert fuel segments'. induction segments as [ | s rest IH]; intros fuel segments' H.
  - destruct fuel; simpl in H; [discriminate | ]. injection H as <-. now split.
  - destruct fuel as [ | fuel]; simpl in H; [discriminate | ].
    destruct (Reqb t (start_time s)); [injection H as <-; now split | ].
    destruct (contains s t).
    + destruct (Segment.split_at s t) as [[p1 p2] | e | ] eqn:Es; simpl in H;
        try discriminate.
      unfold Segment.split_at in Es.
      destruct (Rltb (start_time s) t && Rltb t (end_time s)); [ | discriminate].
      destruct (Segment.value_at s t true) as [m | e | ]; simpl in Es; try discriminate.
      destruct (div _ _) as [f | e | ]; simpl in Es; try discriminate.
      injection Es as <- <-.
      destruct fuel as [ | fuel]; simpl in H; [discriminate | ].
      replace (Reqb t t) with true in H by (symmetry; now apply Reqb_true).
      simpl in H. injection H as <-. split; [reflexivity | ].
      unfold Curve.end_level. destruct rest; reflexivity.
    + destruct (Curve.insert_interpolated_loop fuel t rest) as [tail | e | ] eqn:Et;
        simpl in H; try discriminate.
      injection H as <-. split; [reflexivity | ].
      destruct (IH _ _ Et) as [_ He].
      destruct rest as [ | s2 rest].
      * destruct fuel; simpl in Et; [discriminate | ]. now injection Et as <-.
      * destruct tail as [ | s3 tail].
        { exfalso. unfold Curve.end_level in He.
          destruct (last_segment_some (s2 :: rest)) as [l Hl]; [discriminate | ].
          rewrite Hl in He. discriminate. }
        rewrite !end_level_cons by discriminate. exact He.
Qed.

Lemma insert_interpolated_loop_values a fuel t segments segments' :
  chain a segments ->
  Curve.insert_interpolated_loop fuel t segments = Ok segments' ->
  (forall s, In s segments -> start_time s < t < end_time s -> split_exact s t) ->
  forall beyond x, a <= x ->
  value_at_forward segments' beyond x = value_at_forward segments beyond x.
Proof.
  revert a fuel segments'.
  induction segments as [ | s rest IH]; intros a fuel segments' HC H Hex beyond x Hx.
  - destruct fuel; simpl in H; [discriminate | ]. now injection H as <-.
  - destruct fuel as [ | fuel]; simpl in H; [discriminate | ].
    destruct HC as (H1 & H2 & H3).
    destruct (Reqb t (start_time s)) eqn:E1; [now injection H as <- | ].
    apply Reqb_false in E1.
    destruct (contains s t) eqn:E2.
    + unfold contains in E2. apply andb_true_iff in E2. destruct E2 as [E2 E3].
      apply Rleb_true in E2. apply Rltb_true in E3.
      assert (Ht : start_time s < t < end_time s) by lra.
      rewrite split_at_halves in H by assumption. simpl in H.
      destruct fuel as [ | fuel]; simpl in H; [discriminate | ].
      replace (Reqb t t) with true in H by (symmetry; now apply Reqb_true).
      simpl in H. injection H as <-.
      assert (Hs : split_exact s t) by (apply Hex; [now left | assumption]).
      simpl.
      destruct (Rltb x t) eqn:Ex.
      * apply Rltb_true in Ex.
        replace (Rltb x (end_time s)) with true by (symmetry; apply Rltb_true; lra).
        apply first_half_value; try assumption. lra.
      * apply Rltb_false in Ex.
        destruct (Rltb x (end_time s)) eqn:Ee; [ | reflexivity].
        apply Rltb_true in Ee. apply second_half_value; try assumption. lra.
    + destruct (Curve.insert_interpolated_loop fuel t rest) as [tail | e | ] eqn:Et;
        simpl in H; try discriminate.
      injection H as <-. simpl.
      destruct (Rltb x (end_time s)) eqn:Ee; [reflexivity | ].
      apply Rltb_false in Ee.
      apply IH with (end_time s) fuel; try assumption.
      intros s' Hin. apply Hex. now right.
Qed.

Lemma insert_interpolated_values c t :
  valid c -> 0 <= t <= Curve.length c ->
  (forall s, In s c -> start_time s < t < end_time s -> split_exact s t) ->
  forall x,
    Curve.value_at (fst (Curve.insert_interpolated c t)) x = Curve.value_at c x.
Proof.
  intros H Ht Hex x.
  destruct (insert_interpolated_ok c t H Ht) as (_ & Hv & _).
  revert Hv. unfold Curve.insert_interpolated.
  replace (Rleb 0 t) with true by (symmetry; apply Rleb_true; lra).
  replace (Rleb t (Curve.length c)) with true by (symmetry; apply Rleb_true; lra).
  destruct (Reqb t (Curve.length c)); [reflexivity | ].
  destruct (Curve.insert_interpolated_loop (S (List.length c)) t c)
    as [c' | e | ] eqn:E; try reflexivity.
  simpl. intros Hv.
  destruct (insert_interpolated_loop_shape _ _ _ _ E) as [Hs He].
  destruct (Rlt_dec x 0) as [Hneg | Hpos].
  - now rewrite !value_at_negative.
  - rewrite !value_at_forward_eq by (assumption || lra). rewrite He.
    pose proof H as H'. apply valid_chain in H'. destruct H' as [_ HC].
    apply insert_interpolated_loop_values with 0 (S (List.length c)) t;
      try assumption. lra.
Qed.

(** C3 (as amended).  Splitting loses no information when the segment
    is linear (shape under the threshold [1e-6]) or when the shapes of
    both halves stay at or above the threshold: then [split_at(t)], for
    [start_time < t < end_time], returns two halves whose [value_at]
    agrees with that of the segment on each half's time range, and
    [insert_interpolated(t)] changes [value_at] of the curve nowhere. *)
Theorem split_preserves_values :
  (forall s t, start_time s < t < end_time s -> split_exact s t ->
     exists part1 part2,
       Segment.split_at s t = Ok (part1, part2)
       /\ (forall x, start_time s <= x <= t ->
           Segment.value_at part1 x true = Segment.value_at s x true)
       /\ (forall x, t <= x <= end_time s ->
           Segment.value_at part2 x true = Segment.value_at s x true))
  /\ (forall c t, valid c -> 0 <= t <= Curve.length c ->
     (forall s, In s c -> start_time s < t < end_time s -> split_exact s t) ->
     snd (Curve.insert_interpolated c t) = Ok tt
     /\ forall x,
         Curve.value_at (fst (Curve.insert_interpolated c t)) x
         = Curve.value_at c x).
Proof.
  split.
  - intros s t Ht Hex. exists (first_half s t), (second_half s t).
    split; [now apply split_at_halves | ]. split; intros x Hx.
    + now apply first_half_value.
    + now apply second_half_value.
  - intros c t H Ht Hex. split.
    + now destruct (insert_interpolated_ok c t H Ht).
    + now apply insert_interpolated_values.
Qed.

Lemma split_preserves_values_witness :
  exists part1 part2,
    Segment.split_at linear_ramp 1 = Ok (part1, part2)
    /\ (forall x, start_time linear_ramp <= x <= 1 ->
        Segment.value_at part1 x true = Segment.value_at linear_ramp x true)
    /\ (forall x, 1 <= x <= end_time linear_ramp ->
        Segment.value_at part2 x true = Segment.value_at linear_ramp x true).
Proof.
  apply (proj1 split_preserves_values linear_ramp 1).
  - simpl. lra.
  - left. simpl. rewrite Rabs_R0. unfold shape_epsilon. lra.
Defined.

(** C3 as stated fails: after [split_at(1/2)] of [nearly_linear] the
    first half and the segment differ at time [1/4]. *)
Lemma split_near_threshold_differs :
  start_time nearly_linear < 1 / 2 < end_time nearly_linear
  /\ start_time nearly_linear <= 1 / 4 <= 1 / 2
  /\ exists part1 part2,
       Segment.split_at nearly_linear (1 / 2) = Ok (part1, part2)
       /\ Segment.value_at part1 (1 / 4) true
          <> Segment.value_at nearly_linear (1 / 4) true.
Proof.
  split; [simpl; lra | ]. split; [simpl; lra | ].
  exists (first_half nearly_linear (1 / 2)), (second_half nearly_linear (1 / 2)).
  split; [apply split_at_halves; simpl; lra | ].
  rewrite (value_at_closed nearly_linear) by (simpl; lra).
  rewrite (value_at_closed (first_half nearly_linear (1 / 2))) by (simpl; lra).
  intros H. injection H as H. revert H.
  assert (Hn2 : normalize nearly_linear (1 / 2) = 1 / 2)
    by (unfold normalize; simpl; field).
  assert (Hn4 : normalize nearly_linear (1 / 4) = 1 / 4)
    by (unfold normalize; simpl; field).
  assert (Hn1 : normalize (first_half nearly_linear (1 / 2)) (1 / 4) = 1 / 2)
    by (unfold normalize; simpl; field).
  rewrite Hn1, Hn4. unfold interpolate at 1 2. simpl. rewrite Hn2.
  unfold interpolate. simpl.
  rewrite (Rltb_Rabs_true (1 / 2 * (3 / 2000000)))
    by (unfold shape_epsilon; lra).
  rewrite (Rltb_Rabs_false (3 / 2000000)) by (unfold shape_epsilon; lra).
  set (S := 3 / 2000000).
  assert (HS : 0 < S) by (unfold S; lra).
  assert (HE : exp S - 1 <> 0) by (apply exp_minus_1_neq_0; lra).
  replace (S * (1 / 2)) with (S * (1 / 4) + S * (1 / 4)) by field.
  rewrite exp_plus.
  assert (Hy : 1 < exp (S * (1 / 4))).
  { assert (H0 : 0 < S * (1 / 4)) by lra.
    pose proof (exp_increasing _ _ H0) as Hi. now rewrite exp_0 in Hi. }
  set (y := exp (S * (1 / 4))) in *.
  intros H.
  assert (H' : 1 / 2 * (y * y - 1) = y - 1).
  { apply Rmult_eq_reg_r with (/ (exp S - 1)); [ | now apply Rinv_neq_0_compat].
    unfold Rdiv in H. lra. }
  nra.
Qed.

End SplitFacts.

(** ** The shape of constant proportional change *)

Module ExponentialFacts.

Import Segment Model SegmentFacts SplitFacts.

Lemma ln_4_gt_1 : 1 < ln 4.
Proof.
  rewrite <- (ln_exp 1). apply ln_increasing; [apply exp_pos | ].
  pose proof exp_le_3. lra.
Qed.

(** With the shape [ln(end_level / start_level)] the value at
    normalized time [u] is [start_level * (end_level / start_level) ^ u]. *)
Lemma proportional_value s x :
  start_time s < end_time s -> start_time s <= x <= end_time s ->
  Segment.start_level s <> 0 ->
  0 < Segment.end_level s / Segment.start_level s ->
  curve_shape s = ln (Segment.end_level s / Segment.start_level s) ->
  shape_epsilon <= Rabs (curve_shape s) ->
  Segment.value_at s x true
  = Ok (Segment.start_level s
        * Rpower (Segment.end_level s / Segment.start_level s) (normalize s x)).
Proof.
  intros Hlt Hx Hsl Hr HS Heps.
  rewrite value_at_closed by assumption. f_equal.
  assert (E : Rltb (Rabs (curve_shape s)) shape_epsilon = false)
    by now apply Rltb_false.
  pose proof (exp_minus_1_neq_0 _ (not_linear_neq_0 _ E)) as HE.
  unfold interpolate. rewrite E. unfold Rpower.
  rewrite <- HS, (Rmult_comm (normalize s x)).
  assert (Hexp : exp (curve_shape s) = Segment.end_level s / Segment.start_level s)
    by (rewrite HS; now apply exp_ln).
  set (K := exp (curve_shape s * normalize s x)).
  replace (Segment.end_level s - Segment.start_level s)
    with (Segment.start_level s * (exp (curve_shape s) - 1))
    by (rewrite Hexp; field; assumption).
  field. assumption.
Qed.

(** C8.  A segment from level 1 to level 4 with the shape [ln 4], which
    is what the string ["exp"] evaluates to, has at normalized time [u]
    the value [1 * 4 ^ u]; so a time step [h] multiplies the value by
    [4 ^ (h / duration)], whatever the time it starts from. *)
Theorem constant_proportional_rate (t0 t1 : R) :
  t0 < t1 ->
  Segment.init t0 t1 1 4 (ShapeString SExp) = Ok (mk t0 t1 1 4 (ln 4))
  /\ (forall x, t0 <= x <= t1 ->
      Segment.value_at (mk t0 t1 1 4 (ln 4)) x true
      = Ok (1 * Rpower (4 / 1) ((x - t0) / (t1 - t0))))
  /\ (forall x h, t0 <= x -> 0 <= h -> x + h <= t1 ->
      exists v v',
        Segment.value_at (mk t0 t1 1 4 (ln 4)) x true = Ok v
        /\ Segment.value_at (mk t0 t1 1 4 (ln 4)) (x + h) true = Ok v'
        /\ v' = v * Rpower 4 (h / (t1 - t0))).
Proof.
  intros Hlt. pose proof ln_4_gt_1 as Hln.
  assert (H41 : 4 / 1 = 4) by field.
  assert (Hval : forall x, t0 <= x <= t1 ->
            Segment.value_at (mk t0 t1 1 4 (ln 4)) x true
            = Ok (1 * Rpower (4 / 1) ((x - t0) / (t1 - t0)))).
  { intros x Hx.
    apply (proportional_value (mk t0 t1 1 4 (ln 4)) x); simpl;
      try rewrite H41; try lra.
    rewrite Rabs_right by lra. unfold shape_epsilon. lra. }
  split; [ | split; [exact Hval | ]].
  - unfold Segment.init. rewrite div_ok by lra. simpl.
    replace (Rltb 0 (4 / 1)) with true by (symmetry; apply Rltb_true; lra).
    unfold log. destruct (Rlt_dec 0 (4 / 1)) as [_ | Hn]; [ | lra].
    simpl. now rewrite H41.
  - intros x h Hx Hh Hxh.
    do 2 eexists. split; [apply Hval; lra | ]. split; [apply Hval; lra | ].
    rewrite H41, !Rmult_1_l, <- Rpower_plus. f_equal. field. lra.
Qed.

Lemma constant_proportional_rate_witness :
  Segment.value_at (mk 0 2 1 4 (ln 4)) 1 true
  = Ok (1 * Rpower (4 / 1) ((1 - 0) / (2 - 0))).
Proof.
  assert (H : 0 < 2) by lra.
  apply (proj1 (proj2 (constant_proportional_rate 0 2 H))). lra.
Defined.

End ExponentialFacts.

(** ** Maximum levels *)

Module MaxFacts.

Import Segment Invariant Model Examples InvariantFacts SegmentFacts CurveFacts.

Lemma fold_left_Rmax_ge l x : x <= fold_left Rmax l x.
Proof.
  revert x. induction l as [ | y l IH]; intros x; simpl; [lra | ].
  apply Rle_trans with (Rmax x y); [apply Rmax_l | apply IH].
Qed.

Lemma fold_left_Rmax_upper l x v : In v l -> v <= fold_left Rmax l x.
Proof.
  revert x. induction l as [ | y l IH]; intros x Hin; [contradiction | ].
  simpl. destruct Hin as [-> | Hin]; [ | now apply IH].
  apply Rle_trans with (Rmax x v); [apply Rmax_r | apply fold_left_Rmax_ge].
Qed.

Lemma fold_left_Rmax_in l x : fold_left Rmax l x = x \/ In (fold_left Rmax l x) l.
Proof.
  revert x. induction l as [ | y l IH]; intros x; simpl; [now left | ].
  destruct (IH (Rmax x y)) as [H | H]; [ | now right; right].
  rewrite H. unfold Rmax. destruct (Rle_dec x y); [right; now left | now left].
Qed.

Lemma max_of_upper l M v : Curve.max_of l = Ok M -> In v l -> v <= M.
Proof.
  destruct l as [ | x l]; [discriminate | ]. simpl. intros H Hin.
  injection H as <-. destruct Hin as [-> | Hin].
  - apply fold_left_Rmax_ge.
  - now apply fold_left_Rmax_upper.
Qed.

Lemma max_of_in l M : Curve.max_of l = Ok M -> In M l.
Proof.
  destruct l as [ | x l]; [discriminate | ]. simpl. intros H.
  injection H as <-. destruct (fold_left_Rmax_in l x) as [-> | Hin];
    [now left | now right].
Qed.

(** *** One segment *)

Lemma segment_value_bounds s x :
  start_time s < end_time s -> start_time s <= x <= end_time s ->
  exists v, Segment.value_at s x true = Ok v
    /\ Rmin (Segment.start_level s) (Segment.end_level s) <= v
       <= Rmax (Segment.start_level s) (Segment.end_level s).
Proof.
  intros Hlt Hx. rewrite value_at_closed by assumption.
  eexists. split; [reflexivity | ].
  apply interpolate_bounds. now apply normalize_bounds.
Qed.

Lemma segment_max_attained s :
  start_time s < end_time s ->
  exists x, start_time s <= x <= end_time s
    /\ Segment.value_at s x true = Ok (Segment.max_level s).
Proof.
  intros Hlt. unfold Segment.max_level, Rmax.
  destruct (Rle_dec (Segment.start_level s) (Segment.end_level s)).
  - exists (end_time s). split; [lra | ]. apply value_at_end. lra.
  - exists (start_time s). split; [lra | ]. apply value_at_start; lra.
Qed.

(** *** Locating the segment that [value_at] evaluates *)

Lemma forward_unique a c beyond s x :
  chain a c -> In s c -> start_time s <= x < end_time s ->
  value_at_forward c beyond x = Segment.value_at s x true.
Proof.
  revert a. induction c as [ | s0 rest IH]; intros a HC Hin Hx; [contradiction | ].
  destruct HC as (H1 & H2 & H3). simpl.
  destruct Hin as [-> | Hin].
  - now replace (Rltb x (end_time s)) with true by (symmetry; apply Rltb_true; lra).
  - pose proof (chain_starts_after _ _ H3) as Hall.
    rewrite Forall_forall in Hall. specialize (Hall s Hin). simpl in Hall.
    replace (Rltb x (end_time s0)) with false by (symmetry; apply Rltb_false; lra).
    now apply IH with (end_time s0).
Qed.

Lemma forward_locate a c x :
  chain a c -> a <= x ->
  (exists s, In s c /\ start_time s <= x < end_time s)
  \/ Forall (fun s => end_time s <= x) c.
Proof.
  revert a. induction c as [ | s0 rest IH]; intros a HC Hx; [right; constructor | ].
  destruct HC as (H1 & H2 & H3).
  destruct (Rlt_dec x (end_time s0)) as [Hlt | Hge].
  - left. exists s0. split; [now left | lra].
  - destruct (IH (end_time s0) H3) as [(s & Hin & Hs) | Hall]; [lra | | ].
    + left. exists s. split; [now right | assumption].
    + right. constructor; [lra | assumption].
Qed.

Lemma last_segment_in c l : Curve.last_segment c = Some l -> In l c.
Proof.
  induction c as [ | s0 rest IH]; [discriminate | ].
  destruct rest as [ | s1 rest]; [intros H; injection H as ->; now left | ].
  intros H. right. now apply IH.
Qed.

Lemma curve_value_cases c x :
  valid c ->
  (x < 0 /\ Curve.value_at c x = Curve.start_level c)
  \/ (Curve.length c <= x /\ Curve.value_at c x = Curve.end_level c)
  \/ (exists s, In s c /\ start_time s <= x < end_time s
        /\ Curve.value_at c x = Ok (interpolate s (normalize s x))).
Proof.
  intros H. destruct (Rlt_dec x 0) as [Hneg | Hpos].
  - left. split; [assumption | now apply value_at_negative].
  - right. pose proof H as H'. apply valid_chain in H'. destruct H' as [Hne HC].
    destruct (forward_locate 0 c x HC) as [(s & Hin & Hs) | Hall];
      [lra | | ].
    + right. exists s. split; [assumption | ]. split; [assumption | ].
      rewrite value_at_forward_eq by (assumption || lra).
      rewrite (forward_unique 0 c _ s x HC Hin Hs).
      apply value_at_closed; lra.
    + left. destruct (last_segment_some c Hne) as [l Hl].
      assert (Hin : In l c) by now apply last_segment_in.
      rewrite Forall_forall in Hall. specialize (Hall l Hin).
      assert (HL : Curve.length c <= x) by (unfold Curve.length; now rewrite Hl).
      split; [assumption | now apply value_at_beyond].
Qed.

Lemma start_level_ok c : c <> [] ->
  exists s rest, c = s :: rest /\ Curve.start_level c = Ok (Segment.start_level s).
Proof. destruct c as [ | s rest]; [now intros H | intros _; now exists s, rest]. Qed.

Lemma curve_value_ok c x : valid c -> exists v, Curve.value_at c x = Ok v.
Proof.
  intros H. pose proof H as H'. apply valid_chain in H'. destruct H' as [Hne HC].
  destruct (curve_value_cases c x H) as [[_ ->] | [[_ ->] | (s & _ & _ & ->)]].
  - destruct (start_level_ok c Hne) as (s & rest & _ & ->). now eexists.
  - unfold Curve.end_level. destruct (last_segment_some c Hne) as [l ->]. now eexists.
  - now eexists.
Qed.

Lemma located_value c s x :
  valid c -> In s c -> start_time s <= x < end_time s ->
  Curve.value_at c x = Ok (interpolate s (normalize s x)).
Proof.
  intros H Hin Hx. pose proof H as H'. apply valid_chain in H'.
  destruct H' as [Hne HC].
  pose proof (chain_starts_after _ _ HC) as Hall.
  rewrite Forall_forall in Hall. specialize (Hall s Hin). simpl in Hall.
  rewrite value_at_forward_eq by (assumption || lra).
  rewrite (forward_unique 0 c _ s x HC Hin Hx).
  apply value_at_closed; lra.
Qed.

(** *** The maximum of a curve over a time range *)

Lemma anchor_start_in c s t1 t2 :
  In s c -> t1 <= start_time s <= t2 ->
  In (Segment.start_level s) (flat_map (Curve.anchor_points t1 t2) c).
Proof.
  intros Hin Ht. apply in_flat_map. exists s. split; [assumption | ].
  unfold Curve.anchor_points. apply in_or_app. left.
  replace (Rleb t1 (start_time s)) with true by (symmetry; apply Rleb_true; lra).
  replace (Rleb (start_time s) t2) with true by (symmetry; apply Rleb_true; lra).
  now left.
Qed.

Lemma anchor_end_in c s t1 t2 :
  In s c -> t1 <= end_time s <= t2 ->
  In (Segment.end_level s) (flat_map (Curve.anchor_points t1 t2) c).
Proof.
  intros Hin Ht. apply in_flat_map. exists s. split; [assumption | ].
  unfold Curve.anchor_points. apply in_or_app. right.
  replace (Rleb t1 (end_time s)) with true by (symmetry; apply Rleb_true; lra).
  replace (Rleb (end_time s) t2) with true by (symmetry; apply Rleb_true; lra).
  now left.
Qed.

Lemma anchor_in_inv c v t1 t2 :
  In v (flat_map (Curve.anchor_points t1 t2) c) ->
  exists s, In s c
    /\ ((v = Segment.start_level s /\ t1 <= start_time s <= t2)
        \/ (v = Segment.end_level s /\ t1 <= end_time s <= t2)).
Proof.
  intros H. apply in_flat_map in H. destruct H as (s & Hin & Hv).
  exists s. split; [assumption | ].
  unfold Curve.anchor_points in Hv. apply in_app_or in Hv.
  destruct Hv as [Hv | Hv].
  - left. destruct (Rleb t1 (start_time s)) eqn:E1;
      destruct (Rleb (start_time s) t2) eqn:E2; simpl in Hv; try contradiction.
    destruct Hv as [<- | []]. apply Rleb_true in E1. apply Rleb_true in E2.
    split; [reflexivity | lra].
  - right. destruct (Rleb t1 (end_time s)) eqn:E1;
      destruct (Rleb (end_time s) t2) eqn:E2; simpl in Hv; try contradiction.
    destruct Hv as [<- | []]. apply Rleb_true in E1. apply Rleb_true in E2.
    split; [reflexivity | lra].
Qed.

Lemma max_level_range_upper c t1 t2 :
  valid c -> t1 < t2 ->
  exists M, Curve.max_level c (Some (t1, t2)) = Ok M
    /\ forall x, t1 <= x <= t2 -> exists v, Curve.value_at c x = Ok v /\ v <= M.
Proof.
  intros H Hlt.
  destruct (curve_value_ok c t1 H) as [v1 Hv1].
  destruct (curve_value_ok c t2 H) as [v2 Hv2].
  unfold Curve.max_level.
  replace (Rltb t1 t2) with true by (symmetry; now apply Rltb_true).
  rewrite Hv1, Hv2. cbn [bind].
  set (points := [v1; v2] ++ flat_map (Curve.anchor_points t1 t2) c).
  destruct (Curve.max_of points) as [M | e | ] eqn:EM;
    [ | discriminate EM | discriminate EM].
  exists M. split; [reflexivity | ]. intros x Hx.
  assert (Hp1 : v1 <= M) by (apply (max_of_upper points); [assumption | now left]).
  assert (Hp2 : v2 <= M)
    by (apply (max_of_upper points); [assumption | right; now left]).
  assert (Hanchor : forall v, In v (flat_map (Curve.anchor_points t1 t2) c) -> v <= M).
  { intros v Hv. apply (max_of_upper points); [assumption | ].
    unfold points. apply in_or_app. now right. }
  destruct (curve_value_cases c x H)
    as [[Hneg Hv] | [[Hbeyond Hv] | (s & Hin & Hs & Hv)]].
  - exists v1. split; [ | assumption].
    rewrite Hv, <- Hv1. symmetry. apply value_at_negative. lra.
  - exists v2. split; [ | assumption].
    rewrite Hv, <- Hv2. symmetry. apply value_at_beyond; [assumption | lra].
  - eexists. split; [exact Hv | ].
    assert (Hpos : start_time s < end_time s) by lra.
    assert (Hlo : exists u, u <= normalize s x /\ interpolate s u <= M).
    { destruct (Rle_dec t1 (start_time s)) as [Hle | Hgt].
      - exists 0. split; [apply normalize_bounds; lra | ].
        rewrite interpolate_0. apply Hanchor. apply anchor_start_in; [assumption | lra].
      - exists (normalize s t1). split; [apply normalize_mono; lra | ].
        rewrite (located_value c s t1 H Hin) in Hv1 by lra.
        injection Hv1 as <-. assumption. }
    assert (Hhi : exists u, normalize s x <= u /\ interpolate s u <= M).
    { destruct (Rle_dec (end_time s) t2) as [Hle | Hgt].
      - exists 1. split; [apply normalize_bounds; lra | ].
        rewrite interpolate_1. apply Hanchor. apply anchor_end_in; [assumption | lra].
      - exists (normalize s t2). split; [apply normalize_mono; lra | ].
        rewrite (located_value c s t2 H Hin) in Hv2 by lra.
        injection Hv2 as <-. assumption. }
    destruct Hlo as (ulo & Hulo & Hlo). destruct Hhi as (uhi & Huhi & Hhi).
    pose proof (interpolate_between s ulo (normalize s x) uhi (conj Hulo Huhi))
      as [_ Hb].
    apply Rle_trans with (1 := Hb). now apply Rmax_lub.
Qed.

Lemma forward_at_end a c s :
  chain a c -> positive_durations c -> level_continuous c -> In s c ->
  value_at_forward c (Curve.end_level c) (end_time s) = Ok (Segment.end_level s).
Proof.
  revert a. induction c as [ | s0 rest IH]; intros a HC Hpos Hcont Hin;
    [contradiction | ].
  destruct HC as (H1 & H2 & H3).
  inversion Hpos as [ | ? ? Hp0 Hprest]; subst.
  destruct Hin as [-> | Hin].
  - simpl. replace (Rltb (end_time s) (end_time s)) with false
      by (symmetry; apply Rltb_false; lra).
    destruct rest as [ | s1 rest]; [reflexivity | ].
    destruct H3 as (H4 & H5 & H6). destruct Hcont as [Hc _].
    inversion Hprest as [ | ? ? Hp1 _]; subst.
    simpl. replace (Rltb (end_time s) (end_time s1)) with true
      by (symmetry; apply Rltb_true; lra).
    rewrite value_at_start by lra. now rewrite Hc.
  - pose proof (chain_starts_after _ _ H3) as Hall.
    rewrite Forall_forall in Hall. pose proof (Hall s Hin) as Hs. simpl in Hs.
    rewrite Forall_forall in Hprest. pose proof (Hprest s Hin) as Hps.
    simpl. replace (Rltb (end_time s) (end_time s0)) with false
      by (symmetry; apply Rltb_false; lra).
    destruct rest as [ | s1 rest]; [contradiction | ].
    rewrite end_level_cons by discriminate.
    apply IH with (end_time s0); try assumption.
    + apply Forall_forall. exact Hprest.
    + now destruct Hcont.
Qed.

Lemma max_level_range_attained c t1 t2 M :
  valid c -> t1 < t2 -> positive_durations c -> level_continuous c ->
  Curve.max_level c (Some (t1, t2)) = Ok M ->
  exists x, t1 <= x <= t2 /\ Curve.value_at c x = Ok M.
Proof.
  intros H Hlt Hpos Hcont HM.
  destruct (curve_value_ok c t1 H) as [v1 Hv1].
  destruct (curve_value_ok c t2 H) as [v2 Hv2].
  unfold Curve.max_level in HM.
  replace (Rltb t1 t2) with true in HM by (symmetry; now apply Rltb_true).
  rewrite Hv1, Hv2 in HM. cbn [bind] in HM.
  apply max_of_in in HM. apply in_app_or in HM.
  destruct HM as [[<- | [<- | []]] | HM].
  - exists t1. split; [lra | assumption].
  - exists t2. split; [lra | assumption].
  - apply anchor_in_inv in HM.
    destruct HM as (s & Hin & [[-> Ht] | [-> Ht]]).
    + exists (start_time s). split; [assumption | ].
      unfold positive_durations in Hpos. rewrite Forall_forall in Hpos.
      pose proof (Hpos s Hin) as Hs. simpl in Hs.
      rewrite (located_value c s (start_time s) H Hin) by lra.
      now rewrite normalize_start, interpolate_0.
    + exists (end_time s). split; [assumption | ].
      pose proof H as H'. apply valid_chain in H'. destruct H' as [Hne HC].
      pose proof (chain_starts_after _ _ HC) as Hall.
      rewrite Forall_forall in Hall. pose proof (Hall s Hin) as Hs0. simpl in Hs0.
      pose proof Hpos as Hpos'. unfold positive_durations in Hpos'.
      rewrite Forall_forall in Hpos'. pose proof (Hpos' s Hin) as Hs. simpl in Hs.
      rewrite value_at_forward_eq by (assumption || lra).
      now apply forward_at_end with 0.
Qed.

(** C9 (as amended).  On its time range a segment of positive duration
    takes only values between its two endpoint levels, so
    [Segment.max_level] is its maximum and is attained at an endpoint.
    [Curve.max_level] over a range [(t1, t2)] is an upper bound of
    [value_at] on [[t1, t2]]; it is a value the curve takes in the range
    when no segment has zero length and adjacent segments agree in
    level.  (The levels of a zero-length jump count as anchor points
    even where [value_at] never returns them.) *)
Theorem levels_bounded_by_endpoints :
  (forall s x, start_time s < end_time s -> start_time s <= x <= end_time s ->
     exists v, Segment.value_at s x true = Ok v
       /\ Rmin (Segment.start_level s) (Segment.end_level s) <= v
          <= Rmax (Segment.start_level s) (Segment.end_level s)
       /\ v <= Segment.max_level s)
  /\ (forall s, start_time s < end_time s ->
     exists x, start_time s <= x <= end_time s
       /\ Segment.value_at s x true = Ok (Segment.max_level s))
  /\ (forall c t1 t2, valid c -> t1 < t2 ->
     exists M, Curve.max_level c (Some (t1, t2)) = Ok M
       /\ (forall x, t1 <= x <= t2 ->
           exists v, Curve.value_at c x = Ok v /\ v <= M)
       /\ (positive_durations c -> level_continuous c ->
           exists x, t1 <= x <= t2 /\ Curve.value_at c x = Ok M)).
Proof.
  split; [ | split].
  - intros s x Hlt Hx. destruct (segment_value_bounds s x Hlt Hx) as (v & Hv & Hb).
    exists v. split; [assumption | ]. split; [assumption | ].
    unfold Segment.max_level. lra.
  - exact segment_max_attained.
  - intros c t1 t2 H Hlt.
    destruct (max_level_range_upper c t1 t2 H Hlt) as (M & HM & Hup).
    exists M. split; [assumption | ]. split; [assumption | ].
    intros Hpos Hcont. now apply max_level_range_attained.
Qed.

Lemma levels_bounded_by_endpoints_witness :
  exists M, Curve.max_level two_ramps (Some (0, 2)) = Ok M
    /\ (forall x, 0 <= x <= 2 ->
        exists v, Curve.value_at two_ramps x = Ok v /\ v <= M)
    /\ (positive_durations two_ramps -> level_continuous two_ramps ->
        exists x, 0 <= x <= 2 /\ Curve.value_at two_ramps x = Ok M).
Proof.
  apply (proj2 (proj2 levels_bounded_by_endpoints) two_ramps 0 2).
  - exact two_ramps_valid.
  - lra.
Defined.

(** C9 as stated fails for [Curve.max_level]: over the range [(0, 1)]
    it answers 9 for [jump_then_flat], whose value is 1 at every time of
    the range. *)
Lemma max_level_counts_jump :
  valid jump_then_flat
  /\ Curve.max_level jump_then_flat (Some (0, 1)) = Ok 9
  /\ (forall x, 0 <= x <= 1 -> Curve.value_at jump_then_flat x = Ok 1).
Proof.
  assert (Hv : forall x, 0 <= x <= 1 -> Curve.value_at jump_then_flat x = Ok 1).
  { intros x Hx. destruct (Req_dec_T x 1) as [-> | Hne].
    - rewrite (value_at_beyond _ 1 jump_then_flat_valid);
        [reflexivity | unfold Curve.length; simpl; lra].
    - rewrite (located_value _ (mk 0 1 1 1 0) x jump_then_flat_valid);
        [ | right; now left | simpl; lra].
      unfold interpolate. simpl. rewrite Rabs_R0.
      replace (Rltb 0 shape_epsilon) with true
        by (symmetry; apply Rltb_true; apply shape_epsilon_pos).
      f_equal. lra. }
  split; [exact jump_then_flat_valid | ]. split; [ | exact Hv].
  unfold Curve.max_level.
  replace (Rltb 0 1) with true by (symmetry; apply Rltb_true; lra).
  rewrite !Hv by lra. cbn [bind].
  unfold jump_then_flat, Curve.anchor_points. simpl. decide_tests. simpl.
  f_equal. unfold Rmax.
  repeat (destruct (Rle_dec _ _); try lra).
Qed.

End MaxFacts.

(** ** The search for an upper integration bound *)

Module BoundFacts.

Import Segment Invariant Model Examples InvariantFacts SegmentFacts CurveFacts.

(** C10.  [get_upper_integration_bound] divides by the level at [t1]
    with no guard: when that level is 0 and [desired_area >= max_error]
    the call raises [ZeroDivisionError]; when [desired_area < max_error]
    it returns [t1] before the level is looked at, whatever the curve. *)
Theorem upper_bound_divides_by_level (fuel : nat) (c : Curve.t)
    (t1 desired_area max_error : R) :
  (Curve.value_at c t1 = Ok 0 -> max_error <= desired_area ->
   Curve.get_upper_integration_bound (S fuel) c t1 desired_area max_error
   = Raise ZeroDivisionError)
  /\ (desired_area < max_error ->
      Curve.get_upper_integration_bound (S fuel) c t1 desired_area max_error
      = Ok t1).
Proof.
  split.
  - intros Hv Hd. simpl.
    replace (Rltb desired_area max_error) with false
      by (symmetry; now apply Rltb_false).
    rewrite Hv. simpl. now rewrite div_zero.
  - intros Hd. simpl.
    now replace (Rltb desired_area max_error) with true
      by (symmetry; now apply Rltb_true).
Qed.

Lemma ramp_from_zero_value : Curve.value_at ramp_from_zero 0 = Ok 0.
Proof.
  unfold Curve.value_at, ramp_from_zero. simpl. unfold contains. simpl.
  decide_tests. simpl. apply value_at_start; simpl; lra.
Defined.

Lemma upper_bound_divides_by_level_witness :
  Curve.get_upper_integration_bound 1 ramp_from_zero 0 2 (1 / 1000)
  = Raise ZeroDivisionError
  /\ Curve.get_upper_integration_bound 1 ramp_from_zero 0 0 (1 / 1000) = Ok 0.
Proof.
  split.
  - apply (proj1 (upper_bound_divides_by_level 0 ramp_from_zero 0 2 (1 / 1000))).
    + exact ramp_from_zero_value.
    + lra.
  - apply (proj2 (upper_bound_divides_by_level 0 ramp_from_zero 0 0 (1 / 1000))).
    lra.
Defined.

End BoundFacts.

(** ** Integration *)

Module IntegralFacts.

Import Segment Invariant Model Examples InvariantFacts SegmentFacts CurveFacts
  MaxFacts.

Lemma integrate_segment_primitive s x y :
  start_time s <= x <= end_time s -> start_time s <= y <= end_time s ->
  Segment.integrate_segment s x y = Ok (primitive s y - primitive s x).
Proof.
  intros Hx Hy. unfold Segment.integrate_segment.
  replace (Rleb (start_time s) x) with true by (symmetry; apply Rleb_true; lra).
  replace (Rleb x (end_time s)) with true by (symmetry; apply Rleb_true; lra).
  replace (Rleb (start_time s) y) with true by (symmetry; apply Rleb_true; lra).
  replace (Rleb y (end_time s)) with true by (symmetry; apply Rleb_true; lra).
  simpl. destruct (Reqb x y) eqn:Exy.
  - apply Reqb_true in Exy. subst y. f_equal. ring.
  - apply Reqb_false in Exy.
    assert (Hlen : end_time s - start_time s <> 0) by lra.
    unfold Segment.calculate_coefficients, primitive, normalize.
    destruct (Rltb (Rabs (curve_shape s)) shape_epsilon) eqn:E.
    + simpl. rewrite !div_ok by assumption. simpl. f_equal.
      field. assumption.
    + pose proof (not_linear_neq_0 _ E) as HS.
      pose proof (exp_minus_1_neq_0 _ HS) as HE.
      assert (HSE : curve_shape s * (exp (curve_shape s) - 1) <> 0)
        by (apply Rmult_integral_contrapositive_currified; assumption).
      rewrite !div_ok by assumption. simpl.
      unfold Segment.segment_antiderivative. f_equal. ring.
Qed.

Lemma clamp_inside s x : start_time s <= x <= end_time s -> clamp s x = x.
Proof.
  intros H. unfold clamp. rewrite Rmin_left by lra. apply Rmax_right. lra.
Qed.

Lemma clamp_before s x :
  start_time s <= end_time s -> x <= start_time s -> clamp s x = start_time s.
Proof.
  intros Hwf H. unfold clamp. rewrite Rmin_left by lra. apply Rmax_left. lra.
Qed.

Lemma clamp_after s x :
  start_time s <= end_time s -> end_time s <= x -> clamp s x = end_time s.
Proof.
  intros Hwf H. unfold clamp. rewrite Rmin_right by lra. apply Rmax_right. lra.
Qed.

Lemma piece_same s x : piece s x x = 0.
Proof. unfold piece. ring. Qed.

Lemma piece_additive s t1 t2 t3 : piece s t1 t3 = piece s t1 t2 + piece s t2 t3.
Proof. unfold piece. ring. Qed.

Lemma area_same c x : area c x x = 0.
Proof. induction c as [ | s rest IH]; simpl; [ | rewrite IH, piece_same]; ring. Qed.

Lemma area_additive c t1 t2 t3 : area c t1 t3 = area c t1 t2 + area c t2 t3.
Proof.
  induction c as [ | s rest IH]; simpl; [ring | ].
  rewrite IH, (piece_additive s t1 t2 t3). ring.
Qed.

Lemma area_swap c t1 t2 : area c t2 t1 = - area c t1 t2.
Proof.
  pose proof (area_additive c t1 t2 t1) as H. rewrite area_same in H. lra.
Qed.

(** Times on the same side of every segment enclose no area. *)
Lemma area_same_clamp c x y :
  Forall (fun s => clamp s x = clamp s y) c -> area c x y = 0.
Proof.
  induction 1 as [ | s rest Hs _ IH]; simpl; [reflexivity | ].
  rewrite IH. unfold piece. rewrite Hs. ring.
Qed.

Lemma area_before a c x y : chain a c -> x <= a -> y <= a -> area c x y = 0.
Proof.
  intros HC Hx Hy. apply area_same_clamp.
  assert (H : Forall (fun s => a <= start_time s /\ start_time s <= end_time s) c).
  { clear Hx Hy. revert a HC. induction c as [ | s rest IH]; intros a HC;
      [constructor | ].
    destruct HC as (H1 & H2 & H3). constructor; [lra | ].
    eapply Forall_impl; [ | exact (IH _ H3)]. simpl. intros. lra. }
  eapply Forall_impl; [ | exact H]. simpl. intros s [Hs Hwf].
  rewrite !clamp_before by lra. reflexivity.
Qed.

Lemma area_after c x y :
  Forall well_formed c -> Forall (fun s => end_time s <= x /\ end_time s <= y) c ->
  area c x y = 0.
Proof.
  intros Hwf H. apply area_same_clamp.
  rewrite Forall_forall in *. intros s Hin.
  specialize (Hwf s Hin). specialize (H s Hin). unfold well_formed in Hwf.
  rewrite !clamp_after by lra. reflexivity.
Qed.

(** *** The loop over the segments *)

Lemma integrate_scan_area a segments t1 t2 integral :
  chain a segments -> t1 < t2 ->
  Curve.integrate_scan segments t1 t2 integral
  = Ok (integral + area segments t1 t2).
Proof.
  revert a integral. induction segments as [ | s rest IH]; intros a integral HC Hlt.
  - simpl. f_equal. ring.
  - destruct HC as (H1 & H2 & H3).
    assert (Hwf : start_time s <= end_time s) by lra.
    simpl. unfold piece.
    destruct (Rltb t1 (start_time s)) eqn:E1.
    + apply Rltb_true in E1. rewrite (clamp_before s t1) by lra.
      destruct (Rltb (start_time s) t2) eqn:E2.
      * apply Rltb_true in E2.
        destruct (Rleb t2 (end_time s)) eqn:E3.
        { apply Rleb_true in E3. rewrite (clamp_inside s t2) by lra.
          rewrite integrate_segment_primitive by lra. simpl.
          rewrite (area_before (end_time s) rest t1 t2) by (assumption || lra).
          f_equal. ring. }
        { apply Rleb_false in E3. rewrite (clamp_after s t2) by lra.
          rewrite integrate_segment_primitive by lra. simpl.
          rewrite (IH (end_time s)) by assumption. f_equal. ring. }
      * apply Rltb_false in E2. rewrite (clamp_before s t2) by lra.
        rewrite (IH (end_time s)) by assumption. f_equal. ring.
    + apply Rltb_false in E1. unfold contains.
      replace (Rleb (start_time s) t1) with true by (symmetry; now apply Rleb_true).
      replace (Rleb (start_time s) t2) with true by (symmetry; apply Rleb_true; lra).
      simpl.
      destruct (Rltb t1 (end_time s)) eqn:E2.
      * apply Rltb_true in E2. rewrite (clamp_inside s t1) by lra.
        destruct (Rltb t2 (end_time s)) eqn:E3.
        { apply Rltb_true in E3. rewrite (clamp_inside s t2) by lra.
          rewrite integrate_segment_primitive by lra. simpl.
          rewrite (area_before (end_time s) rest t1 t2) by (assumption || lra).
          f_equal. ring. }
        { apply Rltb_false in E3. rewrite (clamp_after s t2) by lra.
          rewrite integrate_segment_primitive by lra. simpl.
          rewrite (IH (end_time s)) by assumption. f_equal. ring. }
      * apply Rltb_false in E2.
        rewrite (clamp_after s t1), (clamp_after s t2) by lra.
        rewrite (IH (end_time s)) by assumption. f_equal. ring.
Qed.

(** *** The bisection *)

Lemma integrate_scan_skip prefix rest t1 t2 integral :
  Forall (fun s => start_time s <= t1 /\ end_time s <= t1) prefix ->
  Curve.integrate_scan (prefix ++ rest) t1 t2 integral
  = Curve.integrate_scan rest t1 t2 integral.
Proof.
  induction 1 as [ | s l [Hs He] _ IH]; [reflexivity | ].
  simpl. unfold contains.
  replace (Rltb t1 (start_time s)) with false by (symmetry; now apply Rltb_false).
  replace (Rltb t1 (end_time s)) with false by (symmetry; now apply Rltb_false).
  rewrite andb_false_r. exact IH.
Qed.

Lemma chain_firstn_before a c j s :
  chain a c -> nth_error c j = Some s ->
  Forall (fun s' => start_time s' <= end_time s' /\ end_time s' <= start_time s)
         (firstn j c).
Proof.
  revert a j. induction c as [ | s0 rest IH]; intros a j HC Hn.
  - destruct j; discriminate.
  - destruct HC as (H1 & H2 & H3). destruct j as [ | j]; [constructor | ].
    simpl in Hn. simpl. constructor.
    + split; [lra | ].
      pose proof (chain_starts_after _ _ H3) as Hall.
      rewrite Forall_forall in Hall. apply (Hall s). now apply nth_error_In with j.
    + now apply IH with (end_time s0).
Qed.

Lemma bisect_start_ok a c t1 fuel i :
  chain a c ->
  (List.length c - i < fuel)%nat -> (i < List.length c)%nat ->
  Forall (ends_before t1) (firstn i c) ->
  exists j, Curve.bisect_start fuel c t1 i = Ok j
    /\ Forall (ends_before t1) (firstn j c).
Proof.
  intros HC. revert i. induction fuel as [ | fuel IH]; intros i Hfuel Hi Hall;
    [inversion Hfuel | ].
  cbn [Curve.bisect_start].
  set (new_start_index := (i + (List.length c - i) / 2)%nat).
  assert (Hhalf : ((List.length c - i) / 2 < List.length c - i)%nat)
    by (apply Nat.div_lt; lia).
  assert (Hnew : (new_start_index < List.length c)%nat)
    by (unfold new_start_index; lia).
  destruct (nth_error c new_start_index) as [s | ] eqn:En;
    [ | apply nth_error_None in En; lia].
  destruct (Rltb (end_time s) t1 && (3 <? List.length c - new_start_index)%nat)
    eqn:E; [ | now exists i].
  apply andb_true_iff in E. destruct E as [E1 E2].
  apply Rltb_true in E1. apply Nat.ltb_lt in E2.
  assert (Hgrow : (i < new_start_index)%nat).
  { unfold new_start_index in *.
    destruct ((List.length c - i) / 2)%nat eqn:Ed; [ | lia].
    apply Nat.div_small_iff in Ed; lia. }
  apply IH; try assumption; [lia | ].
  eapply Forall_impl; [ | exact (chain_firstn_before _ _ _ _ HC En)].
  unfold ends_before. simpl. intros s' [Hs1 Hs2].
  pose proof (chain_well_formed _ _ HC) as Hwf.
  rewrite Forall_forall in Hwf.
  assert (start_time s <= end_time s)
    by (apply (Hwf s); now apply nth_error_In with new_start_index).
  lra.
Qed.

Lemma bisection_skips_nothing c t1 t2 :
  valid c ->
  (start_index <- Curve.bisect_start (S (List.length c)) c t1 0 ;;
   Curve.integrate_scan (skipn start_index c) t1 t2 0)
  = Curve.integrate_scan c t1 t2 0.
Proof.
  intros H. apply valid_chain in H. destruct H as [Hne HC].
  destruct (bisect_start_ok 0 c t1 (S (List.length c)) 0 HC) as (j & Hj & Hall).
  - lia.
  - destruct c; [now contradiction Hne | simpl; lia].
  - constructor.
  - rewrite Hj. simpl bind.
    rewrite <- (firstn_skipn j c) at 2. now rewrite integrate_scan_skip.
Qed.

Lemma integrate_interval_rec_no_bisection c :
  valid c -> forall fuel t1 t2,
  Curve.integrate_interval_rec fuel c t1 t2
  = Curve.integrate_interval_no_bisection_rec fuel c t1 t2.
Proof.
  intros H. induction fuel as [ | fuel IH]; intros t1 t2; [reflexivity | ].
  simpl. rewrite !IH.
  destruct (Reqb t1 t2); [reflexivity | ].
  destruct (Rltb t2 t1); [reflexivity | ].
  destruct (Rltb t1 0); [reflexivity | ].
  destruct (Rltb (Curve.length c) t2); [reflexivity | ].
  now apply bisection_skips_nothing.
Qed.

(** *** The integral in closed form *)

Lemma total_additive c t1 t2 t3 : total c t1 t3 = total c t1 t2 + total c t2 t3.
Proof. unfold total. rewrite (area_additive c t1 t2 t3). ring. Qed.

Lemma total_same c x : total c x x = 0.
Proof. unfold total. rewrite area_same. ring. Qed.

Lemma total_swap c t1 t2 : total c t2 t1 = - total c t1 t2.
Proof.
  pose proof (total_additive c t1 t2 t1) as H. rewrite total_same in H. lra.
Qed.

Lemma area_beyond c x y :
  valid c -> Curve.length c <= x -> Curve.length c <= y -> area c x y = 0.
Proof.
  intros H Hx Hy. pose proof H as [Hwf _].
  apply valid_chain in H. destruct H as [Hne HC].
  apply area_after; [assumption | ].
  eapply Forall_impl; [ | exact (proj2 (chain_bounds _ _ HC Hne))].
  simpl. intros s Hs. lra.
Qed.

Lemma area_negative c x y : valid c -> x <= 0 -> y <= 0 -> area c x y = 0.
Proof.
  intros H Hx Hy. apply valid_chain in H. destruct H as [_ HC].
  now apply area_before with 0.
Qed.

Lemma rec_nb_step c n t1 t2 :
  Curve.integrate_interval_no_bisection_rec (S n) c t1 t2
  = if Reqb t1 t2 then Ok 0
    else if Rltb t2 t1 then
      v <- Curve.integrate_interval_no_bisection_rec n c t2 t1 ;; Ok (- v)
    else if Rltb t1 0 then
      s <- first_segment c ;;
      v <- Curve.integrate_interval_no_bisection_rec n c 0 t2 ;;
      Ok (- t1 * Segment.start_level s + v)
    else if Rltb (Curve.length c) t2 then
      e <- Curve.end_level c ;;
      v <- Curve.integrate_interval_no_bisection_rec n c t1 (Curve.length c) ;;
      Ok ((t2 - Curve.length c) * e + v)
    else Curve.integrate_scan c t1 t2 0.
Proof. destruct c; reflexivity. Qed.

Section ClosedForm.

Variable c : Curve.t.
Hypothesis c_valid : valid c.

Let rec_nb := Curve.integrate_interval_no_bisection_rec.

Lemma first_segment_level :
  exists s, first_segment c = Ok s /\ Segment.start_level s = first_level c.
Proof.
  pose proof c_valid as H. apply valid_chain in H. destruct H as [Hne _].
  destruct c as [ | s rest]; [now contradiction Hne | now exists s].
Qed.

Lemma end_level_last : Curve.end_level c = Ok (last_level c).
Proof.
  pose proof c_valid as H. apply valid_chain in H. destruct H as [Hne _].
  unfold Curve.end_level, last_level.
  now destruct (last_segment_some c Hne) as [l ->].
Qed.

Lemma total_beyond x y :
  Curve.length c <= x -> Curve.length c <= y ->
  total c x y = last_level c * (y - x).
Proof.
  intros Hx Hy. pose proof (valid_length_nonneg c c_valid) as HL.
  unfold total. rewrite area_beyond by assumption.
  rewrite !Rmin_right, !Rmax_left by lra. ring.
Qed.

Lemma total_negative x y :
  x <= 0 -> y <= 0 -> total c x y = first_level c * (y - x).
Proof.
  intros Hx Hy. pose proof (valid_length_nonneg c c_valid) as HL.
  unfold total. rewrite area_negative by assumption.
  rewrite !Rmin_left, !Rmax_right by lra. ring.
Qed.

Lemma rec_in_range n t1 t2 :
  0 <= t1 -> t1 <= t2 -> t2 <= Curve.length c ->
  rec_nb (S n) c t1 t2 = Ok (total c t1 t2).
Proof.
  intros H0 H12 HL. unfold rec_nb; rewrite rec_nb_step; fold rec_nb.
  destruct (Reqb t1 t2) eqn:E.
  - apply Reqb_true in E. subst t2. now rewrite total_same.
  - apply Reqb_false in E. decide_tests.
    pose proof c_valid as H. apply valid_chain in H. destruct H as [_ HC].
    rewrite (integrate_scan_area 0) by (assumption || lra).
    f_equal. unfold total.
    rewrite !Rmin_right, !Rmax_right by lra. ring.
Qed.

Lemma rec_same n x : rec_nb (S n) c x x = Ok 0.
Proof.
  unfold rec_nb; rewrite rec_nb_step; fold rec_nb.
  now replace (Reqb x x) with true by (symmetry; now apply Reqb_true).
Qed.

Lemma rec_nonnegative n t1 t2 :
  0 <= t1 -> t1 <= t2 ->
  rec_nb (S (S (S (S n)))) c t1 t2 = Ok (total c t1 t2).
Proof.
  intros H0 H12. pose proof (valid_length_nonneg c c_valid) as HL.
  destruct (Rle_dec t2 (Curve.length c)) as [Hin | Hout];
    [now apply rec_in_range | ].
  unfold rec_nb; rewrite rec_nb_step; fold rec_nb.
  destruct (Reqb t1 t2) eqn:E.
  - apply Reqb_true in E. subst t2. now rewrite total_same.
  - apply Reqb_false in E. decide_tests.
    rewrite end_level_last. cbn [bind].
    destruct (Rle_dec t1 (Curve.length c)) as [Hin1 | Hout1].
    + rewrite rec_in_range by lra. cbn [bind]. f_equal.
      rewrite (total_additive c t1 (Curve.length c) t2).
      rewrite (total_beyond (Curve.length c) t2) by lra. ring.
    + unfold rec_nb; rewrite rec_nb_step; fold rec_nb. decide_tests.
      unfold rec_nb; rewrite rec_nb_step; fold rec_nb. decide_tests.
      rewrite end_level_last, rec_same. cbn [bind]. f_equal.
      rewrite total_beyond by lra. ring.
Qed.

Lemma rec_sorted n t1 t2 :
  t1 <= t2 -> rec_nb (S (S (S (S (S n))))) c t1 t2 = Ok (total c t1 t2).
Proof.
  intros H12. pose proof (valid_length_nonneg c c_valid) as HL.
  destruct (Rle_dec 0 t1) as [Hpos | Hneg]; [now apply rec_nonnegative | ].
  unfold rec_nb; rewrite rec_nb_step; fold rec_nb.
  destruct (Reqb t1 t2) eqn:E.
  - apply Reqb_true in E. subst t2. now rewrite total_same.
  - apply Reqb_false in E. decide_tests.
    destruct first_segment_level as (s & -> & Hfirst). cbn [bind].
    destruct (Rle_dec 0 t2) as [Hpos2 | Hneg2].
    + rewrite rec_nonnegative by lra. cbn [bind]. f_equal.
      rewrite (total_additive c t1 0 t2).
      rewrite (total_negative t1 0) by lra. rewrite Hfirst. ring.
    + unfold rec_nb. rewrite (rec_nb_step _ _ 0 t2). decide_tests.
      rewrite (rec_nb_step _ _ t2 0). decide_tests.
      destruct first_segment_level as (s' & -> & Hfirst').
      fold rec_nb. rewrite rec_same. cbn [bind]. f_equal. rewrite Hfirst'.
      rewrite total_negative by lra. rewrite Hfirst. ring.
Qed.

Lemma rec_total n t1 t2 :
  rec_nb (S (S (S (S (S (S n)))))) c t1 t2 = Ok (total c t1 t2).
Proof.
  destruct (Rle_dec t1 t2) as [Hle | Hgt]; [now apply rec_sorted | ].
  unfold rec_nb; rewrite rec_nb_step; fold rec_nb. decide_tests.
  rewrite rec_sorted by lra. cbn [bind]. f_equal.
  rewrite (total_swap c t1 t2). ring.
Qed.

Lemma integrate_interval_no_bisection_total t1 t2 :
  Curve.integrate_interval_no_bisection c t1 t2 = Ok (total c t1 t2).
Proof. apply rec_total. Qed.

Lemma integrate_interval_total t1 t2 :
  Curve.integrate_interval c t1 t2 = Ok (total c t1 t2).
Proof.
  unfold Curve.integrate_interval.
  rewrite integrate_interval_rec_no_bisection by exact c_valid.
  apply rec_total.
Qed.

End ClosedForm.

(** C6.  The bisection changes the cost of [integrate_interval], not
    its result: for every curve and all bounds the integral computed
    with the narrowed start index is the integral obtained by summing
    the per-segment integrals over the whole segment list, and it is a
    number (no bound makes the call raise). *)
Theorem bisection_preserves_integral (c : Curve.t) :
  valid c ->
  forall t1 t2,
    Curve.integrate_interval c t1 t2 = Curve.integrate_interval_no_bisection c t1 t2
    /\ exists v, Curve.integrate_interval c t1 t2 = Ok v.
Proof.
  intros H t1 t2. split.
  - rewrite integrate_interval_total, integrate_interval_no_bisection_total
      by assumption. reflexivity.
  - exists (total c t1 t2). now apply integrate_interval_total.
Qed.

(** On [staircase] the bisection does move the start index. *)
Example bisect_start_moves :
  Curve.bisect_start 9 staircase (13 / 2) 0 = Ok 4%nat.
Proof.
  unfold staircase. cbn [Curve.bisect_start List.length Nat.sub Nat.add].
  change ((8 / 2)%nat) with 4%nat.
  cbn [Nat.add nth_error end_time Nat.sub Nat.ltb Nat.leb].
  replace (Rltb 5 (13 / 2)) with true by (symmetry; apply Rltb_true; lra).
  cbn [andb]. change ((4 / 2)%nat) with 2%nat.
  cbn [Nat.add nth_error end_time Nat.sub Nat.ltb Nat.leb].
  replace (Rltb 7 (13 / 2)) with false by (symmetry; apply Rltb_false; lra).
  reflexivity.
Qed.

Lemma bisection_preserves_integral_witness :
  Curve.integrate_interval staircase (13 / 2) (15 / 2)
  = Curve.integrate_interval_no_bisection staircase (13 / 2) (15 / 2)
  /\ exists v, Curve.integrate_interval staircase (13 / 2) (15 / 2) = Ok v.
Proof.
  exact (bisection_preserves_integral staircase staircase_valid (13 / 2) (15 / 2)).
Defined.

(** C7.  Integration is additive over adjacent intervals: for every
    curve and all times [t1 <= t2 <= t3], inside or outside
    [[0, length]], the three integrals are numbers and
    [integrate_interval(t1, t3)] is the sum of
    [integrate_interval(t1, t2)] and [integrate_interval(t2, t3)]. *)
Theorem integration_additive (c : Curve.t) (t1 t2 t3 : R) :
  valid c -> t1 <= t2 -> t2 <= t3 ->
  exists whole left right,
    Curve.integrate_interval c t1 t3 = Ok whole
    /\ Curve.integrate_interval c t1 t2 = Ok left
    /\ Curve.integrate_interval c t2 t3 = Ok right
    /\ whole = left + right.
Proof.
  intros H _ _.
  exists (total c t1 t3), (total c t1 t2), (total c t2 t3).
  rewrite !integrate_interval_total by assumption.
  repeat split. apply total_additive.
Qed.

Lemma integration_additive_witness :
  exists whole left right,
    Curve.integrate_interval staircase (- 1) 9 = Ok whole
    /\ Curve.integrate_interval staircase (- 1) (5 / 2) = Ok left
    /\ Curve.integrate_interval staircase (5 / 2) 9 = Ok right
    /\ whole = left + right.
Proof.
  apply (integration_additive staircase (- 1) (5 / 2) 9 staircase_valid); lra.
Defined.

End IntegralFacts.

(** ** The compact serialized form *)

Module SerializationFacts.

Import Segment Invariant Model Examples InvariantFacts SegmentFacts CurveFacts
  MaxFacts.

Lemma forallb_repeat (l : list R) (v : R) :
  forallb (fun x => Reqb x v) l = true -> l = repeat v (List.length l).
Proof.
  induction l as [ | x l IH]; [reflexivity | ].
  simpl. intros H. apply andb_true_iff in H. destruct H as [Hx Hl].
  apply Reqb_true in Hx. subst x. now rewrite <- IH.
Qed.

Lemma all_equal_first_repeat (l : list R) :
  Curve.all_equal_first l = true ->
  exists d, l = repeat d (List.length l).
Proof.
  destruct l as [ | first l]; [now exists 0 | ].
  intros H. exists first. now apply forallb_repeat.
Qed.

Lemma levels_length (c : Curve.t) (e : R) :
  List.length (map Segment.start_level c ++ [e]) = S (List.length c).
Proof. rewrite length_app, length_map. simpl. lia. Qed.

Lemma construct_step t0 l0 l1 ls d ds sh shs :
  Curve.construct_segments_list t0 (l0 :: l1 :: ls) (d :: ds) (sh :: shs)
  = (tail <- Curve.construct_segments_list (t0 + d) (l1 :: ls) ds shs ;;
     Ok (mk t0 (t0 + d) l0 l1 sh :: tail)).
Proof. reflexivity. Qed.

(** Rebuilding the segments from the three flattened views. *)
Lemma construct_from_views a c :
  chain a c -> level_continuous c -> c <> [] ->
  forall e, Curve.end_level c = Ok e ->
  Curve.construct_segments_list a (map Segment.start_level c ++ [e])
    (Curve.durations c) (Curve.curve_shapes c)
  = Ok c.
Proof.
  revert a. induction c as [ | s rest IH]; intros a HC Hcont Hne e He;
    [now contradiction Hne | ].
  destruct HC as (H1 & H2 & H3).
  assert (Hs : forall l, mk a (a + Segment.duration s) (Segment.start_level s) l
                            (curve_shape s)
                         = mk (start_time s) (end_time s) (Segment.start_level s) l
                              (curve_shape s)).
  { intros l. unfold Segment.duration. rewrite H1. f_equal. ring. }
  destruct rest as [ | s2 rest].
  - unfold Curve.end_level in He. simpl in He. injection He as <-.
    simpl. rewrite Hs. now destruct s.
  - destruct Hcont as [Hc Hcont].
    rewrite end_level_cons in He by discriminate.
    change (map Segment.start_level (s :: s2 :: rest) ++ [e])
      with (Segment.start_level s :: Segment.start_level s2
            :: (map Segment.start_level rest ++ [e])).
    change (Curve.durations (s :: s2 :: rest))
      with (Segment.duration s :: Curve.durations (s2 :: rest)).
    change (Curve.curve_shapes (s :: s2 :: rest))
      with (curve_shape s :: Curve.curve_shapes (s2 :: rest)).
    rewrite construct_step.
    change (Segment.start_level s2 :: (map Segment.start_level rest ++ [e]))
      with (map Segment.start_level (s2 :: rest) ++ [e]).
    replace (a + Segment.duration s) with (end_time s)
      by (unfold Segment.duration; lra).
    rewrite IH by (assumption || discriminate). cbn [bind].
    rewrite <- Hc, <- H1. now destruct s.
Qed.

Lemma chain_even_length a c d :
  chain a c -> c <> [] -> Curve.durations c = repeat d (List.length c) ->
  Curve.length c = a + INR (List.length c) * d.
Proof.
  revert a. induction c as [ | s rest IH]; intros a HC Hne Hd;
    [now contradiction Hne | ].
  destruct HC as (H1 & H2 & H3).
  cbn [Curve.durations map List.length repeat] in Hd. injection Hd as Hs Hrest.
  unfold Segment.duration in Hs.
  destruct rest as [ | s2 rest].
  - unfold Curve.length. simpl. lra.
  - rewrite length_cons by discriminate.
    rewrite (IH (end_time s)) by (assumption || discriminate).
    change (List.length (s :: s2 :: rest)) with (S (List.length (s2 :: rest))).
    rewrite S_INR. lra.
Qed.

Lemma initialize_from_views c e shapes :
  valid c -> level_continuous c -> Curve.end_level c = Ok e ->
  (shapes = Some (Curve.curve_shapes c)
   \/ (shapes = None /\ Curve.curve_shapes c = repeat 0 (List.length c))) ->
  Curve.initialize (map Segment.start_level c ++ [e]) (Curve.durations c) shapes
  = Ok c.
Proof.
  intros H Hcont He Hshapes. apply valid_chain in H. destruct H as [Hne HC].
  unfold Curve.initialize.
  pose proof (levels_length c e) as Hlen.
  destruct (map Segment.start_level c ++ [e]) as [ | l0 [ | l1 levels]] eqn:El;
    [discriminate | | ].
  - destruct c; [now contradiction Hne | discriminate].
  - rewrite Hlen. unfold Curve.durations at 1. rewrite length_map.
    replace (S (List.length c) - 1)%nat with (List.length c) by lia.
    rewrite Nat.eqb_refl.
    destruct Hshapes as [-> | [-> Hz]]; [ | rewrite <- Hz];
      rewrite <- El; now apply construct_from_views.
Qed.

Lemma from_levels_from_views c e len :
  valid c -> level_continuous c -> Curve.end_level c = Ok e ->
  Curve.all_equal_first (Curve.durations c) = true ->
  forallb (fun x => Reqb x 0) (Curve.curve_shapes c) = true ->
  len = Curve.length c ->
  Curve.from_levels (map Segment.start_level c ++ [e]) len = Ok c.
Proof.
  intros H Hcont He Heven Hlin ->.
  pose proof H as H'. apply valid_chain in H'. destruct H' as [Hne HC].
  destruct (all_equal_first_repeat _ Heven) as [d Hd].
  unfold Curve.durations in Hd at 2. rewrite length_map in Hd.
  apply forallb_repeat in Hlin.
  unfold Curve.curve_shapes in Hlin at 2. rewrite length_map in Hlin.
  pose proof (initialize_from_views c e (Some (Curve.curve_shapes c)) H Hcont He
                (or_introl eq_refl)) as Hinit.
  unfold Curve.from_levels.
  pose proof (levels_length c e) as Hlen.
  destruct (map Segment.start_level c ++ [e]) as [ | l0 [ | l1 levels]] eqn:El;
    [discriminate | | ].
  - destruct c; [now contradiction Hne | discriminate].
  - rewrite Hlen.
    replace (S (List.length c) - 1)%nat with (List.length c) by lia.
    assert (Hn : INR (List.length c) <> 0).
    { apply not_0_INR. destruct c; [now contradiction Hne | discriminate]. }
    rewrite div_ok by assumption. cbn [bind].
    rewrite (chain_even_length 0 c d HC Hne Hd).
    replace ((0 + INR (List.length c) * d) / INR (List.length c)) with d
      by (field; assumption).
    unfold Curve.from_levels_and_durations.
    now rewrite <- Hd, <- Hlin.
Qed.

(** The curve read back from the compact form is the curve itself. *)
Lemma from_json_to_json c :
  valid c -> level_continuous c ->
  exists j, Curve.to_json c = Ok j /\ Curve.from_json j = Ok c.
Proof.
  intros H Hcont. pose proof H as H'. apply valid_chain in H'.
  destruct H' as [Hne HC].
  destruct (last_segment_some c Hne) as [l Hl].
  assert (He : Curve.end_level c = Ok (Segment.end_level l))
    by (unfold Curve.end_level; now rewrite Hl).
  unfold Curve.to_json, Curve.levels. rewrite He. cbn [bind].
  set (levels := map Segment.start_level c ++ [Segment.end_level l]).
  assert (Hnil : forall A (k1 : A) (k2 : list R -> A),
            match levels with [] => k1 | _ => k2 levels end = k2 levels).
  { intros A k1 k2. unfold levels. now destruct c. }
  destruct (Curve.all_equal_first (Curve.durations c)) eqn:Eeven;
    destruct (forallb (fun x => Reqb x 0) (Curve.curve_shapes c)) eqn:Elin;
    cbn [andb].
  - destruct (Reqb (Curve.length c) 1) eqn:E1.
    + apply Reqb_true in E1. eexists. split; [reflexivity | ].
      unfold Curve.from_json, Curve.from_list.
      replace (match levels with [] => Raise IndexError
               | _ :: _ => Curve.from_levels levels 1 end)
        with (Curve.from_levels levels 1) by (unfold levels; now destruct c).
      now apply from_levels_from_views.
    + eexists. split; [reflexivity | ].
      now apply from_levels_from_views.
  - eexists. split; [reflexivity | ].
    apply initialize_from_views; try assumption. now left.
  - eexists. split; [reflexivity | ].
    apply initialize_from_views; try assumption. right. split; [reflexivity | ].
    apply forallb_repeat in Elin.
    unfold Curve.curve_shapes in Elin at 2. now rewrite length_map in Elin.
  - eexists. split; [reflexivity | ].
    apply initialize_from_views; try assumption. now left.
Qed.

(** C4 (as amended).  For every curve whose adjacent segments agree in
    level, decoding the compact form that [to_json] chooses gives back
    the curve, so [value_at] of the decoded curve is [value_at] of the
    curve at every time.  (The compact form keeps one level for each
    boundary between two segments: the start level of the later one.) *)
Theorem serialization_round_trip (c : Curve.t) :
  valid c -> level_continuous c ->
  exists j c',
    Curve.to_json c = Ok j
    /\ Curve.from_json j = Ok c'
    /\ c' = c
    /\ forall x, 0 <= x <= Curve.length c ->
        Curve.value_at c' x = Curve.value_at c x.
Proof.
  intros H Hcont. destruct (from_json_to_json c H Hcont) as (j & Hto & Hfrom).
  exists j, c. repeat split; assumption || reflexivity.
Qed.

Lemma serialization_round_trip_witness :
  exists j c',
    Curve.to_json two_ramps = Ok j
    /\ Curve.from_json j = Ok c'
    /\ c' = two_ramps
    /\ forall x, 0 <= x <= Curve.length two_ramps ->
        Curve.value_at c' x = Curve.value_at two_ramps x.
Proof.
  apply (serialization_round_trip two_ramps two_ramps_valid).
  unfold two_ramps. simpl. split; [reflexivity | exact I].
Defined.

(** C4 as stated fails: the compact form of [broken_ramps] is
    [[0, 5, 6], 2], which decodes to a curve from 0 to 5 to 6; at time
    [1/2] the curve has the value [1/2] and the decoded curve [5/2]. *)
Lemma round_trip_loses_end_levels :
  valid broken_ramps
  /\ Curve.to_json broken_ramps = Ok (Curve.LevelsLength [0; 5; 6] 2)
  /\ Curve.from_json (Curve.LevelsLength [0; 5; 6] 2)
     = Ok [mk 0 (0 + 2 / INR 2) 0 5 0;
           mk (0 + 2 / INR 2) (0 + 2 / INR 2 + 2 / INR 2) 5 6 0]
  /\ 0 <= 1 / 2 <= Curve.length broken_ramps
  /\ Curve.value_at broken_ramps (1 / 2) = Ok (1 / 2)
  /\ Curve.value_at [mk 0 (0 + 2 / INR 2) 0 5 0;
                     mk (0 + 2 / INR 2) (0 + 2 / INR 2 + 2 / INR 2) 5 6 0] (1 / 2)
     = Ok (5 / 2).
Proof.
  assert (Hlin : Rltb (Rabs 0) shape_epsilon = true).
  { rewrite Rabs_R0. apply Rltb_true. apply shape_epsilon_pos. }
  split; [exact broken_ramps_valid | ].
  split; [ | split; [ | split; [ | split]]].
  - unfold Curve.to_json, Curve.levels, Curve.end_level, broken_ramps.
    simpl. unfold Segment.duration, Curve.length. simpl.
    decide_tests. reflexivity.
  - unfold Curve.from_json, Curve.from_list, Curve.from_levels.
    cbn [List.length Nat.sub]. rewrite div_ok by (simpl; lra). reflexivity.
  - unfold Curve.length, broken_ramps. simpl. lra.
  - rewrite (located_value _ (mk 0 1 0 1 0) _ broken_ramps_valid);
      [ | now left | simpl; lra].
    unfold interpolate, normalize. simpl. rewrite Hlin. f_equal. field.
  - unfold Curve.value_at. simpl. unfold contains. simpl.
    decide_tests. simpl.
    rewrite value_at_inside by (simpl; lra).
    unfold interpolate, normalize. simpl. rewrite Hlin. f_equal. field.
Qed.

End SerializationFacts.

(** ** Combining two constant segments *)

Module CombineFacts.

Import Segment Model Examples SegmentFacts CurveFacts Combine.

Lemma constant_value s k x :
  constant_segment s k -> Segment.value_at s x true = Ok k.
Proof.
  intros (Hlt & Hs & He & HS).
  destruct (Rle_dec (end_time s) x) as [Hend | Hend].
  - rewrite value_at_end by assumption. now rewrite He.
  - destruct (Rle_dec x (start_time s)) as [Hstart | Hstart].
    + rewrite value_at_start by lra. now rewrite Hs.
    + rewrite value_at_inside by lra. unfold interpolate.
      rewrite HS, Rabs_R0.
      replace (Rltb 0 shape_epsilon) with true
        by (symmetry; apply Rltb_true; apply shape_epsilon_pos).
      rewrite Hs, He. f_equal. ring.
Qed.

Section Constants.

Variables (input1 input2 : Segment.t) (k1 k2 : R) (f : R -> R -> R).
Hypothesis constant1 : constant_segment input1 k1.
Hypothesis constant2 : constant_segment input2 k2.

Lemma combined_constant x : combined_value input1 input2 f x = Ok (f k1 k2).
Proof.
  unfold combined_value.
  now rewrite (constant_value input1 k1), (constant_value input2 k2).
Qed.

Lemma sample_flat resolution st x st' :
  flat (f k1 k2) st ->
  sample input1 input2 f resolution st x = Ok st' ->
  flat (f k1 k2) st'.
Proof.
  intros (Hv & Hd1 & Hd2 & Hp). unfold sample.
  destruct (div (INR x) (INR resolution)) as [q | e | ]; simpl; try discriminate.
  rewrite combined_constant. simpl.
  assert (Hz : Rltb (0 * 0) 0 = false) by (apply Rltb_false; lra).
  destruct Hv as [-> | ->].
  - intros H. injection H as <-. unfold flat. simpl. auto.
  - replace (f k1 k2 - f k1 k2) with 0 by ring.
    destruct Hd1 as [-> | ->].
    + intros H. injection H as <-. unfold flat. simpl. auto.
    + rewrite Hz. replace (0 - 0) with 0 by ring.
      destruct Hd2 as [-> | ->].
      * intros H. injection H as <-. unfold flat. simpl. auto.
      * rewrite Hz. intros H. injection H as <-. unfold flat. simpl. auto.
Qed.

Lemma sample_all_flat resolution xs st st' :
  flat (f k1 k2) st ->
  sample_all input1 input2 f resolution xs st = Ok st' ->
  flat (f k1 k2) st'.
Proof.
  revert st. induction xs as [ | x xs IH]; intros st Hflat; simpl.
  - intros H. now injection H as <-.
  - destruct (sample input1 input2 f resolution st x) as [st1 | e | ] eqn:E;
      simpl; try discriminate.
    apply IH. now apply sample_flat with resolution st x.
Qed.

(** With a constant combined function the fitting loop only ever
    inserts a new key point after the first one. *)
Lemma fit_segments_never_ends fuel a b rest :
  fit_segments fuel input1 input2 f (a :: b :: rest) 0 [] = OutOfFuel.
Proof.
  revert b rest. induction fuel as [ | fuel IH]; intros b rest; [reflexivity | ].
  cbn [fit_segments List.length Nat.sub Nat.ltb Nat.leb nth_error Nat.add].
  rewrite !combined_constant. cbn [bind].
  replace (Rltb (Rmin (f k1 k2) (f k1 k2)) (f k1 k2)) with false.
  - cbn [andb negb]. unfold list_insert. cbn [firstn skipn app]. apply IH.
  - symmetry. apply Rltb_false. unfold Rmin.
    destruct (Rle_dec (f k1 k2) (f k1 k2)); lra.
Qed.

Lemma sample_all_ok resolution xs st :
  resolution <> 0%nat -> flat (f k1 k2) st ->
  exists st', sample_all input1 input2 f resolution xs st = Ok st'.
Proof.
  intros Hres. revert st. induction xs as [ | x xs IH]; intros st Hflat; simpl.
  - now exists st.
  - assert (Hstep : exists st1, sample input1 input2 f resolution st x = Ok st1).
    { unfold sample. rewrite div_ok by now apply not_0_INR.
      cbn [bind]. rewrite combined_constant. cbn [bind].
      destruct (value st); [ | now eexists].
      destruct (first_difference st); now eexists. }
    destruct Hstep as [st1 Hst1]. rewrite Hst1. cbn [bind].
    apply IH. now apply sample_flat with resolution st x.
Qed.

Lemma combining_constants_never_ends fuel resolution :
  resolution <> 0%nat ->
  start_time input2 = start_time input1 ->
  end_time input2 = end_time input1 ->
  split_binary_function_applied_pair fuel input1 input2 f resolution = OutOfFuel.
Proof.
  intros Hres Hs He. unfold split_binary_function_applied_pair.
  replace (Reqb (start_time input2) (start_time input1)) with true
    by (symmetry; now apply Reqb_true).
  replace (Reqb (end_time input2) (end_time input1)) with true
    by (symmetry; now apply Reqb_true).
  cbn [andb].
  assert (Hstart : flat (f k1 k2) (mk_sampling None None None []))
    by (unfold flat; simpl; auto).
  destruct (sample_all_ok resolution (seq 0 resolution) _ Hres Hstart) as [st E].
  rewrite E. cbn [bind].
  destruct (sample_all_flat resolution _ _ _ Hstart E) as (_ & _ & _ & ->).
  cbn [app]. now rewrite fit_segments_never_ends.
Qed.

End Constants.

Lemma level_one_constant : constant_segment level_one 1.
Proof. unfold constant_segment, level_one. simpl. repeat split; lra. Qed.

Lemma level_two_constant : constant_segment level_two 2.
Proof. unfold constant_segment, level_two. simpl. repeat split; lra. Qed.

(** C1 (the code departs from it).  Adding or multiplying the constant
    segments [level_one] and [level_two], which cover the same time
    range, does not terminate: the combined function is constant, so the
    halfway value is never strictly between the values at the ends, and
    the loop that fits the segments inserts a new key point at every
    pass; whatever the number of passes allowed, the call has not
    returned. *)
Theorem combination_of_constants_diverges (fuel : nat) :
  Combine.add fuel level_one level_two = OutOfFuel
  /\ Combine.mul fuel level_one level_two = OutOfFuel.
Proof.
  split; unfold Combine.add, Combine.mul;
    apply (combining_constants_never_ends level_one level_two 1 2);
    try exact level_one_constant; try exact level_two_constant;
    try reflexivity; discriminate.
Qed.

(** The same function does return where the combined function rises:
    two ramps from 0 to 1, sampled at two points, add up to one linear
    segment from 0 to 2 after a single pass of the fitting loop. *)
Example adding_ramps_ends :
  split_binary_function_applied_pair 2 (mk 0 1 0 1 0) (mk 0 1 0 1 0) Rplus 2
  = Ok (OneSegment (mk 0 1 0 2 0)).
Proof.
  assert (Hlin : Rltb (Rabs 0) shape_epsilon = true).
  { rewrite Rabs_R0. apply Rltb_true. apply shape_epsilon_pos. }
  assert (Hv : forall x, 0 <= x <= 1 ->
            combined_value (mk 0 1 0 1 0) (mk 0 1 0 1 0) Rplus x = Ok (x + x)).
  { intros x Hx. unfold combined_value.
    rewrite value_at_closed by (simpl; lra). cbn [bind].
    unfold interpolate, normalize. simpl. rewrite Hlin. f_equal. field. }
  unfold split_binary_function_applied_pair. simpl start_time. simpl end_time.
  replace (Reqb 0 0) with true by (symmetry; now apply Reqb_true).
  replace (Reqb 1 1) with true by (symmetry; now apply Reqb_true).
  cbn [andb seq sample_all].
  unfold sample. cbn [value first_difference second_difference split_points].
  rewrite !div_ok by (simpl; lra). cbn [bind].
  unfold Segment.duration. simpl start_time. simpl end_time.
  rewrite !Hv by (simpl; lra). cbn [bind value first_difference].
  cbn [split_points app].
  cbn [fit_segments List.length Nat.sub Nat.ltb Nat.leb nth_error Nat.add].
  rewrite !Hv by lra. cbn [bind].
  replace (Rltb (Rmin (0 + 0) (1 + 1)) ((0 + 1) / 2 + (0 + 1) / 2)) with true
    by (symmetry; apply Rltb_true; unfold Rmin; destruct (Rle_dec _ _); lra).
  replace (Rltb ((0 + 1) / 2 + (0 + 1) / 2) (Rmax (0 + 0) (1 + 1))) with true
    by (symmetry; apply Rltb_true; unfold Rmax; destruct (Rle_dec _ _); lra).
  cbn [andb negb]. unfold from_endpoints_and_halfway_level.
  replace (Rltb (Rmin (0 + 0) (1 + 1)) ((0 + 1) / 2 + (0 + 1) / 2)) with true
    by (symmetry; apply Rltb_true; unfold Rmin; destruct (Rle_dec _ _); lra).
  replace (Rltb ((0 + 1) / 2 + (0 + 1) / 2) (Rmax (0 + 0) (1 + 1))) with true
    by (symmetry; apply Rltb_true; unfold Rmax; destruct (Rle_dec _ _); lra).
  replace (Reqb (1 + 1) (0 + 0)) with false
    by (symmetry; apply Reqb_false; lra).
  cbn [andb]. rewrite !div_ok by lra. cbn [bind]. rewrite div_ok by lra.
  cbn [bind]. unfold log.
  destruct (Rlt_dec 0 _) as [_ | Hn]; [ | exfalso; apply Hn; lra].
  cbn [bind app List.length Nat.sub Nat.ltb Nat.leb Nat.add].
  replace (1 / (((0 + 1) / 2 + (0 + 1) / 2 - (0 + 0)) / (1 + 1 - (0 + 0))) - 1)
    with 1 by field.
  rewrite ln_1. do 2 f_equal. f_equal; ring.
Qed.

End CombineFacts.

(** * Properties of the other methods *)

(** ** Evaluating, shifting and scaling a segment *)

Module SegmentOpsFacts.

Import Segment Invariant Model Notions SegmentFacts SplitFacts SegmentOps.

Lemma value_at_clipped_ok s x : exists v, Segment.value_at s x true = Ok v.
Proof.
  destruct (Rle_dec (end_time s) x) as [Hend | Hend].
  - rewrite value_at_end by assumption. now eexists.
  - destruct (Rle_dec x (start_time s)) as [Hstart | Hstart].
    + rewrite value_at_start by lra. now eexists.
    + rewrite value_at_inside by lra. now eexists.
Qed.

Lemma value_at_unclipped_zero_length s x :
  start_time s = end_time s ->
  Segment.value_at s x false = Raise ZeroDivisionError.
Proof.
  intros H. unfold Segment.value_at.
  destruct (calculate_coefficients_ok s) as [c ->]. simpl.
  replace (end_time s - start_time s) with 0 by lra. now rewrite div_zero.
Qed.

(** X1.  With clipping (the default) [value_at] returns a number for
    every segment and every time, a zero-length segment included;
    without clipping it returns a number exactly when the segment has a
    duration, and raises [ZeroDivisionError] on a zero-length segment. *)
Theorem value_at_raises_only_unclipped (s : Segment.t) (x : R) :
  (exists v, Segment.value_at s x true = Ok v)
  /\ (start_time s <> end_time s -> exists v, Segment.value_at s x false = Ok v)
  /\ (start_time s = end_time s ->
      Segment.value_at s x false = Raise ZeroDivisionError).
Proof.
  split; [apply value_at_clipped_ok | ]. split.
  - intros H. rewrite value_at_unclipped by assumption. now eexists.
  - apply value_at_unclipped_zero_length.
Qed.

(** The values of two segments on the same time range with the same
    shape, the levels of one being those of the other moved by [k] and
    scaled by [a]. *)
Lemma value_at_affine s s' a k x clip :
  start_time s' = start_time s -> end_time s' = end_time s ->
  curve_shape s' = curve_shape s ->
  Segment.start_level s' = a * Segment.start_level s + k ->
  Segment.end_level s' = a * Segment.end_level s + k ->
  Segment.value_at s' x clip = (v <- Segment.value_at s x clip ;; Ok (a * v + k)).
Proof.
  intros Hst Het HS Hsl Hel. unfold Segment.value_at.
  destruct (calculate_coefficients_ok s) as [c ->].
  destruct (calculate_coefficients_ok s') as [c' ->]. cbn [bind].
  rewrite Hst, Het, HS.
  destruct (clip && Rleb (end_time s) x); [cbn [bind]; now rewrite Hel | ].
  destruct (clip && Rleb x (start_time s)); [cbn [bind]; now rewrite Hsl | ].
  destruct (div (x - start_time s) (end_time s - start_time s)) as [n | e | ];
    cbn [bind]; try reflexivity.
  destruct (Rltb (Rabs (curve_shape s)) shape_epsilon) eqn:E.
  - cbn [bind]. f_equal. rewrite Hsl, Hel. ring.
  - pose proof (exp_minus_1_neq_0 _ (not_linear_neq_0 _ E)) as HE.
    rewrite !div_ok by assumption. cbn [bind]. f_equal.
    rewrite Hsl, Hel. field. assumption.
Qed.

(** X2.  Adding a number to a segment, or subtracting one, returns one
    new segment whose value at every time is the value of the segment
    plus, or minus, the number (an error of [value_at] stays the same
    error).  A number minus a segment ([__rsub__]) is computed as the
    segment plus the negated number, so it returns the segment minus
    the number too. *)
Theorem adding_a_number_shifts_values (fuel : nat) (s : Segment.t) (k : R) :
  exists plus minus,
    SegmentOps.add fuel s (Number k) = Ok (Combine.OneSegment plus)
    /\ SegmentOps.sub fuel s (Number k) = Ok (Combine.OneSegment minus)
    /\ SegmentOps.rsub fuel s (Number k) = Ok (Combine.OneSegment minus)
    /\ forall x clip,
         Segment.value_at plus x clip
         = (v <- Segment.value_at s x clip ;; Ok (v + k))
         /\ Segment.value_at minus x clip
            = (v <- Segment.value_at s x clip ;; Ok (v - k)).
Proof.
  do 2 eexists. split; [reflexivity | ]. split; [reflexivity | ].
  split; [reflexivity | ].
  intros x clip. split.
  - rewrite (value_at_affine s _ 1 k) by (simpl; try reflexivity; ring).
    destruct (Segment.value_at s x clip); cbn [bind]; try reflexivity.
    f_equal. ring.
  - rewrite (value_at_affine s _ 1 (- k)) by (simpl; try reflexivity; ring).
    destruct (Segment.value_at s x clip); cbn [bind]; try reflexivity.
    f_equal. ring.
Qed.

(** X3.  Multiplying a segment by a number returns one new segment whose
    value at every time is the value of the segment times the number;
    dividing by a number other than 0 divides the values, dividing by 0
    raises [ZeroDivisionError]; the negated segment has the negated
    values. *)
Theorem multiplying_by_a_number_scales_values (fuel : nat) (s : Segment.t) (k : R) :
  (exists times,
     SegmentOps.mul fuel s (Number k) = Ok (Combine.OneSegment times)
     /\ forall x clip,
          Segment.value_at times x clip
          = (v <- Segment.value_at s x clip ;; Ok (v * k)))
  /\ (k <> 0 ->
      exists over,
        SegmentOps.truediv fuel s (Number k) = Ok (Combine.OneSegment over)
        /\ forall x clip,
             Segment.value_at over x clip
             = (v <- Segment.value_at s x clip ;; Ok (v / k)))
  /\ SegmentOps.truediv fuel s (Number 0) = Raise ZeroDivisionError
  /\ forall x clip,
       Segment.value_at (SegmentOps.neg s) x clip
       = (v <- Segment.value_at s x clip ;; Ok (- v)).
Proof.
  split; [ | split; [ | split]].
  - eexists. split; [reflexivity | ]. intros x clip.
    rewrite (value_at_affine s _ k 0) by (simpl; try reflexivity; ring).
    destruct (Segment.value_at s x clip); cbn [bind]; try reflexivity.
    f_equal. ring.
  - intros Hk. unfold SegmentOps.truediv, SegmentOps.reciprocal.
    rewrite div_ok by assumption. cbn [bind]. eexists. split; [reflexivity | ].
    intros x clip.
    rewrite (value_at_affine s _ (1 / k) 0) by (simpl; try reflexivity; ring).
    destruct (Segment.value_at s x clip); cbn [bind]; try reflexivity.
    f_equal. field. assumption.
  - unfold SegmentOps.truediv, SegmentOps.reciprocal. now rewrite div_zero.
  - intros x clip.
    rewrite (value_at_affine s _ (- 1) 0) by (simpl; try reflexivity; ring).
    destruct (Segment.value_at s x clip); cbn [bind]; try reflexivity.
    f_equal. ring.
Qed.

(** X4.  [is_shifted_version_of] answers [True] only for a segment that
    differs from the other by a constant: the values at every time
    differ by the difference of the start levels. *)
Theorem shifted_version_differs_by_constant (s other : Segment.t) :
  SegmentOps.is_shifted_version_of s other = true ->
  forall x clip,
    Segment.value_at s x clip
    = (v <- Segment.value_at other x clip ;;
       Ok (v + (Segment.start_level s - Segment.start_level other))).
Proof.
  unfold SegmentOps.is_shifted_version_of. intros H x clip.
  apply andb_true_iff in H. destruct H as [H HS].
  apply andb_true_iff in H. destruct H as [H Hl].
  apply andb_true_iff in H. destruct H as [Hst Het].
  apply Reqb_true in HS, Hl, Hst, Het.
  rewrite (value_at_affine other s 1
             (Segment.start_level s - Segment.start_level other))
    by (try assumption; lra).
  destruct (Segment.value_at other x clip); cbn [bind]; try reflexivity.
  f_equal. ring.
Qed.

Lemma shifted_version_differs_by_constant_witness :
  Segment.value_at (mk 0 1 6 8 0) (1 / 2) true
  = (v <- Segment.value_at (mk 0 1 1 3 0) (1 / 2) true ;; Ok (v + (6 - 1))).
Proof.
  apply (shifted_version_differs_by_constant (mk 0 1 6 8 0) (mk 0 1 1 3 0)).
  unfold SegmentOps.is_shifted_version_of. simpl.
  rewrite !andb_true_iff, !Reqb_true. repeat split; lra.
Defined.

End SegmentOpsFacts.

(** ** Integrating and fitting a segment *)

Module SegmentIntegralFacts.

Import Segment Invariant Model Notions SegmentFacts SplitFacts IntegralFacts
  ExponentialFacts SegmentOps.

(** X5.  [integrate_segment] raises [AssertionError] when a bound lies
    outside the segment.  With both bounds inside it returns a number,
    even on a zero-length segment: 0 for equal bounds, the opposite
    number for swapped bounds, and the sum of the integrals over two
    adjacent parts. *)
Theorem integrate_segment_within_bounds (s : Segment.t) :
  (forall t1 t2,
     t1 < start_time s \/ end_time s < t1 \/ t2 < start_time s \/ end_time s < t2 ->
     Segment.integrate_segment s t1 t2 = Raise AssertionError)
  /\ (forall t1 t2 t3,
      start_time s <= t1 <= end_time s -> start_time s <= t2 <= end_time s ->
      start_time s <= t3 <= end_time s ->
      exists a b c,
        Segment.integrate_segment s t1 t2 = Ok a
        /\ Segment.integrate_segment s t2 t3 = Ok b
        /\ Segment.integrate_segment s t1 t3 = Ok c
        /\ c = a + b
        /\ Segment.integrate_segment s t2 t1 = Ok (- a)
        /\ Segment.integrate_segment s t1 t1 = Ok 0).
Proof.
  split.
  - intros t1 t2 H. unfold Segment.integrate_segment.
    replace (Rleb (start_time s) t1 && Rleb t1 (end_time s)
             && Rleb (start_time s) t2 && Rleb t2 (end_time s)) with false;
      [reflexivity | ].
    symmetry. rewrite !andb_false_iff, !Rleb_false. tauto.
  - intros t1 t2 t3 H1 H2 H3.
    exists (primitive s t2 - primitive s t1), (primitive s t3 - primitive s t2),
           (primitive s t3 - primitive s t1).
    rewrite !integrate_segment_primitive by assumption.
    repeat split; try ring; f_equal; ring.
Qed.

Lemma from_endpoints_shape start_time end_time start_level end_level halfway_level :
  Rmin start_level end_level < halfway_level < Rmax start_level end_level ->
  let normalized := (halfway_level - start_level) / (end_level - start_level) in
  end_level <> start_level /\ 0 < normalized < 1
  /\ Combine.from_endpoints_and_halfway_level start_time end_time start_level
       end_level halfway_level
     = Ok (mk start_time end_time start_level end_level
              (2 * ln (1 / normalized - 1))).
Proof.
  intros [Hlo Hhi] normalized.
  assert (Hne : end_level <> start_level).
  { intros ->. unfold Rmin, Rmax in *.
    destruct (Rle_dec start_level start_level); lra. }
  assert (Hn : 0 < normalized < 1).
  { unfold normalized, Rmin, Rmax in *.
    destruct (Rle_dec start_level end_level) as [Hle | Hgt].
    - assert (0 < / (end_level - start_level)) by (apply Rinv_0_lt_compat; lra).
      unfold Rdiv. split; [apply Rmult_lt_0_compat; lra | ].
      apply Rmult_lt_reg_r with (end_level - start_level); [lra | ].
      rewrite Rmult_assoc, Rinv_l by lra. lra.
    - assert (Hinv : / (end_level - start_level) < 0)
        by (apply Rinv_lt_0_compat; lra).
      unfold Rdiv. split; [nra | ].
      apply Rmult_lt_reg_r with (- (end_level - start_level)); [lra | ].
      replace ((halfway_level - start_level) * / (end_level - start_level)
               * - (end_level - start_level))
        with (- (halfway_level - start_level)) by (field; lra).
      lra. }
  split; [assumption | ]. split; [assumption | ].
  unfold Combine.from_endpoints_and_halfway_level.
  replace (Rltb (Rmin start_level end_level) halfway_level) with true
    by (symmetry; now apply Rltb_true).
  replace (Rltb halfway_level (Rmax start_level end_level)) with true
    by (symmetry; now apply Rltb_true).
  replace (Reqb end_level start_level) with false
    by (symmetry; now apply Reqb_false).
  cbn [andb]. rewrite div_ok by lra. cbn [bind]. fold normalized.
  rewrite div_ok by lra. cbn [bind]. unfold log.
  assert (Hr : 0 < 1 / normalized - 1).
  { assert (1 < / normalized).
    { rewrite <- Rinv_1. apply Rinv_lt_contravar; lra. }
    unfold Rdiv. lra. }
  destruct (Rlt_dec 0 (1 / normalized - 1)); [reflexivity | contradiction].
Qed.

(** X6.  [from_endpoints_and_halfway_level] raises [AssertionError]
    unless the halfway level is strictly between the two end levels.
    Otherwise it returns a segment with the given times and levels,
    and, when the shape it computes is 0 or at least [1e-6] in absolute
    value, the segment has the halfway level at the middle of its time
    range. *)
Theorem fitted_segment_passes_halfway
    (start_time end_time start_level end_level halfway_level : R) :
  (~ (Rmin start_level end_level < halfway_level < Rmax start_level end_level) ->
   Combine.from_endpoints_and_halfway_level start_time end_time start_level
     end_level halfway_level = Raise AssertionError)
  /\ (Rmin start_level end_level < halfway_level < Rmax start_level end_level ->
      exists s,
        Combine.from_endpoints_and_halfway_level start_time end_time start_level
          end_level halfway_level = Ok s
        /\ Segment.start_time s = start_time /\ Segment.end_time s = end_time
        /\ Segment.start_level s = start_level
        /\ Segment.end_level s = end_level
        /\ (start_time < end_time ->
            curve_shape s = 0 \/ shape_epsilon <= Rabs (curve_shape s) ->
            Segment.value_at s (midpoint s) true = Ok halfway_level)).
Proof.
  split.
  - intros H. unfold Combine.from_endpoints_and_halfway_level.
    replace (Rltb (Rmin start_level end_level) halfway_level
             && Rltb halfway_level (Rmax start_level end_level)) with false;
      [reflexivity | ].
    symmetry. rewrite andb_false_iff, !Rltb_false. lra.
  - intros H.
    destruct (from_endpoints_shape start_time end_time _ _ _ H)
      as (Hne & Hn & Hfit).
    set (normalized := (halfway_level - start_level) / (end_level - start_level))
      in *.
    set (r := 1 / normalized - 1) in *.
    assert (Hr : 0 < r).
    { unfold r. assert (1 < / normalized).
      { rewrite <- Rinv_1. apply Rinv_lt_contravar; lra. }
      unfold Rdiv. lra. }
    eexists. split; [exact Hfit | ]. simpl. repeat split.
    intros Hlt Hshape. unfold midpoint. simpl.
    rewrite value_at_closed by (simpl; lra). f_equal.
    assert (Hmid : normalize (mk start_time end_time start_level end_level
                                 (2 * ln r))
                     ((start_time + end_time) / 2) = 1 / 2)
      by (unfold normalize; simpl; field; lra).
    rewrite Hmid.
    assert (Hh : halfway_level = start_level + normalized * (end_level - start_level))
      by (unfold normalized; field; lra).
    destruct Hshape as [Hzero | Hbig].
    + assert (Hr1 : r = 1).
      { assert (Hln : ln r = 0) by lra.
        rewrite <- (exp_ln r Hr), Hln. apply exp_0. }
      assert (Hhalf : normalized = 1 / 2).
      { unfold r in Hr1. assert (Hinv : / normalized = 2) by (unfold Rdiv in Hr1; lra).
        rewrite <- (Rinv_inv normalized), Hinv. lra. }
      unfold interpolate. simpl. rewrite Hzero, Rabs_R0.
      replace (Rltb 0 shape_epsilon) with true
        by (symmetry; apply Rltb_true; apply shape_epsilon_pos).
      rewrite Hh, Hhalf. ring.
    + assert (E : Rltb (Rabs (2 * ln r)) shape_epsilon = false)
        by now apply Rltb_false.
      unfold interpolate. simpl. rewrite E.
      pose proof (exp_minus_1_neq_0 _ (not_linear_neq_0 _ E)) as HE.
      replace (2 * ln r * (1 / 2)) with (ln r) by field.
      replace (2 * ln r) with (ln r + ln r) in * by ring.
      rewrite exp_plus in *. rewrite exp_ln in * by assumption.
      assert (Hr1 : r + 1 <> 0) by lra.
      assert (Hrm : r - 1 <> 0) by (intros Hc; apply HE; nra).
      rewrite Hh.
      replace normalized with (/ (r + 1)).
      * field. split; [ | assumption]. intros Hc. apply HE. nra.
      * unfold r. replace (1 / normalized - 1 + 1) with (/ normalized)
          by (unfold Rdiv; ring).
        apply Rinv_inv.
Qed.

(** X7.  A segment constructed with the shape string ["exp"] between two
    levels of the same sign changes by a constant ratio: when the shape
    [ln(end_level / start_level)] is at least [1e-6] in absolute value,
    its value at normalized time [u] is
    [start_level * (end_level / start_level) ^ u].  The constructor
    raises [ZeroDivisionError] for a start level 0 and [AssertionError]
    for levels of opposite signs or an end level 0. *)
Theorem exp_shape_is_proportional (t0 t1 start_level end_level : R) :
  Segment.init t0 t1 0 end_level (ShapeString SExp) = Raise ZeroDivisionError
  /\ (start_level <> 0 -> end_level / start_level <= 0 ->
      Segment.init t0 t1 start_level end_level (ShapeString SExp)
      = Raise AssertionError)
  /\ (start_level <> 0 -> 0 < end_level / start_level ->
      exists s,
        Segment.init t0 t1 start_level end_level (ShapeString SExp) = Ok s
        /\ curve_shape s = ln (end_level / start_level)
        /\ (t0 < t1 -> shape_epsilon <= Rabs (ln (end_level / start_level)) ->
            forall x, t0 <= x <= t1 ->
              Segment.value_at s x true
              = Ok (start_level
                    * Rpower (end_level / start_level) ((x - t0) / (t1 - t0))))).
Proof.
  split; [ | split].
  - unfold Segment.init. now rewrite div_zero.
  - intros Hne Hle. unfold Segment.init. rewrite div_ok by assumption.
    cbn [bind].
    now replace (Rltb 0 (end_level / start_level)) with false
      by (symmetry; now apply Rltb_false).
  - intros Hne Hpos. unfold Segment.init. rewrite div_ok by assumption.
    cbn [bind].
    replace (Rltb 0 (end_level / start_level)) with true
      by (symmetry; now apply Rltb_true).
    unfold log. destruct (Rlt_dec 0 (end_level / start_level)); [ | contradiction].
    cbn [bind Segment.eval]. eexists. split; [reflexivity | ].
    split; [reflexivity | ]. intros Hlt Heps x Hx.
    now apply (proportional_value
                 (mk t0 t1 start_level end_level (ln (end_level / start_level)))).
Qed.

Lemma exp_ge_1_plus (x : R) : 1 + x <= exp x.
Proof.
  destruct (Req_dec_T x 0) as [-> | Hne].
  - rewrite exp_0. lra.
  - left. now apply exp_ineq1.
Qed.

(** The chord of [exp] lies between its tangents at the two ends. *)
Lemma exp_chord (a b : R) :
  (b - a) * exp a <= exp b - exp a <= (b - a) * exp b.
Proof.
  pose proof (exp_pos a) as Ha. pose proof (exp_pos b) as Hb.
  split.
  - replace (exp b) with (exp a * exp (b - a))
      by (rewrite <- exp_plus; f_equal; ring).
    pose proof (exp_ge_1_plus (b - a)). nra.
  - replace (exp a) with (exp b * exp (a - b)) at 1
      by (rewrite <- exp_plus; f_equal; ring).
    pose proof (exp_ge_1_plus (a - b)). nra.
Qed.

Lemma between_affine (base p w a b : R) :
  a <= w <= b \/ b <= w <= a ->
  Rmin (base + p * a) (base + p * b) <= base + p * w
  <= Rmax (base + p * a) (base + p * b).
Proof.
  intros H. unfold Rmin, Rmax.
  destruct (Rle_dec (base + p * a) (base + p * b));
    destruct (Rle_dec 0 p); destruct H; split; nra.
Qed.

(** The integral between two times of a segment lies between the
    rectangles built on the values at the two times. *)
Lemma primitive_between s x y :
  start_time s < end_time s -> start_time s <= x -> x <= y -> y <= end_time s ->
  Rmin ((y - x) * interpolate s (normalize s x))
       ((y - x) * interpolate s (normalize s y))
  <= primitive s y - primitive s x
  <= Rmax ((y - x) * interpolate s (normalize s x))
          ((y - x) * interpolate s (normalize s y)).
Proof.
  intros Hlt Hx Hxy Hy.
  assert (Hlen : end_time s - start_time s <> 0) by lra.
  destruct (Rltb (Rabs (curve_shape s)) shape_epsilon) eqn:E.
  - unfold primitive, interpolate. rewrite E. unfold normalize.
    set (len := end_time s - start_time s) in *.
    set (d := Segment.end_level s - Segment.start_level s).
    replace (Segment.start_level s * (y - start_time s)
             + d * len * ((y - start_time s) / len) * ((y - start_time s) / len) / 2
             - (Segment.start_level s * (x - start_time s)
                + d * len * ((x - start_time s) / len)
                  * ((x - start_time s) / len) / 2))
      with ((y - x) * (Segment.start_level s + (x - start_time s) / len * d)
            + (y - x) * ((y - x) / len * d) * (1 / 2))
      by (field; assumption).
    replace ((y - x) * (Segment.start_level s + (y - start_time s) / len * d))
      with ((y - x) * (Segment.start_level s + (x - start_time s) / len * d)
            + (y - x) * ((y - x) / len * d) * 1)
      by (field; assumption).
    replace (Rmin ((y - x) * (Segment.start_level s + (x - start_time s) / len * d)))
      with (Rmin ((y - x) * (Segment.start_level s + (x - start_time s) / len * d)
                  + (y - x) * ((y - x) / len * d) * 0))
      by (f_equal; ring).
    replace (Rmax ((y - x) * (Segment.start_level s + (x - start_time s) / len * d)))
      with (Rmax ((y - x) * (Segment.start_level s + (x - start_time s) / len * d)
                  + (y - x) * ((y - x) / len * d) * 0))
      by (f_equal; ring).
    apply between_affine. lra.
  - pose proof (not_linear_neq_0 _ E) as HS.
    pose proof (exp_minus_1_neq_0 _ HS) as HE.
    unfold primitive, interpolate. rewrite E.
    set (len := end_time s - start_time s) in *.
    set (S := curve_shape s) in *.
    set (q := (Segment.end_level s - Segment.start_level s) / (exp S - 1)).
    set (nx := normalize s x). set (ny := normalize s y).
    assert (Hd : 0 <= ny - nx)
      by (pose proof (normalize_mono s x y Hlt Hxy); unfold nx, ny; lra).
    assert (Hyx : y - x = len * (ny - nx))
      by (unfold nx, ny, normalize, len; field; assumption).
    set (W := (exp (S * ny) - exp (S * nx)) / S).
    assert (HW : (ny - nx) * exp (S * nx) <= W <= (ny - nx) * exp (S * ny)
                 \/ (ny - nx) * exp (S * ny) <= W <= (ny - nx) * exp (S * nx)).
    { pose proof (exp_chord (S * nx) (S * ny)) as [Hlo Hhi].
      replace (S * ny - S * nx) with (S * (ny - nx)) in * by ring.
      unfold W. destruct (Rlt_dec 0 S) as [Hpos | Hneg].
      - left. assert (0 < / S) by now apply Rinv_0_lt_compat.
        unfold Rdiv. split.
        + apply Rmult_le_reg_l with S; [assumption | ].
          replace (S * ((exp (S * ny) - exp (S * nx)) * / S))
            with (exp (S * ny) - exp (S * nx)) by (field; assumption). lra.
        + apply Rmult_le_reg_l with S; [assumption | ].
          replace (S * ((exp (S * ny) - exp (S * nx)) * / S))
            with (exp (S * ny) - exp (S * nx)) by (field; assumption). lra.
      - right. assert (HSn : 0 < - S) by lra.
        unfold Rdiv. split.
        + apply Rmult_le_reg_l with (- S); [assumption | ].
          replace (- S * ((exp (S * ny) - exp (S * nx)) * / S))
            with (- (exp (S * ny) - exp (S * nx))) by (field; assumption). lra.
        + apply Rmult_le_reg_l with (- S); [assumption | ].
          replace (- S * ((exp (S * ny) - exp (S * nx)) * / S))
            with (- (exp (S * ny) - exp (S * nx))) by (field; assumption). lra. }
    replace (len * ((Segment.start_level s - q) * ny
                    + (Segment.end_level s - Segment.start_level s)
                      / (S * (exp S - 1)) * exp (S * ny))
             - len * ((Segment.start_level s - q) * nx
                      + (Segment.end_level s - Segment.start_level s)
                        / (S * (exp S - 1)) * exp (S * nx)))
      with ((y - x) * (Segment.start_level s - q) + len * q * W)
      by (rewrite Hyx; unfold W, q; field; split; assumption).
    replace ((y - x) * (Segment.start_level s + q * (exp (S * nx) - 1)))
      with ((y - x) * (Segment.start_level s - q)
            + len * q * ((ny - nx) * exp (S * nx)))
      by (rewrite Hyx; ring).
    replace ((y - x) * (Segment.start_level s + q * (exp (S * ny) - 1)))
      with ((y - x) * (Segment.start_level s - q)
            + len * q * ((ny - nx) * exp (S * ny)))
      by (rewrite Hyx; ring).
    apply between_affine. exact HW.
Qed.

Lemma primitive_level_bounds s x y :
  start_time s < end_time s -> start_time s <= x -> x <= y -> y <= end_time s ->
  (y - x) * Rmin (Segment.start_level s) (Segment.end_level s)
  <= primitive s y - primitive s x
  <= (y - x) * Rmax (Segment.start_level s) (Segment.end_level s).
Proof.
  intros Hlt Hx Hxy Hy.
  pose proof (primitive_between s x y Hlt Hx Hxy Hy) as [Hlo Hhi].
  pose proof (interpolate_bounds s (normalize s x)
                (normalize_bounds s x Hlt ltac:(lra))) as [Hx1 Hx2].
  pose proof (interpolate_bounds s (normalize s y)
                (normalize_bounds s y Hlt ltac:(lra))) as [Hy1 Hy2].
  set (m := Rmin (Segment.start_level s) (Segment.end_level s)) in *.
  set (M := Rmax (Segment.start_level s) (Segment.end_level s)) in *.
  split.
  - apply Rle_trans with (2 := Hlo). apply Rmin_glb; nra.
  - apply Rle_trans with (1 := Hhi). apply Rmax_lub; nra.
Qed.

(** X8.  The integral of a segment between two of its times
    [t1 <= t2] lies between [(t2 - t1)] times the smaller and
    [(t2 - t1)] times the larger of its end levels. *)
Theorem segment_integral_bounds (s : Segment.t) (t1 t2 : R) :
  start_time s <= t1 -> t1 <= t2 -> t2 <= end_time s ->
  exists v,
    Segment.integrate_segment s t1 t2 = Ok v
    /\ (t2 - t1) * Rmin (Segment.start_level s) (Segment.end_level s) <= v
       <= (t2 - t1) * Rmax (Segment.start_level s) (Segment.end_level s).
Proof.
  intros H1 H12 H2. rewrite integrate_segment_primitive by lra.
  eexists. split; [reflexivity | ].
  destruct (Req_dec_T t1 t2) as [-> | Hne].
  - replace (primitive s t2 - primitive s t2) with 0 by ring. lra.
  - apply primitive_level_bounds; lra.
Qed.

Lemma segment_integral_bounds_witness :
  exists v,
    Segment.integrate_segment Examples.linear_ramp (1 / 2) (3 / 2) = Ok v
    /\ (3 / 2 - 1 / 2) * Rmin 1 3 <= v <= (3 / 2 - 1 / 2) * Rmax 1 3.
Proof.
  apply (segment_integral_bounds Examples.linear_ramp (1 / 2) (3 / 2));
    simpl; lra.
Defined.

(** X9.  The average level of a segment with a duration is a number
    between its two end levels; on a zero-length segment
    [average_level] raises [ZeroDivisionError]. *)
Theorem segment_average_level (s : Segment.t) :
  (start_time s < end_time s ->
   exists a,
     SegmentOps.average_level s = Ok a
     /\ Rmin (Segment.start_level s) (Segment.end_level s) <= a
        <= Rmax (Segment.start_level s) (Segment.end_level s))
  /\ (start_time s = end_time s ->
      SegmentOps.average_level s = Raise ZeroDivisionError).
Proof.
  split.
  - intros Hlt. unfold SegmentOps.average_level, Segment.duration.
    rewrite integrate_segment_primitive by lra. cbn [bind].
    rewrite div_ok by lra. eexists. split; [reflexivity | ].
    pose proof (primitive_level_bounds s (start_time s) (end_time s) Hlt
                  ltac:(lra) ltac:(lra) ltac:(lra)) as [Hlo Hhi].
    assert (Hinv : 0 < / (end_time s - start_time s))
      by (apply Rinv_0_lt_compat; lra).
    set (m := Rmin (Segment.start_level s) (Segment.end_level s)) in *.
    set (M := Rmax (Segment.start_level s) (Segment.end_level s)) in *.
    set (len := end_time s - start_time s) in *.
    set (v := primitive s (end_time s) - primitive s (start_time s)) in *.
    assert (Hl : 0 < len) by (unfold len; lra).
    clearbody len v m M.
    unfold Rdiv. split.
    + apply Rmult_le_reg_r with len; [lra | ].
      rewrite Rmult_assoc, Rinv_l by lra. lra.
    + apply Rmult_le_reg_r with len; [lra | ].
      rewrite Rmult_assoc, Rinv_l by lra. lra.
  - intros Heq. unfold SegmentOps.average_level, Segment.duration.
    rewrite integrate_segment_primitive by lra. cbn [bind].
    replace (end_time s - start_time s) with 0 by lra. apply div_zero.
Qed.

End SegmentIntegralFacts.

Module SegmentSlopeFacts.

Import Segment Invariant Model Notions SegmentFacts SplitFacts IntegralFacts
       SegmentOps SegmentIntegralFacts.

(** Inside and outside its time range, the clipped value of a segment
    is the interpolation formula at the nearest time of the range. *)
Lemma value_at_clamp s x :
  start_time s < end_time s ->
  Segment.value_at s x true = Ok (interpolate s (normalize s (clamp s x))).
Proof.
  intros Hlt.
  destruct (Rle_dec (end_time s) x) as [Hend | Hend].
  - rewrite value_at_end, clamp_after by lra.
    now rewrite normalize_end, interpolate_1.
  - destruct (Rle_dec x (start_time s)) as [Hstart | Hstart].
    + rewrite value_at_start, clamp_before by lra.
      now rewrite normalize_start, interpolate_0.
    + rewrite clamp_inside by lra. apply value_at_closed; lra.
Qed.

Lemma clamp_range s x :
  start_time s <= end_time s -> start_time s <= clamp s x <= end_time s.
Proof.
  intros H. unfold clamp, Rmax, Rmin.
  destruct (Rle_dec x (end_time s)); destruct (Rle_dec (start_time s) _); lra.
Qed.

Lemma clamp_step s x y :
  start_time s <= end_time s -> x <= y ->
  0 <= clamp s y - clamp s x <= y - x.
Proof.
  intros H Hxy. unfold clamp, Rmax, Rmin.
  destruct (Rle_dec x (end_time s)); destruct (Rle_dec y (end_time s));
    repeat destruct (Rle_dec (start_time s) _); lra.
Qed.

Lemma max_absolute_slope_value s :
  start_time s < end_time s ->
  SegmentOps.max_absolute_slope s
  = Ok (if Rltb (Rabs (curve_shape s)) shape_epsilon
        then Rabs (Segment.end_level s - Segment.start_level s)
             / (end_time s - start_time s)
        else exp (Rabs (curve_shape s))
             * Rabs (Segment.end_level s - Segment.start_level s)
             / (end_time s - start_time s)
             * Rabs (curve_shape s) / (exp (Rabs (curve_shape s)) - 1)).
Proof.
  intros Hlt. unfold SegmentOps.max_absolute_slope, Segment.duration.
  replace (Reqb (end_time s - start_time s) 0) with false
    by (symmetry; apply Reqb_false; lra).
  destruct (Rltb (Rabs (curve_shape s)) shape_epsilon) eqn:E.
  - now rewrite div_ok by lra.
  - rewrite div_ok by lra. cbn [bind].
    rewrite div_ok; [reflexivity | ].
    apply exp_minus_1_neq_0.
    pose proof (not_linear_neq_0 _ E) as HS.
    intros H0. apply HS. destruct (Rcase_abs (curve_shape s)) as [Hn | Hp].
    + rewrite Rabs_left in H0 by assumption. lra.
    + rewrite Rabs_right in H0 by assumption. lra.
Qed.

(** Between two times of its range the level of a segment changes by at
    most the maximal slope times the distance. *)
Lemma interpolate_change s m x y :
  start_time s < end_time s ->
  SegmentOps.max_absolute_slope s = Ok m ->
  start_time s <= x -> x <= y -> y <= end_time s ->
  Rabs (interpolate s (normalize s y) - interpolate s (normalize s x))
  <= m * (y - x).
Proof.
  intros Hlt Hm Hx Hxy Hy.
  rewrite max_absolute_slope_value in Hm by assumption.
  injection Hm as <-.
  assert (Hlen : end_time s - start_time s <> 0) by lra.
  set (D := Rabs (Segment.end_level s - Segment.start_level s)).
  assert (HD : 0 <= D) by apply Rabs_pos.
  destruct (Rltb (Rabs (curve_shape s)) shape_epsilon) eqn:E.
  - unfold interpolate. rewrite E. unfold normalize.
    replace (Segment.start_level s
             + (y - start_time s) / (end_time s - start_time s)
               * (Segment.end_level s - Segment.start_level s)
             - (Segment.start_level s
                + (x - start_time s) / (end_time s - start_time s)
                  * (Segment.end_level s - Segment.start_level s)))
      with ((Segment.end_level s - Segment.start_level s)
            * ((y - x) / (end_time s - start_time s)))
      by (field; assumption).
    rewrite Rabs_mult. fold D.
    rewrite (Rabs_right ((y - x) / (end_time s - start_time s))).
    + right. field. assumption.
    + apply Rle_ge. unfold Rdiv. apply Rmult_le_pos; [lra | ].
      left. apply Rinv_0_lt_compat. lra.
  - pose proof (not_linear_neq_0 _ E) as HS.
    pose proof (exp_minus_1_neq_0 _ HS) as HE.
    unfold interpolate. rewrite E.
    set (len := end_time s - start_time s) in *.
    set (S := curve_shape s) in *.
    set (nx := normalize s x). set (ny := normalize s y).
    assert (Hnx : 0 <= nx)
      by (apply (normalize_bounds s x Hlt); lra).
    assert (Hny : ny <= 1)
      by (apply (normalize_bounds s y Hlt); lra).
    assert (Hd : 0 <= ny - nx)
      by (pose proof (normalize_mono s x y Hlt Hxy); unfold nx, ny; lra).
    assert (Hyx : y - x = len * (ny - nx))
      by (unfold nx, ny, normalize, len; field; assumption).
    replace (Segment.start_level s
             + (Segment.end_level s - Segment.start_level s) / (exp S - 1)
               * (exp (S * ny) - 1)
             - (Segment.start_level s
                + (Segment.end_level s - Segment.start_level s) / (exp S - 1)
                  * (exp (S * nx) - 1)))
      with ((Segment.end_level s - Segment.start_level s)
            * ((exp (S * ny) - exp (S * nx)) / (exp S - 1)))
      by (field; assumption).
    rewrite Rabs_mult. fold D.
    pose proof (exp_chord (S * nx) (S * ny)) as [Hlo Hhi].
    replace (S * ny - S * nx) with (S * (ny - nx)) in * by ring.
    pose proof (exp_pos (S * nx)) as Hex. pose proof (exp_pos (S * ny)) as Hey.
    destruct (Rlt_dec 0 S) as [Hpos | Hneg].
    + rewrite (Rabs_right S) by lra.
      assert (H1 : 1 < exp S) by (rewrite <- exp_0; now apply exp_increasing).
      assert (Hinv : 0 < / (exp S - 1)) by (apply Rinv_0_lt_compat; lra).
      assert (Hey1 : exp (S * ny) <= exp S).
      { destruct (Req_dec_T ny 1) as [-> | Hne]; [rewrite Rmult_1_r; lra | ].
        left. apply exp_increasing. nra. }
      assert (Hsd : 0 <= S * (ny - nx)) by (apply Rmult_le_pos; lra).
      assert (Hdiff : 0 <= exp (S * ny) - exp (S * nx) <= S * (ny - nx) * exp S).
      { split.
        - apply Rle_trans with (2 := Hlo). apply Rmult_le_pos; lra.
        - apply Rle_trans with (1 := Hhi). apply Rmult_le_compat_l; lra. }
      rewrite Rabs_right.
      * replace (exp S * D / len * S / (exp S - 1) * (y - x))
          with (D * (S * (ny - nx) * exp S * / (exp S - 1)))
          by (rewrite Hyx; field; split; [lra | assumption]).
        apply Rmult_le_compat_l; [assumption | ].
        unfold Rdiv. apply Rmult_le_compat_r; lra.
      * apply Rle_ge. unfold Rdiv. apply Rmult_le_pos; lra.
    + assert (HSn : S < 0) by lra.
      rewrite (Rabs_left S) by lra.
      assert (H1 : exp S < 1) by (rewrite <- exp_0; now apply exp_increasing).
      assert (Hinv : 0 < / (1 - exp S)) by (apply Rinv_0_lt_compat; lra).
      assert (Hex1 : exp (S * nx) <= 1).
      { destruct (Req_dec_T nx 0) as [-> | Hne];
          [rewrite Rmult_0_r, exp_0; lra | ].
        left. rewrite <- exp_0. apply exp_increasing. nra. }
      assert (Hsd : 0 <= - S * (ny - nx)) by (apply Rmult_le_pos; lra).
      assert (Hdiff : 0 <= exp (S * nx) - exp (S * ny) <= - S * (ny - nx)).
      { split.
        - assert (0 <= - S * (ny - nx) * exp (S * ny))
            by (apply Rmult_le_pos; lra). lra.
        - assert (- S * (ny - nx) * exp (S * nx) <= - S * (ny - nx) * 1)
            by (apply Rmult_le_compat_l; lra). lra. }
      assert (Hea : exp (- S) * exp S = 1)
        by (rewrite <- exp_plus; replace (- S + S) with 0 by ring; apply exp_0).
      assert (Hea1 : exp (- S) - 1 <> 0).
      { pose proof (exp_pos (- S)). nra. }
      replace ((exp (S * ny) - exp (S * nx)) / (exp S - 1))
        with ((exp (S * nx) - exp (S * ny)) * / (1 - exp S))
        by (field; lra).
      rewrite Rabs_right.
      * replace (exp (- S) * D / len * - S / (exp (- S) - 1) * (y - x))
          with (D * (- S * (ny - nx) * (exp (- S) / (exp (- S) - 1))))
          by (rewrite Hyx; field; split; [assumption | lra]).
        replace (exp (- S) / (exp (- S) - 1)) with (/ (1 - exp S)).
        -- apply Rmult_le_compat_l; [assumption | ].
           apply Rmult_le_compat_r; lra.
        -- apply Rmult_eq_reg_l with ((1 - exp S) * (exp (- S) - 1)).
           ++ field_simplify; [ | assumption | lra]. nra.
           ++ apply Rmult_integral_contrapositive_currified; [lra | assumption].
      * apply Rle_ge. apply Rmult_le_pos; lra.
Qed.

(** X10.  [max_absolute_slope] of a zero-length segment is 0.  On a
    segment with a duration it is a number that is at least the absolute
    average slope, and the clipped values at any two times differ by at
    most that number times the distance of the times. *)
Theorem max_absolute_slope_bounds_changes (s : Segment.t) :
  (start_time s = end_time s -> SegmentOps.max_absolute_slope s = Ok 0)
  /\ (start_time s < end_time s ->
      exists m,
        SegmentOps.max_absolute_slope s = Ok m
        /\ Rabs (Segment.end_level s - Segment.start_level s) / Segment.duration s
           <= m
        /\ forall x y vx vy,
             Segment.value_at s x true = Ok vx ->
             Segment.value_at s y true = Ok vy ->
             Rabs (vy - vx) <= m * Rabs (y - x)).
Proof.
  split.
  - intros Heq. unfold SegmentOps.max_absolute_slope, Segment.duration.
    replace (Reqb (end_time s - start_time s) 0) with true
      by (symmetry; apply Reqb_true; lra).
    reflexivity.
  - intros Hlt.
    destruct (SegmentOps.max_absolute_slope s) as [m | e | ] eqn:Hm;
      try (rewrite max_absolute_slope_value in Hm by assumption; discriminate).
    exists m. split; [reflexivity | ].
    assert (Hends : Rabs (Segment.end_level s - Segment.start_level s)
                    <= m * (end_time s - start_time s)).
    { pose proof (interpolate_change s m (start_time s) (end_time s) Hlt Hm
                    ltac:(lra) ltac:(lra) ltac:(lra)) as H.
      now rewrite normalize_start, normalize_end, interpolate_0, interpolate_1
        in H by assumption. }
    assert (Hm0 : 0 <= m).
    { pose proof (Rabs_pos (Segment.end_level s - Segment.start_level s)). nra. }
    assert (Hordered : forall x y, x <= y ->
              Rabs (interpolate s (normalize s (clamp s y))
                    - interpolate s (normalize s (clamp s x)))
              <= m * (y - x)).
    { intros x y Hxy.
      pose proof (clamp_range s x ltac:(lra)) as [Hx1 Hx2].
      pose proof (clamp_range s y ltac:(lra)) as [Hy1 Hy2].
      pose proof (clamp_step s x y ltac:(lra) Hxy) as [Hs1 Hs2].
      apply Rle_trans with (m * (clamp s y - clamp s x)).
      - apply interpolate_change; try assumption; lra.
      - apply Rmult_le_compat_l; lra. }
    split.
    + unfold Segment.duration, Rdiv.
      apply Rmult_le_reg_r with (end_time s - start_time s); [lra | ].
      rewrite Rmult_assoc, Rinv_l by lra. lra.
    + intros x y vx vy Hvx Hvy.
      rewrite value_at_clamp in Hvx, Hvy by assumption.
      injection Hvx as <-. injection Hvy as <-.
      destruct (Rle_dec x y) as [Hxy | Hxy].
      * rewrite (Rabs_right (y - x)) by lra. now apply Hordered.
      * rewrite Rabs_minus_sym, (Rabs_left (y - x)) by lra.
        replace (- (y - x)) with (x - y) by ring. apply Hordered. lra.
Qed.

End SegmentSlopeFacts.

(** ** Integrals of a curve *)

Module CurveIntegralFacts.

Import Segment Invariant Model Notions Examples InvariantFacts SegmentFacts
       CurveFacts MaxFacts IntegralFacts SegmentIntegralFacts SegmentSlopeFacts.

Lemma clip_split a e L x :
  a <= e -> e <= L -> clip a e x + clip e L x = clip a L x + e.
Proof.
  intros H1 H2. unfold clip, Rmax, Rmin.
  destruct (Rle_dec x e); destruct (Rle_dec x L);
    repeat destruct (Rle_dec _ _); lra.
Qed.

Lemma clip_step a b x y : a <= b -> x <= y -> 0 <= clip a b y - clip a b x.
Proof.
  intros H1 H2. unfold clip, Rmax, Rmin.
  destruct (Rle_dec x b); destruct (Rle_dec y b);
    repeat destruct (Rle_dec _ _); lra.
Qed.

Lemma piece_level_bounds s m M t1 t2 :
  start_time s <= end_time s ->
  m <= Segment.start_level s -> m <= Segment.end_level s ->
  Segment.start_level s <= M -> Segment.end_level s <= M ->
  t1 <= t2 ->
  m * (clamp s t2 - clamp s t1) <= piece s t1 t2
  <= M * (clamp s t2 - clamp s t1).
Proof.
  intros Hwf Hm1 Hm2 HM1 HM2 H12. unfold piece.
  pose proof (clamp_range s t1 Hwf) as [Ha1 Ha2].
  pose proof (clamp_range s t2 Hwf) as [Hb1 Hb2].
  pose proof (clamp_step s t1 t2 Hwf H12) as [Hstep _].
  destruct (Req_dec_T (start_time s) (end_time s)) as [Heq | Hne].
  - replace (clamp s t2) with (clamp s t1) by lra.
    replace (primitive s (clamp s t1) - primitive s (clamp s t1)) with 0 by ring.
    lra.
  - pose proof (primitive_level_bounds s (clamp s t1) (clamp s t2)
                  ltac:(lra) Ha1 ltac:(lra) Hb2) as [Hlo Hhi].
    assert (Hmin : m <= Rmin (Segment.start_level s) (Segment.end_level s))
      by now apply Rmin_glb.
    assert (Hmax : Rmax (Segment.start_level s) (Segment.end_level s) <= M)
      by now apply Rmax_lub.
    split.
    + apply Rle_trans with (2 := Hlo). rewrite (Rmult_comm m).
      apply Rmult_le_compat_l; lra.
    + apply Rle_trans with (1 := Hhi). rewrite (Rmult_comm M).
      apply Rmult_le_compat_l; lra.
Qed.

Lemma area_level_bounds a c m M t1 t2 :
  chain a c -> c <> [] -> levels_at_least m c -> levels_at_most M c ->
  t1 <= t2 ->
  m * (clip a (Curve.length c) t2 - clip a (Curve.length c) t1)
  <= area c t1 t2
  <= M * (clip a (Curve.length c) t2 - clip a (Curve.length c) t1).
Proof.
  intros Hch Hne Hm HM H12. revert a Hch.
  induction c as [ | s rest IH]; [now contradiction Hne | ].
  intros a (Hst & Hle & Hrest).
  inversion Hm as [ | ? ? [Hm1 Hm2] Hm']; subst.
  inversion HM as [ | ? ? [HM1 HM2] HM']; subst.
  pose proof (piece_level_bounds s m M t1 t2 Hle Hm1 Hm2 HM1 HM2 H12) as Hp.
  change (clamp s t2) with (clip (start_time s) (end_time s) t2) in Hp.
  change (clamp s t1) with (clip (start_time s) (end_time s) t1) in Hp.
  destruct rest as [ | s2 rest'].
  - cbn [area]. unfold Curve.length. cbn [Curve.last_segment]. lra.
  - assert (Hne' : s2 :: rest' <> []) by discriminate.
    rewrite length_cons by assumption.
    specialize (IH Hne' Hm' HM' (end_time s) Hrest).
    pose proof (chain_bounds _ _ Hrest Hne') as [HeL _].
    pose proof (clip_split (start_time s) (end_time s) (Curve.length (s2 :: rest'))
                  t1 Hle HeL).
    pose proof (clip_split (start_time s) (end_time s) (Curve.length (s2 :: rest'))
                  t2 Hle HeL).
    change (area (s :: s2 :: rest') t1 t2)
      with (piece s t1 t2 + area (s2 :: rest') t1 t2).
    replace (clip (start_time s) (Curve.length (s2 :: rest')) t2
             - clip (start_time s) (Curve.length (s2 :: rest')) t1)
      with ((clip (start_time s) (end_time s) t2
             - clip (start_time s) (end_time s) t1)
            + (clip (end_time s) (Curve.length (s2 :: rest')) t2
               - clip (end_time s) (Curve.length (s2 :: rest')) t1))
      by lra.
    rewrite !Rmult_plus_distr_l. lra.
Qed.

Lemma first_level_bounds c m M :
  c <> [] -> levels_at_least m c -> levels_at_most M c ->
  m <= first_level c <= M.
Proof.
  intros Hne Hm HM. destruct c as [ | s rest]; [now contradiction Hne | ].
  inversion Hm as [ | ? ? [Hm1 _] _]; inversion HM as [ | ? ? [HM1 _] _]; subst.
  simpl. lra.
Qed.

Lemma last_level_bounds c m M :
  c <> [] -> levels_at_least m c -> levels_at_most M c ->
  m <= last_level c <= M.
Proof.
  intros Hne Hm HM. unfold last_level.
  destruct (last_segment_some c Hne) as [l Hl]. rewrite Hl.
  pose proof (last_segment_in _ _ Hl) as Hin.
  unfold levels_at_least, levels_at_most in *. rewrite Forall_forall in Hm, HM.
  specialize (Hm l Hin). specialize (HM l Hin). lra.
Qed.

(** The integral over [t1 <= t2] of a curve whose levels lie between [m]
    and [M] lies between [m * (t2 - t1)] and [M * (t2 - t1)]. *)
Lemma total_level_bounds c m M t1 t2 :
  valid c -> levels_at_least m c -> levels_at_most M c -> t1 <= t2 ->
  m * (t2 - t1) <= total c t1 t2 <= M * (t2 - t1).
Proof.
  intros Hv Hm HM H12. pose proof (valid_length_nonneg c Hv) as HL.
  destruct (proj1 (valid_chain c) Hv) as [Hne Hch].
  pose proof (area_level_bounds 0 c m M t1 t2 Hch Hne Hm HM H12) as Ha.
  pose proof (first_level_bounds c m M Hne Hm HM) as Hf.
  pose proof (last_level_bounds c m M Hne Hm HM) as Hl.
  unfold total.
  set (L := Curve.length c) in *.
  set (p1 := Rmin t2 0 - Rmin t1 0).
  set (p2 := clip 0 L t2 - clip 0 L t1) in *.
  set (p3 := Rmax t2 L - Rmax t1 L).
  assert (Hp1 : 0 <= p1)
    by (unfold p1, Rmin; repeat destruct (Rle_dec _ _); lra).
  assert (Hp3 : 0 <= p3)
    by (unfold p3, Rmax; repeat destruct (Rle_dec _ _); lra).
  assert (Hsum : p1 + p2 + p3 = t2 - t1).
  { unfold p1, p2, p3, clip, Rmin, Rmax.
    destruct (Rle_dec t1 0); destruct (Rle_dec t2 0);
      destruct (Rle_dec t1 L); destruct (Rle_dec t2 L);
      repeat destruct (Rle_dec _ _); lra. }
  assert (m * p1 <= first_level c * p1 <= M * p1)
    by (split; apply Rmult_le_compat_r; lra).
  assert (m * p3 <= last_level c * p3 <= M * p3)
    by (split; apply Rmult_le_compat_r; lra).
  replace (t2 - t1) with (p1 + p2 + p3) by assumption.
  clearbody p1 p2 p3. rewrite !Rmult_plus_distr_l. lra.
Qed.

Lemma integrate_interval_ok c t1 t2 :
  valid c -> Curve.integrate_interval c t1 t2 = Ok (total c t1 t2).
Proof. intros Hv. now apply integrate_interval_total. Qed.

(** X11.  The integral of a curve over [t1 <= t2], the bounds anywhere
    on the time axis, is a number between [m * (t2 - t1)] and
    [M * (t2 - t1)] when every level of the curve lies between [m] and
    [M]. *)
Theorem integral_between_level_bounds (c : Curve.t) (m M t1 t2 : R) :
  valid c -> levels_at_least m c -> levels_at_most M c -> t1 <= t2 ->
  exists v,
    Curve.integrate_interval c t1 t2 = Ok v
    /\ m * (t2 - t1) <= v <= M * (t2 - t1).
Proof.
  intros Hv Hm HM H12. exists (total c t1 t2). split.
  - now apply integrate_interval_ok.
  - now apply total_level_bounds.
Qed.

Lemma two_ramps_levels : levels_at_least 1 two_ramps /\ levels_at_most 3 two_ramps.
Proof.
  split; repeat constructor; simpl; lra.
Qed.

Lemma integral_between_level_bounds_witness :
  exists v,
    Curve.integrate_interval two_ramps (- 1) 3 = Ok v
    /\ 1 * (3 - - 1) <= v <= 3 * (3 - - 1).
Proof.
  apply (integral_between_level_bounds two_ramps 1 3 (- 1) 3 two_ramps_valid
           (proj1 two_ramps_levels) (proj2 two_ramps_levels)).
  lra.
Defined.

(** X12.  On a valid curve [integrate_interval] returns a number for
    all bounds; exchanging the bounds negates it; bounds that are both
    after the end integrate the end level, bounds that are both before
    time 0 the start level. *)
Theorem integral_reversal_and_extension (c : Curve.t) :
  valid c ->
  (forall t1 t2, exists v,
     Curve.integrate_interval c t1 t2 = Ok v
     /\ Curve.integrate_interval c t2 t1 = Ok (- v))
  /\ (forall t1 t2, Curve.length c <= t1 -> Curve.length c <= t2 ->
      exists e, Curve.end_level c = Ok e
        /\ Curve.integrate_interval c t1 t2 = Ok (e * (t2 - t1)))
  /\ (forall t1 t2, t1 <= 0 -> t2 <= 0 ->
      exists b, Curve.start_level c = Ok b
        /\ Curve.integrate_interval c t1 t2 = Ok (b * (t2 - t1))).
Proof.
  intros Hv. repeat split.
  - intros t1 t2. exists (total c t1 t2).
    rewrite (integrate_interval_ok c t1 t2 Hv), (integrate_interval_ok c t2 t1 Hv).
    split; [reflexivity | now rewrite (total_swap c t1 t2)].
  - intros t1 t2 H1 H2. exists (last_level c).
    rewrite integrate_interval_ok, end_level_last by assumption.
    now rewrite total_beyond.
  - intros t1 t2 H1 H2. exists (first_level c).
    rewrite integrate_interval_ok by assumption.
    rewrite total_negative by assumption.
    destruct c as [ | s rest]; [ | now split].
    destruct Hv as [_ [Hne _]]. now contradiction Hne.
Qed.

Lemma integral_reversal_and_extension_witness :
  exists e, Curve.end_level two_ramps = Ok e
    /\ Curve.integrate_interval two_ramps 2 5 = Ok (e * (5 - 2)).
Proof.
  destruct (integral_reversal_and_extension two_ramps two_ramps_valid)
    as (_ & Hafter & _).
  apply Hafter; unfold two_ramps, Curve.length; simpl; lra.
Defined.

(** X13.  [average_level] of a curve of length 0 raises
    [ZeroDivisionError]; on a curve of positive length it is a number
    between any two bounds of the levels of the curve. *)
Theorem curve_average_level (c : Curve.t) :
  valid c ->
  (Curve.length c = 0 -> CurveOps.average_level c = Raise ZeroDivisionError)
  /\ (0 < Curve.length c ->
      forall m M, levels_at_least m c -> levels_at_most M c ->
      exists a, CurveOps.average_level c = Ok a /\ m <= a <= M).
Proof.
  intros Hv. unfold CurveOps.average_level.
  rewrite integrate_interval_ok by assumption. cbn [bind]. split.
  - intros ->. apply div_zero.
  - intros HL m M Hm HM. rewrite div_ok by lra.
    eexists. split; [reflexivity | ].
    pose proof (total_level_bounds c m M 0 (Curve.length c) Hv Hm HM ltac:(lra))
      as [Hlo Hhi].
    set (L := Curve.length c) in *. set (v := total c 0 L) in *.
    assert (Hinv : 0 < / L) by now apply Rinv_0_lt_compat.
    clearbody L v. unfold Rdiv. split.
    + apply Rmult_le_reg_r with L; [lra | ].
      rewrite Rmult_assoc, Rinv_l by lra. lra.
    + apply Rmult_le_reg_r with L; [lra | ].
      rewrite Rmult_assoc, Rinv_l by lra. lra.
Qed.

Lemma curve_average_level_witness :
  exists a, CurveOps.average_level two_ramps = Ok a /\ 1 <= a <= 3.
Proof.
  destruct (curve_average_level two_ramps two_ramps_valid) as [_ Havg].
  apply Havg;
    [unfold two_ramps, Curve.length; simpl; lra
    | apply two_ramps_levels | apply two_ramps_levels].
Defined.

End CurveIntegralFacts.

(** ** What the search for an upper integration bound returns *)

Module BoundSearchFacts.

Import Segment Invariant Model Notions Examples InvariantFacts SegmentFacts
       CurveFacts MaxFacts IntegralFacts CurveIntegralFacts.

Lemma get_upper_integration_bound_step fuel c t1 desired_area max_error :
  Curve.get_upper_integration_bound (S fuel) c t1 desired_area max_error
  = if Rltb desired_area max_error then Ok t1
    else
      t1_level <- Curve.value_at c t1 ;;
      q <- div desired_area t1_level ;;
      area <- Curve.integrate_interval c t1 (q + t1) ;;
      if Rleb area desired_area then
        if Rltb (desired_area - area) max_error then Ok (q + t1)
        else
          Curve.get_upper_integration_bound fuel c (q + t1) (desired_area - area)
            max_error
      else
        m <- Curve.max_level c (Some (t1, q + t1)) ;;
        q' <- div t1_level m ;;
        a <- Curve.integrate_interval c t1 (q' * (q + t1 - t1) + t1) ;;
        Curve.get_upper_integration_bound fuel c (q' * (q + t1 - t1) + t1)
          (desired_area - a) max_error.
Proof. reflexivity. Qed.

Lemma upper_bound_error fuel c :
  valid c ->
  forall t1 desired_area max_error t2,
    Curve.get_upper_integration_bound fuel c t1 desired_area max_error = Ok t2 ->
    desired_area - total c t1 t2 < max_error.
Proof.
  intros Hv. induction fuel as [ | fuel IH]; intros t1 desired max_error t2 H.
  - discriminate.
  - rewrite get_upper_integration_bound_step in H.
    destruct (Rltb desired max_error) eqn:E.
    + injection H as <-. rewrite total_same. apply Rltb_true in E. lra.
    + destruct (Curve.value_at c t1) as [level | e | ]; try discriminate.
      cbn [bind] in H.
      destruct (div desired level) as [q | e | ]; try discriminate.
      cbn [bind] in H.
      rewrite (integrate_interval_ok c t1 (q + t1) Hv) in H. cbn [bind] in H.
      destruct (Rleb (total c t1 (q + t1)) desired).
      * destruct (Rltb (desired - total c t1 (q + t1)) max_error) eqn:E2.
        -- injection H as <-. now apply Rltb_true in E2.
        -- apply IH in H. rewrite (total_additive c t1 (q + t1) t2). lra.
      * destruct (Curve.max_level c (Some (t1, q + t1))) as [m | e | ];
          try discriminate.
        cbn [bind] in H.
        destruct (div level m) as [q' | e | ]; try discriminate.
        cbn [bind] in H.
        rewrite (integrate_interval_ok c t1 _ Hv) in H. cbn [bind] in H.
        apply IH in H.
        rewrite (total_additive c t1 (q' * (q + t1 - t1) + t1) t2). lra.
Qed.

Lemma constant_curve_value c k x :
  valid c -> levels_at_least k c -> levels_at_most k c ->
  Curve.value_at c x = Ok k.
Proof.
  intros Hv Hm HM.
  assert (Hall : forall s, In s c ->
            Segment.start_level s = k /\ Segment.end_level s = k).
  { intros s Hin. unfold levels_at_least, levels_at_most in *.
    rewrite Forall_forall in Hm, HM.
    specialize (Hm s Hin). specialize (HM s Hin). lra. }
  destruct (proj1 (valid_chain c) Hv) as [Hne Hch].
  destruct (curve_value_cases c x Hv) as [[_ ->] | [[_ ->] | (s & Hin & Hx & ->)]].
  - destruct c as [ | s rest]; [now contradiction Hne | ].
    simpl. f_equal. apply Hall. now left.
  - rewrite end_level_last by assumption. f_equal. unfold last_level.
    destruct (last_segment_some c Hne) as [l Hl]. rewrite Hl.
    apply Hall. now apply last_segment_in.
  - f_equal. destruct (Hall s Hin) as [Hs He]. unfold interpolate.
    rewrite Hs, He.
    destruct (Rltb (Rabs (curve_shape s)) shape_epsilon); unfold Rdiv; ring.
Qed.

Lemma constant_curve_total c k t1 t2 :
  valid c -> levels_at_least k c -> levels_at_most k c ->
  total c t1 t2 = k * (t2 - t1).
Proof.
  intros Hv Hm HM. destruct (Rle_dec t1 t2) as [H12 | H12].
  - pose proof (total_level_bounds c k k t1 t2 Hv Hm HM H12). lra.
  - pose proof (total_level_bounds c k k t2 t1 Hv Hm HM ltac:(lra)).
    rewrite (total_swap c t2 t1). lra.
Qed.

Lemma constant_curve_bound fuel c k t1 desired_area max_error :
  valid c -> levels_at_least k c -> levels_at_most k c ->
  k <> 0 -> 0 < max_error -> max_error <= desired_area ->
  Curve.get_upper_integration_bound (S fuel) c t1 desired_area max_error
  = Ok (desired_area / k + t1).
Proof.
  intros Hv Hm HM Hk He Hd. rewrite get_upper_integration_bound_step.
  replace (Rltb desired_area max_error) with false
    by (symmetry; now apply Rltb_false).
  rewrite (constant_curve_value c k t1 Hv Hm HM). cbn [bind].
  rewrite div_ok by assumption. cbn [bind].
  rewrite (integrate_interval_ok c _ _ Hv). cbn [bind].
  rewrite (constant_curve_total c k _ _ Hv Hm HM).
  replace (k * (desired_area / k + t1 - t1)) with desired_area
    by (field; assumption).
  replace (Rleb desired_area desired_area) with true
    by (symmetry; apply Rleb_true; lra).
  replace (Rltb (desired_area - desired_area) max_error) with true
    by (symmetry; apply Rltb_true; lra).
  reflexivity.
Qed.

(** X14.  Whatever [get_upper_integration_bound] returns on a valid
    curve leaves less than [max_error] of the desired area: the integral
    from [t1] to the returned time is a number [A] with
    [desired_area - A < max_error]. *)
Theorem upper_bound_within_error (fuel : nat) (c : Curve.t)
    (t1 desired_area max_error t2 : R) :
  valid c ->
  Curve.get_upper_integration_bound fuel c t1 desired_area max_error = Ok t2 ->
  exists A,
    Curve.integrate_interval c t1 t2 = Ok A /\ desired_area - A < max_error.
Proof.
  intros Hv H. exists (total c t1 t2). split.
  - now apply integrate_interval_ok.
  - now apply (upper_bound_error fuel c Hv).
Qed.

Lemma flat_curve_valid : valid [level_two].
Proof.
  apply valid_chain. split; [discriminate | ]. simpl. repeat split; lra.
Qed.

Lemma flat_curve_levels :
  levels_at_least 2 [level_two] /\ levels_at_most 2 [level_two].
Proof. split; repeat constructor; simpl; lra. Qed.

Lemma upper_bound_within_error_witness :
  exists A,
    Curve.integrate_interval [level_two] (1 / 4) (1 / 2 + 1 / 4) = Ok A
    /\ 1 - A < 1 / 1000.
Proof.
  apply (upper_bound_within_error 1 [level_two] (1 / 4) 1 (1 / 1000)
           (1 / 2 + 1 / 4) flat_curve_valid).
  rewrite (constant_curve_bound 0 [level_two] 2 (1 / 4) 1 (1 / 1000)
             flat_curve_valid (proj1 flat_curve_levels) (proj2 flat_curve_levels))
    by lra.
  reflexivity.
Defined.

(** X15.  On a valid curve that stays at one positive level [k], a
    search for an area of at least [max_error > 0] returns
    [desired_area / k + t1]. *)
Theorem upper_bound_on_constant_curve (fuel : nat) (c : Curve.t)
    (k t1 desired_area max_error : R) :
  valid c -> levels_at_least k c -> levels_at_most k c ->
  0 < k -> 0 < max_error -> max_error <= desired_area ->
  Curve.get_upper_integration_bound (S fuel) c t1 desired_area max_error
  = Ok (desired_area / k + t1).
Proof.
  intros Hv Hm HM Hk He Hd. apply constant_curve_bound; try assumption. lra.
Qed.

Lemma upper_bound_on_constant_curve_witness :
  Curve.get_upper_integration_bound 1 [level_two] 3 1 (1 / 1000)
  = Ok (1 / 2 + 3).
Proof.
  apply (upper_bound_on_constant_curve 0 [level_two] 2 3 1 (1 / 1000)
           flat_curve_valid (proj1 flat_curve_levels) (proj2 flat_curve_levels));
    lra.
Defined.

End BoundSearchFacts.

(** ** The maximum level of the whole curve *)

Module WholeMaxFacts.

Import Segment Invariant Model Notions Examples InvariantFacts SegmentFacts
       CurveFacts MaxFacts IntegralFacts.

(** X16.  [max_level()] with no range is a number on a valid curve: it
    is one of the end levels of the segments, and no value of the curve,
    at any time, is above it. *)
Theorem max_level_bounds_every_value (c : Curve.t) :
  valid c ->
  exists M,
    Curve.max_level c None = Ok M
    /\ (exists s, In s c
          /\ (M = Segment.start_level s \/ M = Segment.end_level s))
    /\ forall x, exists v, Curve.value_at c x = Ok v /\ v <= M.
Proof.
  intros Hv. destruct (proj1 (valid_chain c) Hv) as [Hne Hch].
  cbn [Curve.max_level].
  destruct (Curve.max_of (map Segment.max_level c)) as [M | e | ] eqn:HM;
    try (destruct c; [now contradiction Hne | discriminate]).
  exists M. split; [reflexivity | ].
  assert (Hupper : forall s, In s c ->
            Segment.start_level s <= M /\ Segment.end_level s <= M).
  { intros s Hin.
    assert (Segment.max_level s <= M)
      by (apply (max_of_upper _ _ _ HM); now apply in_map).
    unfold Segment.max_level in *.
    pose proof (Rmax_l (Segment.start_level s) (Segment.end_level s)).
    pose proof (Rmax_r (Segment.start_level s) (Segment.end_level s)). lra. }
  split.
  - apply max_of_in in HM. apply in_map_iff in HM as (s & Hs & Hin).
    exists s. split; [assumption | ]. unfold Segment.max_level, Rmax in Hs.
    destruct (Rle_dec _ _); [now right | now left].
  - intros x.
    destruct (curve_value_cases c x Hv) as [[_ ->] | [[_ ->] | (s & Hin & Hx & ->)]].
    + destruct c as [ | s rest]; [now contradiction Hne | ].
      eexists. split; [reflexivity | ]. apply Hupper. now left.
    + rewrite end_level_last by assumption. eexists. split; [reflexivity | ].
      unfold last_level. destruct (last_segment_some c Hne) as [l Hl]. rewrite Hl.
      apply Hupper. now apply last_segment_in.
    + eexists. split; [reflexivity | ].
      pose proof (interpolate_bounds s (normalize s x)
                    (normalize_bounds s x ltac:(lra) ltac:(lra))) as [_ Hhi].
      destruct (Hupper s Hin).
      apply Rle_trans with (1 := Hhi). now apply Rmax_lub.
Qed.

Lemma max_level_bounds_every_value_witness :
  exists M,
    Curve.max_level two_ramps None = Ok M
    /\ (exists s, In s two_ramps
          /\ (M = Segment.start_level s \/ M = Segment.end_level s))
    /\ forall x, exists v, Curve.value_at two_ramps x = Ok v /\ v <= M.
Proof. exact (max_level_bounds_every_value two_ramps two_ramps_valid). Defined.

End WholeMaxFacts.

(** ** Construction from levels and durations *)

Module ConstructionFacts.

Import Segment Invariant Model Notions Examples InvariantFacts SegmentFacts
       CurveFacts MaxFacts SerializationFacts.

Lemma construct_ok durations :
  forall t0 levels shapes,
    List.length levels = S (List.length durations) ->
    List.length shapes = List.length durations ->
    Forall (fun d => 0 <= d) durations ->
    exists c,
      Curve.construct_segments_list t0 levels durations shapes = Ok c
      /\ chain t0 c
      /\ level_continuous c
      /\ List.length c = List.length durations
      /\ map Segment.start_level c ++ [last levels 0] = levels
      /\ (c <> [] -> Curve.end_level c = Ok (last levels 0))
      /\ Curve.durations c = durations
      /\ Curve.curve_shapes c = shapes
      /\ (c <> [] -> Curve.length c = t0 + fold_right Rplus 0 durations).
Proof.
  induction durations as [ | d ds IH]; intros t0 levels shapes Hl Hs Hd.
  - destruct levels as [ | l0 [ | l1 ls]]; try discriminate.
    destruct shapes; try discriminate.
    exists []. simpl. repeat split; try reflexivity; intros H; now contradiction H.
  - destruct levels as [ | l0 [ | l1 ls]]; try discriminate.
    destruct shapes as [ | sh shs]; try discriminate.
    inversion Hd as [ | ? ? Hd0 Hds]; subst.
    destruct (IH (t0 + d) (l1 :: ls) shs) as
        (tail & Hc & Hch & Hcont & Hlen & Hlev & Hend & Hdur & Hshp & Hlength);
      [simpl in *; lia | simpl in *; lia | assumption | ].
    rewrite construct_step, Hc. cbn [bind].
    exists (mk t0 (t0 + d) l0 l1 sh :: tail).
    assert (Hlast : last (l0 :: l1 :: ls) 0 = last (l1 :: ls) 0) by reflexivity.
    split; [reflexivity | ].
    split; [cbn [chain]; simpl; repeat split; [lra | assumption] | ].
    split.
    { destruct tail as [ | s2 tail']; [exact I | ].
      split; [ | assumption]. simpl in Hlev. injection Hlev as Hs2 _.
      simpl. now rewrite Hs2. }
    split; [simpl; now rewrite Hlen | ].
    split.
    { rewrite Hlast.
      change (l0 :: (map Segment.start_level tail ++ [last (l1 :: ls) 0])
              = l0 :: l1 :: ls).
      now rewrite Hlev. }
    split.
    { intros _. destruct tail as [ | s2 tail'].
      - destruct ds; [ | discriminate].
        destruct ls; [reflexivity | discriminate]. 
      - rewrite end_level_cons by discriminate. rewrite Hlast.
        apply Hend. discriminate. }
    split.
    { unfold Curve.durations in *. cbn [map]. rewrite Hdur. f_equal.
      unfold Segment.duration. simpl. ring. }
    split; [unfold Curve.curve_shapes in *; cbn [map]; now rewrite Hshp | ].
    intros _. destruct tail as [ | s2 tail'].
    + destruct ds; [ | discriminate]. unfold Curve.length. simpl. ring.
    + rewrite length_cons by discriminate. rewrite Hlength by discriminate.
      simpl. ring.
Qed.

Lemma sum_repeat (d : R) (n : nat) : fold_right Rplus 0 (repeat d n) = INR n * d.
Proof.
  induction n as [ | n IH]; [simpl; ring | ].
  rewrite S_INR. cbn [repeat fold_right]. rewrite IH. ring.
Qed.

Lemma Forall_repeat_nonneg (d : R) (n : nat) :
  0 <= d -> Forall (fun x => 0 <= x) (repeat d n).
Proof. intros H. induction n; simpl; constructor; assumption. Qed.

Lemma initialize_ok (l0 l1 : R) (ls durations : list R)
    (curve_shapes : option (list R)) :
  List.length durations = S (List.length ls) ->
  Forall (fun d => 0 <= d) durations ->
  match curve_shapes with
  | Some shapes => List.length shapes = List.length durations
  | None => True
  end ->
  exists c,
    Curve.initialize (l0 :: l1 :: ls) durations curve_shapes = Ok c
    /\ valid c /\ level_continuous c
    /\ Curve.levels c = Ok (l0 :: l1 :: ls)
    /\ Curve.durations c = durations
    /\ Curve.curve_shapes c
       = match curve_shapes with
         | Some shapes => shapes
         | None => repeat 0 (List.length durations)
         end
    /\ Curve.length c = fold_right Rplus 0 durations.
Proof.
  intros Hlen Hd Hshapes. unfold Curve.initialize.
  replace (List.length durations =? List.length (l0 :: l1 :: ls) - 1)%nat
    with true by (symmetry; apply Nat.eqb_eq; simpl; lia).
  set (shapes := match curve_shapes with
                 | Some shapes => shapes
                 | None => repeat 0 (List.length (l0 :: l1 :: ls) - 1)
                 end).
  assert (Hs : List.length shapes = List.length durations).
  { unfold shapes. destruct curve_shapes; [assumption | ].
    rewrite repeat_length. simpl. lia. }
  destruct (construct_ok durations 0 (l0 :: l1 :: ls) shapes
              ltac:(simpl; lia) Hs Hd)
    as (c & Hc & Hch & Hcont & Hn & Hlev & Hend & Hdur & Hshp & Hlength).
  assert (Hne : c <> []) by (destruct c; [simpl in Hn; lia | discriminate]).
  exists c. split.
  { destruct curve_shapes; exact Hc. }
  split; [apply valid_chain; now split | ].
  split; [assumption | ].
  split; [unfold Curve.levels; rewrite (Hend Hne); cbn [bind]; now rewrite Hlev | ].
  split; [assumption | ].
  split.
  { rewrite Hshp. unfold shapes. destruct curve_shapes; [reflexivity | ].
    f_equal. simpl. lia. }
  rewrite (Hlength Hne). ring.
Qed.

(** X17.  [from_levels_and_durations] on at least two levels, with one
    non-negative duration for each pair of adjacent levels and, if
    shapes are given, as many shapes, builds a valid curve without jumps
    whose [levels], [durations] and [curve_shapes] are the arguments
    and whose length is the sum of the durations.  With no level, or
    with another number of durations, it raises [AssertionError]. *)
Theorem construction_gives_back_the_views (l0 l1 : R) (ls durations : list R)
    (curve_shapes : option (list R)) :
  let levels := l0 :: l1 :: ls in
  (List.length durations = S (List.length ls) ->
   Forall (fun d => 0 <= d) durations ->
   match curve_shapes with
   | Some shapes => List.length shapes = List.length durations
   | None => True
   end ->
   exists c,
     Curve.from_levels_and_durations levels durations curve_shapes = Ok c
     /\ valid c /\ level_continuous c
     /\ Curve.levels c = Ok levels
     /\ Curve.durations c = durations
     /\ Curve.curve_shapes c
        = match curve_shapes with
          | Some shapes => shapes
          | None => repeat 0 (List.length durations)
          end
     /\ Curve.length c = fold_right Rplus 0 durations)
  /\ (List.length durations <> S (List.length ls) ->
      Curve.from_levels_and_durations levels durations curve_shapes
      = Raise AssertionError)
  /\ Curve.from_levels_and_durations [] durations curve_shapes
     = Raise AssertionError.
Proof.
  intros levels. split; [ | split; [ | reflexivity]].
  - intros Hlen Hd Hshapes. now apply initialize_ok.
  - intros Hlen.
    unfold Curve.from_levels_and_durations, Curve.initialize, levels.
    replace (List.length durations =? List.length (l0 :: l1 :: ls) - 1)%nat
      with false by (symmetry; apply Nat.eqb_neq; simpl; lia).
    reflexivity.
Qed.

Lemma construction_gives_back_the_views_witness :
  exists c,
    Curve.from_levels_and_durations [1; 3; 2] [1; 1] None = Ok c
    /\ valid c /\ level_continuous c
    /\ Curve.levels c = Ok [1; 3; 2]
    /\ Curve.durations c = [1; 1]
    /\ Curve.curve_shapes c = repeat 0 2
    /\ Curve.length c = fold_right Rplus 0 [1; 1].
Proof.
  apply (proj1 (construction_gives_back_the_views 1 3 [2] [1; 1] None));
    [reflexivity | repeat constructor; lra | exact I].
Defined.

(** X18.  [from_levels] on at least two levels and a non-negative length
    builds a valid curve without jumps that has these levels, linear
    segments of equal duration, and the given length; with no level it
    raises [AssertionError]. *)
Theorem from_levels_divides_the_length (l0 l1 : R) (ls : list R) (length : R) :
  let levels := l0 :: l1 :: ls in
  let n := S (List.length ls) in
  (0 <= length ->
   exists c,
     Curve.from_levels levels length = Ok c
     /\ valid c /\ level_continuous c
     /\ Curve.levels c = Ok levels
     /\ Curve.durations c = repeat (length / INR n) n
     /\ Curve.curve_shapes c = repeat 0 n
     /\ Curve.length c = length)
  /\ Curve.from_levels [] length = Raise AssertionError.
Proof.
  intros levels n. split; [ | reflexivity].
  intros HL. unfold Curve.from_levels, levels.
  change (List.length (l0 :: l1 :: ls) - 1)%nat with n.
  assert (Hn : INR n <> 0) by (unfold n; rewrite S_INR; pose proof (pos_INR (List.length ls)); lra).
  rewrite div_ok by assumption. cbn [bind].
  assert (Hd : 0 <= length / INR n).
  { unfold Rdiv. apply Rmult_le_pos; [assumption | ].
    left. apply Rinv_0_lt_compat. unfold n. rewrite S_INR.
    pose proof (pos_INR (List.length ls)). lra. }
  destruct (initialize_ok l0 l1 ls (repeat (length / INR n) n)
              (Some (repeat 0 n)))
    as (c & Hc & Hv & Hcont & Hlev & Hdur & Hshp & Hlength).
  - now rewrite repeat_length.
  - now apply Forall_repeat_nonneg.
  - now rewrite !repeat_length.
  - exists c. split; [exact Hc | ]. split; [exact Hv | ].
    split; [exact Hcont | ]. split; [exact Hlev | ]. split; [exact Hdur | ].
    split; [exact Hshp | ].
    rewrite Hlength, sum_repeat. field. assumption.
Qed.

Lemma from_levels_divides_the_length_witness :
  exists c,
    Curve.from_levels [1; 3; 2] 4 = Ok c
    /\ valid c /\ level_continuous c
    /\ Curve.levels c = Ok [1; 3; 2]
    /\ Curve.durations c = repeat (4 / INR 2) 2
    /\ Curve.curve_shapes c = repeat 0 2
    /\ Curve.length c = 4.
Proof.
  apply (proj1 (from_levels_divides_the_length 1 3 [2] 4)). lra.
Defined.

End ConstructionFacts.

(** ** What [append_segment] and [insert] do to the curve *)

Module AppendFacts.

Import Segment Invariant Model Notions Examples InvariantFacts SegmentFacts
       CurveFacts MutationFacts MaxFacts.

Lemma update_last_app f init l :
  Curve.update_last f (init ++ [l]) = init ++ [f l].
Proof.
  induction init as [ | s init IH]; [reflexivity | ].
  change ((s :: init) ++ [l]) with (s :: (init ++ [l])).
  destruct (init ++ [l]) as [ | s2 rest] eqn:E; [now destruct init | ].
  change (s :: Curve.update_last f (s2 :: rest) = (s :: init) ++ [f l]).
  now rewrite IH.
Qed.

Lemma split_last (c : Curve.t) : c <> [] -> exists init l, c = init ++ [l].
Proof.
  intros H. destruct (exists_last H) as (init & l & ->). now exists init, l.
Qed.

Lemma length_app_last init l : Curve.length (init ++ [l]) = end_time l.
Proof. unfold Curve.length. now rewrite last_segment_app. Qed.

Lemma end_level_app_last init l :
  Curve.end_level (init ++ [l]) = Ok (Segment.end_level l).
Proof. unfold Curve.end_level. now rewrite last_segment_app. Qed.

Lemma start_level_app init (l l' : Segment.t) :
  Segment.start_level l' = Segment.start_level l ->
  Curve.start_level (init ++ [l']) = Curve.start_level (init ++ [l]).
Proof. intros H. destruct init; simpl; [now rewrite H | reflexivity]. Qed.

Lemma linear_shape_zero s u :
  curve_shape s = 0 ->
  interpolate s u
  = Segment.start_level s + u * (Segment.end_level s - Segment.start_level s).
Proof.
  intros HS. unfold interpolate. rewrite HS.
  replace (Rltb (Rabs 0) shape_epsilon) with true; [reflexivity | ].
  symmetry. apply Rltb_true. rewrite Rabs_R0. apply shape_epsilon_pos.
Qed.

(** The two things [append_segment] can do: add a segment, or stretch
    the last one, which is then zero-length or linear and headed for the
    new level. *)
Lemma append_segment_shape init l level d shape tol :
  start_time l <= end_time l ->
  snd (Curve.append_segment (init ++ [l]) level d shape tol) = Ok tt
  /\ (fst (Curve.append_segment (init ++ [l]) level d shape tol)
      = init ++ [l; mk (end_time l) (end_time l + d) (Segment.end_level l) level
                       shape]
      \/ exists e' sh',
           fst (Curve.append_segment (init ++ [l]) level d shape tol)
           = init ++ [mk (start_time l) e' (Segment.start_level l) level sh']
           /\ e' = end_time l + d
           /\ (start_time l = end_time l
               \/ (start_time l < end_time l /\ curve_shape l = 0 /\ sh' = 0
                   /\ Rabs (Segment.start_level l
                            + (end_time l + d - start_time l)
                              / (end_time l - start_time l)
                              * (Segment.end_level l - Segment.start_level l)
                            - level) <= tol))).
Proof.
  intros Hwf. unfold Curve.append_segment.
  rewrite last_segment_app, !update_last_app, length_app_last.
  replace ((init ++ [l])
           ++ [mk (end_time l) (end_time l + d) (Segment.end_level l) level shape])
    with (init ++ [l; mk (end_time l) (end_time l + d) (Segment.end_level l) level
                         shape])
    by (now rewrite <- app_assoc).
  destruct (Reqb (duration l) 0) eqn:Edur.
  - apply Reqb_true in Edur. unfold duration in Edur.
    destruct (Reqb d 0) eqn:Ed.
    + apply Reqb_true in Ed. split; [reflexivity | ]. right.
      exists (end_time l), (curve_shape l). cbn [fst].
      repeat split; [lra | left; lra].
    + destruct (negb (Reqb (Segment.end_level l) (Segment.start_level l))).
      * split; [reflexivity | now left].
      * split; [reflexivity | ]. right. exists (end_time l + d), shape.
        cbn [fst]. repeat split. left. lra.
  - apply Reqb_false in Edur. unfold duration in Edur.
    destruct (Reqb (curve_shape l) 0 && Reqb shape 0) eqn:Elin.
    + apply andb_prop in Elin as [E1 E2]. apply Reqb_true in E1.
      rewrite value_at_unclipped by lra. cbn [bind].
      destruct (Rleb _ tol) eqn:Etol.
      * apply Rleb_true in Etol. split; [reflexivity | ]. right.
        exists (end_time l + d), (curve_shape l). cbn [fst].
        repeat split. right. repeat split; [lra | assumption | assumption | ].
        rewrite linear_shape_zero in Etol by assumption. exact Etol.
      * split; [reflexivity | now left].
    + split; [reflexivity | now left].
Qed.

Lemma append_segment_end c level d shape tol :
  valid c ->
  Curve.length (fst (Curve.append_segment c level d shape tol))
  = Curve.length c + d
  /\ Curve.end_level (fst (Curve.append_segment c level d shape tol)) = Ok level
  /\ Curve.start_level (fst (Curve.append_segment c level d shape tol))
     = Curve.start_level c.
Proof.
  intros Hv. destruct (proj1 (valid_chain c) Hv) as [Hne Hch].
  destruct (split_last c Hne) as (init & l & ->).
  destruct (chain_last _ _ l Hch (last_segment_app init l)) as [_ Hwf].
  destruct (append_segment_shape init l level d shape tol Hwf)
    as (_ & [-> | (e' & sh' & -> & -> & _)]).
  - change (init ++ [l; mk (end_time l) (end_time l + d) (Segment.end_level l)
                         level shape])
      with (init ++ [l] ++ [mk (end_time l) (end_time l + d) (Segment.end_level l)
                               level shape]).
    rewrite app_assoc, !length_app_last, end_level_app_last.
    repeat split. rewrite <- app_assoc. destruct init; reflexivity.
  - rewrite !length_app_last, end_level_app_last. repeat split.
    now apply start_level_app.
Qed.

Lemma located_before_end c x :
  valid c -> 0 <= x -> x < Curve.length c ->
  exists s, In s c /\ start_time s <= x < end_time s.
Proof.
  intros Hv H0 HL. destruct (proj1 (valid_chain c) Hv) as [Hne Hch].
  destruct (forward_locate 0 c x Hch H0) as [Hs | Hall]; [assumption | ].
  destruct (last_segment_some c Hne) as [l Hl].
  rewrite Forall_forall in Hall. specialize (Hall l (last_segment_in _ _ Hl)).
  unfold Curve.length in HL. rewrite Hl in HL. lra.
Qed.

Lemma append_segment_values c level d shape tol x :
  valid c -> 0 <= d -> tol <= 0 -> x < Curve.length c ->
  Curve.value_at (fst (Curve.append_segment c level d shape tol)) x
  = Curve.value_at c x.
Proof.
  intros Hv Hd Htol Hx.
  destruct (append_segment_ok c level d shape tol Hv) as (_ & _ & Hv').
  specialize (Hv' Hd).
  destruct (append_segment_end c level d shape tol Hv) as (_ & _ & Hstart).
  destruct (Rlt_dec x 0) as [Hneg | Hpos].
  { now rewrite !value_at_negative by assumption. }
  destruct (located_before_end c x Hv ltac:(lra) Hx) as (s & Hin & Hsx).
  rewrite (located_value c s x Hv Hin Hsx).
  destruct (proj1 (valid_chain c) Hv) as [Hne Hch].
  destruct (split_last c Hne) as (init & l & ->).
  destruct (chain_last _ _ l Hch (last_segment_app init l)) as [_ Hwf].
  destruct (append_segment_shape init l level d shape tol Hwf)
    as (_ & [Hshape | (e' & sh' & Hshape & -> & Hcase)]);
    rewrite Hshape in *.
  - apply located_value; try assumption.
    apply in_app_or in Hin as [Hin | [<- | []]]; apply in_or_app;
      [now left | right; now left].
  - apply in_app_or in Hin as [Hin | [<- | []]].
    + apply located_value; try assumption. apply in_or_app. now left.
    + destruct Hcase as [Hzero | (Hlt & HS & -> & Habs)]; [lra | ].
      set (l' := mk (start_time l) (end_time l + d) (Segment.start_level l) level 0)
        in *.
      rewrite (located_value (init ++ [l']) l' x Hv'
                 ltac:(apply in_or_app; right; now left)
                 ltac:(unfold l'; simpl; lra)).
      f_equal. rewrite (linear_shape_zero l) by assumption.
      rewrite (linear_shape_zero l') by reflexivity.
      assert (Hlevel : level
                = Segment.start_level l
                  + (end_time l + d - start_time l) / (end_time l - start_time l)
                    * (Segment.end_level l - Segment.start_level l)).
      { pose proof (Rabs_pos (Segment.start_level l
                        + (end_time l + d - start_time l)
                          / (end_time l - start_time l)
                          * (Segment.end_level l - Segment.start_level l)
                        - level)) as Hp.
        assert (H0 : Rabs (Segment.start_level l
                        + (end_time l + d - start_time l)
                          / (end_time l - start_time l)
                          * (Segment.end_level l - Segment.start_level l)
                        - level) = 0) by lra.
        destruct (Req_dec_T (Segment.start_level l
                        + (end_time l + d - start_time l)
                          / (end_time l - start_time l)
                          * (Segment.end_level l - Segment.start_level l)
                        - level) 0) as [Hz | Hnz]; [lra | ].
        apply Rabs_no_R0 in Hnz. contradiction. }
      unfold l', normalize. simpl. rewrite Hlevel. field. lra.
Qed.

(** X19.  [append_segment] on a valid curve returns without an error;
    it lengthens the curve by the duration, makes the level the end
    level and keeps the start level.  With a duration that is not
    negative and a tolerance that is not positive (0 is the default) the
    value at every time before the old end is what it was. *)
Theorem append_segment_extends (c : Curve.t) (level duration curve_shape tolerance : R) :
  valid c ->
  snd (Curve.append_segment c level duration curve_shape tolerance) = Ok tt
  /\ Curve.length (fst (Curve.append_segment c level duration curve_shape tolerance))
     = Curve.length c + duration
  /\ Curve.end_level (fst (Curve.append_segment c level duration curve_shape tolerance))
     = Ok level
  /\ Curve.start_level (fst (Curve.append_segment c level duration curve_shape tolerance))
     = Curve.start_level c
  /\ (0 <= duration -> tolerance <= 0 ->
      forall x, x < Curve.length c ->
        Curve.value_at (fst (Curve.append_segment c level duration curve_shape
                               tolerance)) x
        = Curve.value_at c x).
Proof.
  intros Hv.
  destruct (append_segment_ok c level duration curve_shape tolerance Hv) as (Hok & _).
  destruct (append_segment_end c level duration curve_shape tolerance Hv)
    as (Hlen & Hend & Hstart).
  repeat split; try assumption.
  intros Hd Htol x Hx. now apply append_segment_values.
Qed.

Lemma append_segment_extends_witness :
  Curve.length (fst (Curve.append_segment two_ramps 1 1 0 0))
  = Curve.length two_ramps + 1
  /\ Curve.end_level (fst (Curve.append_segment two_ramps 1 1 0 0)) = Ok 1.
Proof.
  destruct (append_segment_extends two_ramps 1 1 0 0 two_ramps_valid)
    as (_ & Hlen & Hend & _).
  now split.
Defined.

End AppendFacts.

Module InsertFacts.

Import Segment Invariant Model Notions Examples InvariantFacts SegmentFacts
       CurveFacts MutationFacts MaxFacts AppendFacts.

(** After the loop of [insert] no segment has [x] strictly inside, and
    every segment that starts or ends at [x] has the new level there. *)
Lemma insert_loop_points a x level s_in s_out c :
  chain a c ->
  Forall (fun s' => ~ (start_time s' < x < end_time s')
                    /\ (start_time s' = x -> Segment.start_level s' = level)
                    /\ (end_time s' = x -> Segment.end_level s' = level))
         (Curve.insert_loop x level s_in s_out c).
Proof.
  revert a. induction c as [ | s rest IH]; intros a Hch; [constructor | ].
  destruct Hch as (Hst & Hle & Hrest). cbn [Curve.insert_loop].
  destruct (Rltb (start_time s) x && Rltb x (end_time s)) eqn:E.
  - apply andb_prop in E as [E1 E2]. apply Rltb_true in E1, E2.
    constructor; [simpl; repeat split; try lra; reflexivity | ].
    constructor; [simpl; repeat split; try lra; reflexivity | ].
    pose proof (chain_starts_after _ _ Hrest) as Hafter.
    pose proof (chain_well_formed _ _ Hrest) as Hwf.
    rewrite Forall_forall in *. intros s' Hin.
    specialize (Hafter s' Hin). specialize (Hwf s' Hin). unfold well_formed in Hwf.
    repeat split; lra.
  - assert (Hout : ~ (start_time s < x < end_time s)).
    { intros [H1 H2]. apply (proj2 (Rltb_true _ _)) in H1, H2.
      rewrite H1, H2 in E. discriminate. }
    constructor; [ | now apply (IH (end_time s))].
    destruct (Reqb x (start_time s)) eqn:Es; destruct (Reqb x (end_time s)) eqn:Ee;
      repeat match goal with
             | H : Reqb _ _ = true |- _ => apply (proj1 (Reqb_true _ _)) in H
             | H : Reqb _ _ = false |- _ => apply (proj1 (Reqb_false _ _)) in H
             end;
      simpl; repeat split; try assumption; try reflexivity; intros; lra.
Qed.

Lemma insert_loop_length a x level s_in s_out c :
  chain a c -> c <> [] ->
  Curve.length (Curve.insert_loop x level s_in s_out c) = Curve.length c.
Proof.
  revert a. induction c as [ | s rest IH]; intros a Hch Hne;
    [now contradiction Hne | ].
  destruct Hch as (Hst & Hle & Hrest). cbn [Curve.insert_loop].
  destruct (Rltb (start_time s) x && Rltb x (end_time s)).
  - destruct rest as [ | s2 rest'].
    + reflexivity.
    + rewrite !length_cons by discriminate. reflexivity.
  - destruct rest as [ | s2 rest'].
    + cbn [Curve.insert_loop]. unfold Curve.length. cbn [Curve.last_segment].
      destruct (Reqb x (start_time s)); destruct (Reqb x (end_time s)); reflexivity.
    + assert (Hne' : s2 :: rest' <> []) by discriminate.
      rewrite (length_cons s) by assumption.
      rewrite length_cons
        by (now apply (chain_insert_loop (end_time s) x level s_in s_out _ Hrest)).
      now apply (IH (end_time s)).
Qed.

Lemma insert_loop_value c x level s_in s_out :
  valid c -> 0 <= x <= Curve.length c ->
  Curve.value_at (Curve.insert_loop x level s_in s_out c) x = Ok level.
Proof.
  intros Hv [H0 HL]. destruct (proj1 (valid_chain c) Hv) as [Hne Hch].
  set (c' := Curve.insert_loop x level s_in s_out c).
  assert (Hv' : valid c').
  { apply valid_chain. destruct (chain_insert_loop 0 x level s_in s_out c Hch).
    split; auto. }
  pose proof (insert_loop_points 0 x level s_in s_out c Hch) as Hpoints.
  fold c' in Hpoints. rewrite Forall_forall in Hpoints.
  pose proof (insert_loop_length 0 x level s_in s_out c Hch Hne) as Hlen.
  fold c' in Hlen.
  destruct (proj1 (valid_chain c') Hv') as [Hne' Hch'].
  destruct (curve_value_cases c' x Hv')
    as [[Hneg _] | [[Hafter ->] | (s & Hin & Hsx & ->)]]; [lra | | ].
  - destruct (last_segment_some c' Hne') as [l Hl].
    unfold Curve.end_level. rewrite Hl. f_equal.
    apply (Hpoints l (last_segment_in _ _ Hl)).
    unfold Curve.length in Hlen, Hafter, HL. rewrite Hl in *.
    destruct (Curve.last_segment c); lra.
  - destruct (Hpoints s Hin) as (Hnot & Hstart & _).
    assert (Hs : start_time s = x) by lra.
    f_equal. rewrite <- Hs at 1. rewrite normalize_start by lra.
    rewrite interpolate_0. now apply Hstart.
Qed.

(** X20.  After [insert(t, level, ...)] on a valid curve, [t >= 0], the
    curve is valid, its value at [t] is the level, and its length is the
    larger of the old length and [t].  A negative [t] raises
    [AssertionError] and leaves the curve as it was. *)
Theorem inserted_level_is_the_value (c : Curve.t)
    (t level curve_shape_in curve_shape_out : R) :
  valid c ->
  (0 <= t ->
   snd (Curve.insert c t level curve_shape_in curve_shape_out) = Ok tt
   /\ valid (fst (Curve.insert c t level curve_shape_in curve_shape_out))
   /\ Curve.value_at (fst (Curve.insert c t level curve_shape_in curve_shape_out)) t
      = Ok level
   /\ Curve.length (fst (Curve.insert c t level curve_shape_in curve_shape_out))
      = Rmax (Curve.length c) t)
  /\ (t < 0 ->
      Curve.insert c t level curve_shape_in curve_shape_out
      = (c, Raise AssertionError)).
Proof.
  intros Hv. split.
  - intros Ht.
    destruct (insert_ok c t level curve_shape_in curve_shape_out Hv Ht) as [Hok Hv'].
    split; [assumption | ]. split; [assumption | ].
    revert Hv'. unfold Curve.insert.
    replace (Rleb 0 t) with true by (symmetry; now apply Rleb_true).
    destruct (Rltb (Curve.length c) t) eqn:E.
    + apply Rltb_true in E. intros Hv'.
      destruct (append_segment_end c level (t - Curve.length c) curve_shape_in 0 Hv)
        as (Hlen & Hend & _).
      rewrite Rmax_right by lra. split.
      * rewrite value_at_beyond by (try assumption; lra). assumption.
      * rewrite Hlen. ring.
    + apply Rltb_false in E. intros _. cbn [fst].
      destruct (proj1 (valid_chain c) Hv) as [Hne Hch].
      rewrite Rmax_left by lra. split.
      * now apply insert_loop_value.
      * now apply (insert_loop_length 0).
  - intros Ht. unfold Curve.insert.
    replace (Rleb 0 t) with false by (symmetry; now apply Rleb_false).
    reflexivity.
Qed.

Lemma inserted_level_is_the_value_witness :
  Curve.value_at (fst (Curve.insert two_ramps (1 / 2) 7 0 0)) (1 / 2) = Ok 7
  /\ Curve.length (fst (Curve.insert two_ramps (1 / 2) 7 0 0))
     = Rmax (Curve.length two_ramps) (1 / 2).
Proof.
  destruct (inserted_level_is_the_value two_ramps (1 / 2) 7 0 0 two_ramps_valid)
    as [Hin _].
  destruct (Hin ltac:(lra)) as (_ & _ & Hval & Hlen).
  now split.
Defined.

End InsertFacts.

(** ** Shifting and scaling a curve *)

Module CurveArithmeticFacts.

Import Segment Invariant Model Notions Examples InvariantFacts SegmentFacts
       CurveFacts SegmentOpsFacts.

Lemma last_segment_map (f : Segment.t -> Segment.t) c :
  Curve.last_segment (map f c) = option_map f (Curve.last_segment c).
Proof.
  induction c as [ | s [ | s2 rest] IH]; try reflexivity.
  change (Curve.last_segment (map f (s2 :: rest))
          = option_map f (Curve.last_segment (s2 :: rest))).
  exact IH.
Qed.

(** A change of every segment that keeps the times and the shape and
    maps the levels by [v => a * v + k] does the same to every value
    of the curve. *)
Lemma value_at_map_affine (f : Segment.t -> Segment.t) (a k : R) c x :
  (forall s, start_time (f s) = start_time s) ->
  (forall s, end_time (f s) = end_time s) ->
  (forall s, curve_shape (f s) = curve_shape s) ->
  (forall s, Segment.start_level (f s) = a * Segment.start_level s + k) ->
  (forall s, Segment.end_level (f s) = a * Segment.end_level s + k) ->
  Curve.value_at (map f c) x = (v <- Curve.value_at c x ;; Ok (a * v + k)).
Proof.
  intros Hst Het HS Hsl Hel.
  assert (Hend : Curve.end_level (map f c)
                 = (v <- Curve.end_level c ;; Ok (a * v + k))).
  { unfold Curve.end_level. rewrite last_segment_map.
    destruct (Curve.last_segment c); simpl; [now rewrite Hel | reflexivity]. }
  unfold Curve.value_at. destruct (Rltb x 0).
  - destruct c as [ | s rest]; simpl; [reflexivity | now rewrite Hsl].
  - rewrite <- map_rev. generalize (rev c) as l.
    induction l as [ | s l IH]; [exact Hend | ].
    cbn [map Curve.value_at_scan].
    replace (contains (f s) x) with (contains s x)
      by (unfold contains; now rewrite Hst, Het).
    destruct (contains s x); [ | exact IH].
    now apply value_at_affine.
Qed.

Lemma traverse_ok {A B : Type} (f : A -> result B) (g : A -> B) (l : list A) :
  (forall a, f a = Ok (g a)) -> SegmentOps.traverse f l = Ok (map g l).
Proof.
  intros H. induction l as [ | a l IH]; [reflexivity | ].
  cbn [SegmentOps.traverse map]. now rewrite H, IH.
Qed.

(** X21.  Adding a number to a curve gives, segment for segment, the
    curve shifted by the number, subtracting it (from either side) the
    curve shifted the other way, and multiplying by it the curve with
    every level scaled; dividing by it multiplies by its inverse, and
    raises [ZeroDivisionError] for 0; a shifted curve has the value of
    the curve plus the number at every time, a scaled curve the value
    times the number. *)
Theorem curve_with_a_number (fuel : nat) (c : Curve.t) (k : R) :
  CurveOps.add fuel c (SegmentOps.Number k)
  = Ok (map Combine.OneSegment (CurveOps.shift_vertical c k))
  /\ CurveOps.sub fuel c (SegmentOps.Number k)
     = Ok (map Combine.OneSegment (CurveOps.shift_vertical c (- k)))
  /\ CurveOps.rsub fuel c (SegmentOps.Number k)
     = Ok (map Combine.OneSegment (CurveOps.shift_vertical c (- k)))
  /\ CurveOps.mul fuel c (SegmentOps.Number k)
     = Ok (map Combine.OneSegment
             (map (fun s => SegmentOps.scale_vertical s k) c))
  /\ (k <> 0 ->
      CurveOps.truediv fuel c (SegmentOps.Number k)
      = Ok (map Combine.OneSegment
              (map (fun s => SegmentOps.scale_vertical s (1 / k)) c)))
  /\ CurveOps.truediv fuel c (SegmentOps.Number 0) = Raise ZeroDivisionError
  /\ (forall x,
        Curve.value_at (CurveOps.shift_vertical c k) x
        = (v <- Curve.value_at c x ;; Ok (v + k)))
  /\ (forall x,
        Curve.value_at (map (fun s => SegmentOps.scale_vertical s k) c) x
        = (v <- Curve.value_at c x ;; Ok (v * k))).
Proof.
  assert (Hadd : forall k',
            CurveOps.add fuel c (SegmentOps.Number k')
            = Ok (map Combine.OneSegment (CurveOps.shift_vertical c k'))).
  { intros k'. unfold CurveOps.add, CurveOps.shift_vertical. rewrite map_map.
    apply traverse_ok. intros s. destruct s; reflexivity. }
  split; [apply Hadd | ].
  split; [unfold CurveOps.sub; cbn [SegmentOps.negate bind]; apply Hadd | ].
  split; [unfold CurveOps.rsub; cbn [SegmentOps.negate bind]; apply Hadd | ].
  assert (Hmul : forall k',
            CurveOps.mul fuel c (SegmentOps.Number k')
            = Ok (map Combine.OneSegment
                    (map (fun s => SegmentOps.scale_vertical s k') c))).
  { intros k'. unfold CurveOps.mul. rewrite map_map. apply traverse_ok.
    intros s. destruct s; reflexivity. }
  split; [apply Hmul | ].
  split.
  { intros Hk. unfold CurveOps.truediv, SegmentOps.reciprocal.
    rewrite div_ok by assumption. cbn [bind]. apply Hmul. }
  split.
  { unfold CurveOps.truediv, SegmentOps.reciprocal. now rewrite div_zero. }
  clear Hmul. split.
  { intros x. unfold CurveOps.shift_vertical.
    rewrite (value_at_map_affine _ 1 k) by (intros s; simpl; try reflexivity; ring).
    destruct (Curve.value_at c x); cbn [bind]; try reflexivity. f_equal. ring. }
  intros x.
  rewrite (value_at_map_affine _ k 0) by (intros s; simpl; try reflexivity; ring).
  destruct (Curve.value_at c x); cbn [bind]; try reflexivity. f_equal. ring.
Qed.

Lemma shifted_curve c other k :
  List.length c = List.length other ->
  level_continuous c -> level_continuous other ->
  CurveOps.is_shifted_version_of c other = true ->
  match c, other with
  | s :: _, o :: _ => Segment.start_level s - Segment.start_level o = k
  | _, _ => True
  end ->
  c = CurveOps.shift_vertical other k.
Proof.
  revert other k. induction c as [ | s rest IH]; intros other k Hlen Hc Ho Hsh Hk.
  - destruct other; [reflexivity | discriminate].
  - destruct other as [ | o orest]; [discriminate | ].
    unfold CurveOps.is_shifted_version_of in Hsh.
    cbn [combine forallb fst snd] in Hsh.
    apply andb_true_iff in Hsh as [Hseg Hrest].
    unfold SegmentOps.is_shifted_version_of in Hseg.
    apply andb_true_iff in Hseg as [Hseg HS].
    apply andb_true_iff in Hseg as [Hseg Hl].
    apply andb_true_iff in Hseg as [Hst Het].
    apply Reqb_true in HS, Hl, Hst, Het.
    unfold CurveOps.shift_vertical. cbn [map]. f_equal.
    + destruct s, o. unfold SegmentOps.shift_vertical. simpl in *. subst.
      f_equal; lra.
    + apply IH.
      * simpl in Hlen. lia.
      * destruct rest; [exact I | apply Hc].
      * destruct orest; [exact I | apply Ho].
      * exact Hrest.
      * destruct rest as [ | s2 rest']; [exact I | ].
        destruct orest as [ | o2 orest']; [exact I | ].
        destruct Hc as [Hc _]. destruct Ho as [Ho _]. lra.
Qed.

(** X22.  For two curves without jumps that have the same number of
    segments, [is_shifted_version_of] answers [True] only if one is the
    other shifted by one constant: the values at every time differ by
    that constant. *)
Theorem shifted_curves_differ_by_a_constant (c other : Curve.t) :
  List.length c = List.length other ->
  level_continuous c -> level_continuous other ->
  CurveOps.is_shifted_version_of c other = true ->
  exists k,
    c = CurveOps.shift_vertical other k
    /\ forall x,
         Curve.value_at c x = (v <- Curve.value_at other x ;; Ok (v + k)).
Proof.
  intros Hlen Hc Ho Hsh.
  set (k := match c, other with
            | s :: _, o :: _ => Segment.start_level s - Segment.start_level o
            | _, _ => 0
            end).
  assert (Heq : c = CurveOps.shift_vertical other k).
  { apply shifted_curve; try assumption.
    unfold k. destruct c; [exact I | ]. destruct other; [exact I | reflexivity]. }
  exists k. split; [assumption | ].
  intros x. rewrite Heq at 1. unfold CurveOps.shift_vertical.
  rewrite (value_at_map_affine _ 1 k) by (intros s; simpl; try reflexivity; ring).
  destruct (Curve.value_at other x); cbn [bind]; try reflexivity. f_equal. ring.
Qed.

Lemma shifted_curves_differ_by_a_constant_witness :
  exists k,
    CurveOps.shift_vertical two_ramps 5 = CurveOps.shift_vertical two_ramps k
    /\ forall x,
         Curve.value_at (CurveOps.shift_vertical two_ramps 5) x
         = (v <- Curve.value_at two_ramps x ;; Ok (v + k)).
Proof.
  apply (shifted_curves_differ_by_a_constant
           (CurveOps.shift_vertical two_ramps 5) two_ramps).
  - reflexivity.
  - simpl. split; [ring | exact I].
  - simpl. split; [reflexivity | exact I].
  - unfold CurveOps.is_shifted_version_of, SegmentOps.is_shifted_version_of.
    simpl. rewrite !andb_true_iff, !Reqb_true. repeat split; ring.
Defined.

End CurveArithmeticFacts.

(** ** Rescaling in time and the turning points *)

Module CurveUtilityFacts.

Import Segment Invariant Model Notions Examples InvariantFacts SegmentFacts
       CurveFacts MaxFacts CurveArithmeticFacts.

Lemma chain_scale a r c :
  0 <= r -> chain a c ->
  chain (a * r)
        (map (fun s => mk (start_time s * r) (end_time s * r)
                          (Segment.start_level s) (Segment.end_level s)
                          (curve_shape s)) c).
Proof.
  intros Hr. revert a. induction c as [ | s rest IH]; intros a Hch; [exact I | ].
  destruct Hch as (Hst & Hle & Hrest). cbn [map chain]. simpl.
  split; [now rewrite Hst | ]. split; [now apply Rmult_le_compat_r | ].
  now apply IH.
Qed.

Lemma normalize_to_duration_scaled c r :
  valid c -> 0 <= r ->
  let out := map (fun s => mk (start_time s * r) (end_time s * r)
                              (Segment.start_level s) (Segment.end_level s)
                              (curve_shape s)) c in
  valid out
  /\ Curve.length out = Curve.length c * r
  /\ Curve.levels out = Curve.levels c
  /\ Curve.curve_shapes out = Curve.curve_shapes c
  /\ (0 < r -> forall x, Curve.value_at out x = Curve.value_at c (x / r)).
Proof.
  intros Hv Hr out. destruct (proj1 (valid_chain c) Hv) as [Hne Hch].
  assert (Hv' : valid out).
  { apply valid_chain. split; [unfold out; now destruct c | ].
    replace 0 with (0 * r) by ring. now apply chain_scale. }
  assert (Hlen : Curve.length out = Curve.length c * r).
  { unfold Curve.length, out. rewrite last_segment_map.
    destruct (last_segment_some c Hne) as [l ->]. reflexivity. }
  assert (Hend : Curve.end_level out = Curve.end_level c).
  { unfold Curve.end_level, out. rewrite last_segment_map.
    destruct (last_segment_some c Hne) as [l ->]. reflexivity. }
  assert (Hstart : Curve.start_level out = Curve.start_level c)
    by (unfold out; now destruct c).
  split; [assumption | ]. split; [assumption | ].
  split.
  { unfold Curve.levels. rewrite Hend. unfold out. now rewrite map_map. }
  split; [unfold Curve.curve_shapes, out; now rewrite map_map | ].
  intros Hpos x.
  assert (Hx : x = x / r * r) by (field; lra).
  set (y := x / r) in *. clearbody y. subst x.
  destruct (curve_value_cases c y Hv)
    as [[Hneg ->] | [[Hafter ->] | (s & Hin & Hsy & ->)]].
  - rewrite value_at_negative; [assumption | ]. nra.
  - rewrite value_at_beyond; [assumption | assumption | ]. rewrite Hlen. nra.
  - set (s' := mk (start_time s * r) (end_time s * r) (Segment.start_level s)
                  (Segment.end_level s) (curve_shape s)).
    assert (Hin' : In s' out)
      by (apply in_map_iff; exists s; split; [reflexivity | assumption]).
    rewrite (located_value out s' (y * r) Hv' Hin') by (unfold s'; simpl; destruct Hsy; split; nra).
    f_equal. unfold interpolate, normalize, s'. simpl. destruct Hsy as [Hs1 Hs2].
    replace ((y * r - start_time s * r) / (end_time s * r - start_time s * r))
      with ((y - start_time s) / (end_time s - start_time s))
      by (field; split; nra).
    reflexivity.
Qed.

(** X23.  [normalize_to_duration] on a valid curve of positive length
    returns a valid curve of the desired duration with the same levels
    and shapes whose value at [x] is the value of the curve at
    [x * length / desired_duration]; the curve itself is that curve
    after the call if [in_place], and what it was if not.  On a curve of
    length 0 any other desired duration raises [ZeroDivisionError]. *)
Theorem normalize_to_duration_rescales (c : Curve.t) (desired_duration : R)
    (in_place : bool) :
  valid c ->
  (0 < Curve.length c -> 0 <= desired_duration ->
   exists out,
     CurveOps.normalize_to_duration c desired_duration in_place
     = (if in_place then out else c, Ok out)
     /\ valid out
     /\ Curve.length out = desired_duration
     /\ Curve.levels out = Curve.levels c
     /\ Curve.curve_shapes out = Curve.curve_shapes c
     /\ (0 < desired_duration ->
         forall x,
           Curve.value_at out x
           = Curve.value_at c (x * Curve.length c / desired_duration)))
  /\ (Curve.length c = 0 -> desired_duration <> 0 ->
      CurveOps.normalize_to_duration c desired_duration in_place
      = (c, Raise ZeroDivisionError)).
Proof.
  intros Hv. split.
  - intros HL Hd. unfold CurveOps.normalize_to_duration.
    destruct (Reqb (Curve.length c) desired_duration) eqn:E.
    + apply Reqb_true in E. exists c. cbn [negb].
      split; [now destruct in_place | ]. split; [assumption | ].
      split; [assumption | ]. split; [reflexivity | ]. split; [reflexivity | ].
      intros _ x. f_equal. rewrite <- E. field. lra.
    + cbn [negb]. rewrite div_ok by lra.
      assert (Hr : 0 <= desired_duration / Curve.length c).
      { unfold Rdiv. apply Rmult_le_pos; [assumption | ].
        left. now apply Rinv_0_lt_compat. }
      destruct (normalize_to_duration_scaled c _ Hv Hr)
        as (Hv' & Hlen & Hlev & Hshp & Hval).
      eexists. split; [reflexivity | ]. split; [exact Hv' | ].
      split; [rewrite Hlen; field; lra | ].
      split; [exact Hlev | ]. split; [exact Hshp | ].
      intros Hpos x. rewrite Hval.
      * f_equal. field. lra.
      * unfold Rdiv. apply Rmult_lt_0_compat; [assumption | ].
        now apply Rinv_0_lt_compat.
  - intros HL Hd. unfold CurveOps.normalize_to_duration.
    replace (Reqb (Curve.length c) desired_duration) with false
      by (symmetry; apply Reqb_false; lra).
    cbn [negb]. rewrite HL, div_zero. reflexivity.
Qed.

Lemma normalize_to_duration_rescales_witness :
  exists out,
    CurveOps.normalize_to_duration two_ramps 6 true = (out, Ok out)
    /\ valid out
    /\ Curve.length out = 6
    /\ Curve.levels out = Curve.levels two_ramps
    /\ Curve.curve_shapes out = Curve.curve_shapes two_ramps
    /\ (0 < 6 ->
        forall x,
          Curve.value_at out x
          = Curve.value_at two_ramps (x * Curve.length two_ramps / 6)).
Proof.
  destruct (normalize_to_duration_rescales two_ramps 6 true two_ramps_valid)
    as [Hscale _].
  apply Hscale; unfold two_ramps, Curve.length; simpl; lra.
Defined.

Lemma inflection_points_from_starts d l p :
  In p (CurveOps.inflection_points_from d l) ->
  exists s, In s l /\ p = start_time s.
Proof.
  revert d. induction l as [ | s rest IH]; intros d; [intros [] | ].
  cbn [CurveOps.inflection_points_from].
  set (direction := if Rltb (Segment.start_level s) (Segment.end_level s) then 1%Z
                    else if Rltb (Segment.end_level s) (Segment.start_level s)
                         then (-1)%Z else d).
  destruct (Z.ltb (d * direction) 0).
  - intros [<- | Hin]; [exists s; split; [now left | reflexivity] | ].
    destruct (IH _ Hin) as (s' & Hs' & ->). exists s'. split; [now right | reflexivity].
  - intros Hin. destruct (IH _ Hin) as (s' & Hs' & ->).
    exists s'. split; [now right | reflexivity].
Qed.

Lemma inflection_points_never_falling d l :
  (0 <= d)%Z ->
  Forall (fun s => Segment.start_level s <= Segment.end_level s) l ->
  CurveOps.inflection_points_from d l = [].
Proof.
  revert d. induction l as [ | s rest IH]; intros d Hd Hall; [reflexivity | ].
  inversion Hall as [ | ? ? Hs Hrest]; subst.
  cbn [CurveOps.inflection_points_from].
  replace (Rltb (Segment.end_level s) (Segment.start_level s)) with false
    by (symmetry; now apply Rltb_false).
  destruct (Rltb (Segment.start_level s) (Segment.end_level s)).
  - replace (Z.ltb (d * 1) 0) with false by (symmetry; apply Z.ltb_ge; lia).
    apply IH; [lia | assumption].
  - replace (Z.ltb (d * d) 0) with false by (symmetry; apply Z.ltb_ge; nia).
    now apply IH.
Qed.

Lemma inflection_points_never_rising d l :
  (d <= 0)%Z ->
  Forall (fun s => Segment.end_level s <= Segment.start_level s) l ->
  CurveOps.inflection_points_from d l = [].
Proof.
  revert d. induction l as [ | s rest IH]; intros d Hd Hall; [reflexivity | ].
  inversion Hall as [ | ? ? Hs Hrest]; subst.
  cbn [CurveOps.inflection_points_from].
  replace (Rltb (Segment.start_level s) (Segment.end_level s)) with false
    by (symmetry; now apply Rltb_false).
  destruct (Rltb (Segment.end_level s) (Segment.start_level s)).
  - replace (Z.ltb (d * -1) 0) with false by (symmetry; apply Z.ltb_ge; lia).
    apply IH; [lia | assumption].
  - replace (Z.ltb (d * d) 0) with false by (symmetry; apply Z.ltb_ge; nia).
    now apply IH.
Qed.

Lemma inflection_points_after_prefix pre l p :
  (forall d, In p (CurveOps.inflection_points_from d l)) ->
  forall d, In p (CurveOps.inflection_points_from d (pre ++ l)).
Proof.
  intros H. induction pre as [ | s pre IH]; intros d; [apply H | ].
  cbn [app CurveOps.inflection_points_from].
  destruct (Z.ltb _ 0); [right | ]; apply IH.
Qed.

Lemma inflection_points_turn s1 s2 post d :
  (Segment.start_level s1 < Segment.end_level s1
   /\ Segment.end_level s2 < Segment.start_level s2)
  \/ (Segment.end_level s1 < Segment.start_level s1
      /\ Segment.start_level s2 < Segment.end_level s2) ->
  In (start_time s2) (CurveOps.inflection_points_from d (s1 :: s2 :: post)).
Proof.
  intros [[H1 H2] | [H1 H2]].
  - cbn [CurveOps.inflection_points_from].
    replace (Rltb (Segment.start_level s1) (Segment.end_level s1)) with true
      by (symmetry; now apply Rltb_true).
    replace (Rltb (Segment.start_level s2) (Segment.end_level s2)) with false
      by (symmetry; apply Rltb_false; lra).
    replace (Rltb (Segment.end_level s2) (Segment.start_level s2)) with true
      by (symmetry; now apply Rltb_true).
    change (Z.ltb (1 * -1) 0) with true. cbn iota.
    destruct (Z.ltb (d * 1) 0); [right | ]; now left.
  - cbn [CurveOps.inflection_points_from].
    replace (Rltb (Segment.start_level s1) (Segment.end_level s1)) with false
      by (symmetry; apply Rltb_false; lra).
    replace (Rltb (Segment.end_level s1) (Segment.start_level s1)) with true
      by (symmetry; now apply Rltb_true).
    replace (Rltb (Segment.start_level s2) (Segment.end_level s2)) with true
      by (symmetry; now apply Rltb_true).
    change (Z.ltb (-1 * 1) 0) with true. cbn iota.
    destruct (Z.ltb (d * -1) 0); [right | ]; now left.
Qed.

(** X24.  Every time [inflection_points] reports is the start time of a
    segment after the first.  A curve none of whose segments falls has
    no inflection point, and neither has one none of whose segments
    rises; where a falling segment follows a rising one, or a rising
    one a falling one, the start time of the second is reported. *)
Theorem inflection_points_are_turns (c : Curve.t) :
  (forall p, In p (CurveOps.inflection_points c) ->
     exists s, In s (tl c) /\ p = start_time s)
  /\ (Forall (fun s => Segment.start_level s <= Segment.end_level s) c ->
      CurveOps.inflection_points c = [])
  /\ (Forall (fun s => Segment.end_level s <= Segment.start_level s) c ->
      CurveOps.inflection_points c = [])
  /\ (forall pre s1 s2 post, c = pre ++ s1 :: s2 :: post ->
      (Segment.start_level s1 < Segment.end_level s1
       /\ Segment.end_level s2 < Segment.start_level s2)
      \/ (Segment.end_level s1 < Segment.start_level s1
          /\ Segment.start_level s2 < Segment.end_level s2) ->
      In (start_time s2) (CurveOps.inflection_points c)).
Proof.
  unfold CurveOps.inflection_points. repeat split.
  - intros p. destruct c as [ | s rest]; [intros [] | ].
    cbn [CurveOps.inflection_points_from tl].
    replace (0 * _)%Z with 0%Z by lia. change (Z.ltb 0 0) with false. cbn iota.
    apply inflection_points_from_starts.
  - apply inflection_points_never_falling. lia.
  - apply inflection_points_never_rising. lia.
  - intros pre s1 s2 post -> Hturn.
    apply inflection_points_after_prefix. intros d.
    now apply inflection_points_turn.
Qed.

End CurveUtilityFacts.

(** ** Splitting a curve in two *)

Module CurveSplitFacts.

Import Segment Invariant Model Notions Examples InvariantFacts SegmentFacts
       CurveFacts MutationFacts SplitFacts MaxFacts AppendFacts
       CurveArithmeticFacts.

Lemma map_clone c : map SegmentOps.clone c = c.
Proof.
  induction c as [ | s rest IH]; [reflexivity | ].
  cbn [map]. rewrite IH. now destruct s.
Qed.

Lemma last_segment_app_nonempty l1 l2 :
  l2 <> [] -> Curve.last_segment (l1 ++ l2) = Curve.last_segment l2.
Proof.
  intros Hne. induction l1 as [ | s l1 IH]; [reflexivity | ].
  change ((s :: l1) ++ l2) with (s :: (l1 ++ l2)).
  rewrite last_segment_cons; [exact IH | ].
  destruct l1; [exact Hne | discriminate].
Qed.

Lemma chain_app_inv a l1 l2 :
  chain a (l1 ++ l2) ->
  chain a l1
  /\ chain (match Curve.last_segment l1 with
            | Some l => end_time l
            | None => a
            end) l2.
Proof.
  revert a. induction l1 as [ | s l1 IH]; intros a Hch; [now split | ].
  destruct Hch as (Hst & Hle & Hrest). destruct (IH _ Hrest) as [H1 H2].
  split; [cbn [chain]; now repeat split | ].
  destruct l1 as [ | s2 l1']; [exact H2 | ].
  rewrite last_segment_cons by discriminate.
  destruct (last_segment_some (s2 :: l1') ltac:(discriminate)) as [l Hl].
  rewrite Hl in *. exact H2.
Qed.

Lemma insert_interpolated_loop_boundary fuel t segments segments' :
  Curve.insert_interpolated_loop fuel t segments = Ok segments' ->
  (exists s, In s segments /\ start_time s <= t < end_time s) ->
  exists s', In s' segments' /\ start_time s' = t.
Proof.
  revert fuel segments'.
  induction segments as [ | s rest IH]; intros fuel segments' H (s0 & Hin & Hs0).
  - destruct Hin.
  - destruct fuel as [ | fuel]; [discriminate | ].
    cbn [Curve.insert_interpolated_loop] in H.
    destruct (Reqb t (start_time s)) eqn:E1.
    + apply Reqb_true in E1. injection H as <-.
      exists s. split; [now left | now symmetry].
    + destruct (contains s t) eqn:E2.
      * destruct (Segment.split_at s t) as [[p1 p2] | e | ] eqn:Es;
          cbn [bind] in H; try discriminate.
        unfold contains in E2. apply andb_true_iff in E2 as [E2 E3].
        apply Rleb_true in E2. apply Rltb_true in E3. apply Reqb_false in E1.
        rewrite split_at_ok in Es by lra. injection Es as <- <-.
        destruct (Curve.insert_interpolated_loop fuel t _) as [tail | e | ] eqn:Et;
          cbn [bind] in H; try discriminate.
        injection H as <-.
        destruct fuel as [ | fuel]; [discriminate | ].
        cbn [Curve.insert_interpolated_loop start_time] in Et.
        replace (Reqb t t) with true in Et by (symmetry; now apply Reqb_true).
        injection Et as <-.
        eexists. split; [right; left; reflexivity | reflexivity].
      * destruct (Curve.insert_interpolated_loop fuel t rest) as [tail | e | ] eqn:Et;
          cbn [bind] in H; try discriminate.
        injection H as <-.
        destruct Hin as [<- | Hin].
        { unfold contains in E2. apply andb_false_iff in E2.
          destruct E2 as [E2 | E2];
            [apply Rleb_false in E2 | apply Rltb_false in E2]; lra. }
        destruct (IH _ _ Et) as (s' & Hs' & Hst); [now exists s0 | ].
        exists s'. split; [now right | assumption].
Qed.

Section Shift.

Variable t : R.

Let shift (s' : Segment.t) : Segment.t :=
  mk (start_time s' - t) (end_time s' - t) (Segment.start_level s')
     (Segment.end_level s') (curve_shape s').

Lemma cut_at_spec l :
  (exists s, In s l /\ start_time s = t) ->
  exists first second,
    CurveOps.cut_at t l = Some (first, map shift second)
    /\ l = first ++ second
    /\ (exists s rest, second = s :: rest /\ start_time s = t).
Proof.
  induction l as [ | s rest IH]; intros (s0 & Hin & Hs0); [destruct Hin | ].
  cbn [CurveOps.cut_at].
  destruct (Reqb (start_time s) t) eqn:E.
  - apply Reqb_true in E. exists [], (s :: rest).
    split; [reflexivity | ]. split; [reflexivity | ]. now exists s, rest.
  - apply Reqb_false in E. destruct Hin as [<- | Hin]; [contradiction | ].
    destruct IH as (first & second & -> & -> & Hsecond); [now exists s0 | ].
    exists (s :: first), second. split; [reflexivity | ]. now split.
Qed.

Lemma chain_shift a l : chain a l -> chain (a - t) (map shift l).
Proof.
  revert a. induction l as [ | s rest IH]; intros a Hch; [exact I | ].
  destruct Hch as (Hst & Hle & Hrest). cbn [map chain]. unfold shift at 1 2.
  cbn [start_time end_time].
  split; [now rewrite Hst | ]. split; [lra | ]. now apply IH.
Qed.

(** A valid curve with a segment that starts at [t], [0 < t]: the
    segments before the first such segment and the segments from it on,
    moved back by [t], are two valid curves that carry the values of
    the curve. *)
Lemma cut_at_halves c :
  valid c -> 0 < t ->
  (exists s, In s c /\ start_time s = t) ->
  exists first second,
    CurveOps.cut_at t c = Some (first, second)
    /\ valid first /\ valid second
    /\ Curve.length first = t
    /\ Curve.length second = Curve.length c - t
    /\ (forall x, x < t -> Curve.value_at first x = Curve.value_at c x)
    /\ (forall x, 0 <= x -> Curve.value_at second x = Curve.value_at c (x + t)).
Proof.
  intros Hv Ht Hex. destruct (proj1 (valid_chain c) Hv) as [Hne Hch].
  destruct (cut_at_spec c Hex) as (first & second & Hcut & -> & s2 & rest & -> & Hs2).
  exists first, (map shift (s2 :: rest)). split; [exact Hcut | ].
  destruct (chain_app_inv 0 first (s2 :: rest) Hch) as [Hch1 Hch2].
  assert (Hfirst : first <> []).
  { intros ->. destruct Hch2 as [Hst _]. simpl in Hst. lra. }
  destruct (last_segment_some first Hfirst) as [l Hl]. rewrite Hl in Hch2.
  assert (Hl_end : end_time l = t) by (destruct Hch2 as [Hst _]; lra).
  rewrite Hl_end in Hch2.
  assert (Hv1 : valid first) by (apply valid_chain; now split).
  assert (Hv2 : valid (map shift (s2 :: rest))).
  { apply valid_chain. split; [discriminate | ].
    replace 0 with (t - t) by ring. now apply chain_shift. }
  assert (Hlen1 : Curve.length first = t)
    by (unfold Curve.length; now rewrite Hl).
  assert (Hlast : Curve.last_segment (first ++ s2 :: rest)
                  = Curve.last_segment (s2 :: rest))
    by (apply last_segment_app_nonempty; discriminate).
  destruct (last_segment_some (s2 :: rest) ltac:(discriminate)) as [l2 Hl2].
  assert (Hlen2 : Curve.length (map shift (s2 :: rest))
                  = Curve.length (first ++ s2 :: rest) - t).
  { unfold Curve.length. rewrite last_segment_map, Hlast, Hl2. reflexivity. }
  assert (Hend2 : Curve.end_level (map shift (s2 :: rest))
                  = Curve.end_level (first ++ s2 :: rest)).
  { unfold Curve.end_level. rewrite last_segment_map, Hlast, Hl2. reflexivity. }
  split; [assumption | ]. split; [assumption | ]. split; [assumption | ].
  split; [assumption | ]. split.
  - intros x Hx. destruct (Rlt_dec x 0) as [Hneg | Hpos].
    + rewrite !value_at_negative by assumption. now destruct first.
    + destruct (located_before_end first x Hv1 ltac:(lra) ltac:(lra))
        as (s & Hin & Hsx).
      rewrite (located_value first s x Hv1 Hin Hsx).
      symmetry. apply located_value; try assumption.
      apply in_or_app. now left.
  - intros x Hx.
    destruct (curve_value_cases _ x Hv2)
      as [[Hneg _] | [[Hafter ->] | (s' & Hin & Hsx & ->)]]; [lra | | ].
    + rewrite Hend2. symmetry. apply value_at_beyond; [assumption | ].
      rewrite Hlen2 in Hafter. lra.
    + apply in_map_iff in Hin as (s & <- & Hin).
      unfold shift in Hsx. cbn [start_time end_time] in Hsx.
      rewrite (located_value (first ++ s2 :: rest) s (x + t) Hv)
        by (try (apply in_or_app; now right); lra).
      f_equal. unfold interpolate, normalize, shift. simpl.
      replace ((x - (start_time s - t)) / (end_time s - t - (start_time s - t)))
        with ((x + t - start_time s) / (end_time s - start_time s))
        by (field; lra).
      reflexivity.
Qed.

End Shift.

Lemma insert_interpolated_inside c t :
  valid c -> 0 < t < Curve.length c ->
  exists inserted,
    Curve.insert_interpolated c t = (inserted, Ok tt)
    /\ valid inserted
    /\ Curve.length inserted = Curve.length c
    /\ (exists s, In s inserted /\ start_time s = t)
    /\ ((forall s, In s c -> start_time s < t < end_time s -> split_exact s t) ->
        forall x, Curve.value_at inserted x = Curve.value_at c x).
Proof.
  intros Hv Ht.
  destruct (insert_interpolated_ok c t Hv ltac:(lra)) as (Hok & Hv' & Hlen).
  pose proof (insert_interpolated_values c t Hv ltac:(lra)) as Hval.
  destruct (located_before_end c t Hv ltac:(lra) ltac:(lra)) as (s0 & Hin & Hs0).
  revert Hok Hv' Hlen Hval. unfold Curve.insert_interpolated.
  replace (Rleb 0 t) with true by (symmetry; apply Rleb_true; lra).
  replace (Rleb t (Curve.length c)) with true by (symmetry; apply Rleb_true; lra).
  replace (Reqb t (Curve.length c)) with false by (symmetry; apply Reqb_false; lra).
  destruct (Curve.insert_interpolated_loop (S (List.length c)) t c)
    as [c' | e | ] eqn:E; cbn [fst snd]; intros Hok Hv' Hlen Hval;
    try discriminate.
  exists c'. split; [reflexivity | ]. split; [assumption | ].
  split; [assumption | ]. split; [ | assumption].
  apply (insert_interpolated_loop_boundary _ _ _ _ E). now exists s0.
Qed.

Lemma split_at_step fuel c t change_original :
  CurveOps.split_at (S fuel) c t change_original
  = let to_split := if change_original then c else map SegmentOps.clone c in
    let after_call (changed : Curve.t) := if change_original then changed else c in
    let usable :=
      match t with
      | CurveOps.At t0 => Some (t0, None)
      | CurveOps.AtAll ts =>
          match filter (fun x => Rleb 0 x && Rleb x (Curve.length to_split)) ts with
          | [] => None
          | [t0] => Some (t0, None)
          | ts' =>
              match CurveOps.sort ts' with
              | [] => None
              | t0 :: later => Some (t0, Some (map (fun x => x - t0) later))
              end
          end
      end in
    match usable with
    | None => (after_call to_split, Ok (CurveOps.Returned (CurveOps.Whole to_split)))
    | Some (t0, remaining_splits) =>
        if negb (Rltb 0 t0 && Rltb t0 (Curve.length to_split)) then
          (after_call to_split, Ok (CurveOps.Returned (CurveOps.Whole to_split)))
        else
          match Curve.insert_interpolated to_split t0 with
          | (inserted, Ok _) =>
              match CurveOps.cut_at t0 inserted with
              | None => (after_call inserted, Ok CurveOps.UnboundLocalError)
              | Some (first, second_half) =>
                  match remaining_splits with
                  | None =>
                      (after_call first,
                       Ok (CurveOps.Returned (CurveOps.Halves first second_half)))
                  | Some remaining =>
                      match CurveOps.split_at fuel second_half
                              (CurveOps.AtAll remaining) true with
                      | (_, Ok (CurveOps.Returned rest)) =>
                          (after_call first,
                           Ok (CurveOps.Returned (CurveOps.FirstAnd first rest)))
                      | (_, Ok CurveOps.UnboundLocalError) =>
                          (after_call first, Ok CurveOps.UnboundLocalError)
                      | (_, Raise e) => (after_call first, Raise e)
                      | (_, OutOfFuel) => (after_call first, OutOfFuel)
                      end
                  end
              end
          | (inserted, Raise e) => (after_call inserted, Raise e)
          | (inserted, OutOfFuel) => (after_call inserted, OutOfFuel)
          end
    end.
Proof. reflexivity. Qed.

(** One split inside the curve, as [split_at] does it for a single
    time and for the first of several. *)
Lemma split_once c t :
  valid c -> 0 < t < Curve.length c ->
  exists inserted first second,
    Curve.insert_interpolated c t = (inserted, Ok tt)
    /\ CurveOps.cut_at t inserted = Some (first, second)
    /\ valid first /\ valid second
    /\ Curve.length first = t
    /\ Curve.length second = Curve.length c - t
    /\ ((forall s, In s c -> start_time s < t < end_time s -> split_exact s t) ->
        (forall x, x < t -> Curve.value_at first x = Curve.value_at c x)
        /\ (forall x, 0 <= x -> Curve.value_at second x = Curve.value_at c (x + t))).
Proof.
  intros Hv Ht.
  destruct (insert_interpolated_inside c t Hv Ht)
    as (inserted & Hins & Hv' & Hlen & Hex & Hval).
  destruct (cut_at_halves t inserted Hv' ltac:(lra) Hex)
    as (first & second & Hcut & Hv1 & Hv2 & Hl1 & Hl2 & Hval1 & Hval2).
  exists inserted, first, second.
  split; [assumption | ]. split; [assumption | ]. split; [assumption | ].
  split; [assumption | ]. split; [assumption | ].
  split; [now rewrite Hl2, Hlen | ].
  intros Hexact. specialize (Hval Hexact). split.
  - intros x Hx. now rewrite Hval1, Hval.
  - intros x Hx. now rewrite Hval2, Hval.
Qed.

(** X25.  [split_at(t)] with a single time inside a valid curve returns
    two valid curves of lengths [t] and [length - t].  When the segment
    that holds [t] splits without loss the first has the values of the
    curve before [t], and the second, at [x >= 0], the value of the
    curve at [x + t].  The curve itself becomes the first piece if
    [change_original], and stays what it was if not.  A time that is
    not inside the curve gives back the curve alone. *)
Theorem split_at_gives_two_curves (fuel : nat) (c : Curve.t) (t : R)
    (change_original : bool) :
  valid c ->
  (0 < t < Curve.length c ->
   exists first second,
     CurveOps.split_at (S fuel) c (CurveOps.At t) change_original
     = (if change_original then first else c,
        Ok (CurveOps.Returned (CurveOps.Halves first second)))
     /\ valid first /\ valid second
     /\ Curve.length first = t
     /\ Curve.length second = Curve.length c - t
     /\ ((forall s, In s c -> start_time s < t < end_time s -> split_exact s t) ->
         (forall x, x < t -> Curve.value_at first x = Curve.value_at c x)
         /\ (forall x, 0 <= x ->
             Curve.value_at second x = Curve.value_at c (x + t))))
  /\ (t <= 0 \/ Curve.length c <= t ->
      CurveOps.split_at (S fuel) c (CurveOps.At t) change_original
      = (c, Ok (CurveOps.Returned (CurveOps.Whole c)))).
Proof.
  intros Hv. rewrite split_at_step. cbv zeta. rewrite map_clone.
  replace (if change_original then c else c) with c by (now destruct change_original).
  split.
  - intros Ht.
    replace (Rltb 0 t) with true by (symmetry; apply Rltb_true; lra).
    replace (Rltb t (Curve.length c)) with true by (symmetry; apply Rltb_true; lra).
    cbn [andb negb].
    destruct (split_once c t Hv Ht)
      as (inserted & first & second & -> & -> & Hrest).
    exists first, second. split; [reflexivity | exact Hrest].
  - intros Ht.
    replace (Rltb 0 t && Rltb t (Curve.length c)) with false.
    + cbn [negb]. now destruct change_original.
    + symmetry. apply andb_false_iff. rewrite !Rltb_false. lra.
Qed.

Lemma split_at_gives_two_curves_witness :
  exists first second,
    CurveOps.split_at 1 two_ramps (CurveOps.At (1 / 2)) false
    = (two_ramps, Ok (CurveOps.Returned (CurveOps.Halves first second)))
    /\ valid first /\ valid second
    /\ Curve.length first = 1 / 2
    /\ Curve.length second = Curve.length two_ramps - 1 / 2.
Proof.
  destruct (split_at_gives_two_curves 0 two_ramps (1 / 2) false two_ramps_valid)
    as [Hin _].
  destruct Hin as (first & second & Hsplit & Hv1 & Hv2 & Hl1 & Hl2 & _);
    [unfold two_ramps, Curve.length; simpl; lra | ].
  exists first, second.
  exact (conj Hsplit (conj Hv1 (conj Hv2 (conj Hl1 Hl2)))).
Defined.

Lemma filter_inside (L : R) (ts : list R) :
  Forall (fun x => 0 <= x <= L) ts ->
  filter (fun x => Rleb 0 x && Rleb x L) ts = ts.
Proof.
  induction 1 as [ | x ts [H0 HL] _ IH]; [reflexivity | ].
  cbn [filter].
  replace (Rleb 0 x) with true by (symmetry; now apply Rleb_true).
  replace (Rleb x L) with true by (symmetry; now apply Rleb_true).
  cbn [andb]. now rewrite IH.
Qed.

Lemma sort_two (t1 t2 : R) :
  t1 < t2 ->
  CurveOps.sort [t1; t2] = [t1; t2] /\ CurveOps.sort [t2; t1] = [t1; t2].
Proof.
  intros H. cbn [CurveOps.sort CurveOps.insert_sorted].
  replace (Rleb t1 t2) with true by (symmetry; apply Rleb_true; lra).
  replace (Rleb t2 t1) with false by (symmetry; apply Rleb_false; lra).
  now split.
Qed.

Lemma usable_two_times (L t1 t2 : R) (ts : list R) :
  0 <= t1 -> t1 < t2 -> t2 <= L ->
  ts = [t1; t2] \/ ts = [t2; t1] ->
  match filter (fun x => Rleb 0 x && Rleb x L) ts with
  | [] => None
  | [t0] => Some (t0, @None (list R))
  | ts' =>
      match CurveOps.sort ts' with
      | [] => None
      | t0 :: later => Some (t0, Some (map (fun x => x - t0) later))
      end
  end = Some (t1, Some [t2 - t1]).
Proof.
  intros H1 H12 H2 Hts. destruct (sort_two t1 t2 H12) as [Hsort1 Hsort2].
  rewrite filter_inside
    by (destruct Hts as [-> | ->];
        repeat (apply Forall_cons; [split; lra | ]); apply Forall_nil).
  destruct Hts as [-> | ->]; [rewrite Hsort1 | rewrite Hsort2]; reflexivity.
Qed.

(** X26.  [split_at] with two times inside a valid curve, given in
    either order, splits at the earlier one and then splits the rest at
    the later one: it returns the first piece together with the pair of
    the two other pieces, three valid curves of lengths [t1],
    [t2 - t1] and [length - t2]. *)
Theorem split_at_two_times_nests (fuel : nat) (c : Curve.t) (t1 t2 : R)
    (ts : list R) (change_original : bool) :
  valid c -> 0 < t1 -> t1 < t2 -> t2 < Curve.length c ->
  ts = [t1; t2] \/ ts = [t2; t1] ->
  exists first middle last,
    CurveOps.split_at (S (S fuel)) c (CurveOps.AtAll ts) change_original
    = (if change_original then first else c,
       Ok (CurveOps.Returned
             (CurveOps.FirstAnd first (CurveOps.Halves middle last))))
    /\ valid first /\ valid middle /\ valid last
    /\ Curve.length first = t1
    /\ Curve.length middle = t2 - t1
    /\ Curve.length last = Curve.length c - t2.
Proof.
  intros Hv H1 H12 H2 Hts.
  rewrite split_at_step. cbv zeta. rewrite map_clone.
  replace (if change_original then c else c) with c by (now destruct change_original).
  rewrite (usable_two_times (Curve.length c) t1 t2 ts) by (assumption || lra).
  cbv beta iota.
  replace (Rltb 0 t1) with true by (symmetry; apply Rltb_true; lra).
  replace (Rltb t1 (Curve.length c)) with true by (symmetry; apply Rltb_true; lra).
  cbn [andb negb].
  destruct (split_once c t1 Hv ltac:(lra))
    as (inserted & first & second & -> & -> & Hv1 & Hv2 & Hl1 & Hl2 & _).
  rewrite split_at_step. cbv zeta.
  rewrite filter_inside
    by (repeat (apply Forall_cons; [split; lra | ]); apply Forall_nil).
  replace (Rltb 0 (t2 - t1)) with true by (symmetry; apply Rltb_true; lra).
  replace (Rltb (t2 - t1) (Curve.length second)) with true
    by (symmetry; apply Rltb_true; lra).
  cbn [andb negb].
  destruct (split_once second (t2 - t1) Hv2 ltac:(lra))
    as (inserted' & middle & last & -> & -> & Hv3 & Hv4 & Hl3 & Hl4 & _).
  exists first, middle, last.
  split; [reflexivity | ]. split; [assumption | ]. split; [assumption | ].
  split; [assumption | ]. split; [assumption | ]. split; [assumption | ].
  rewrite Hl4, Hl2. ring.
Qed.

Lemma split_at_two_times_nests_witness :
  exists first middle last,
    CurveOps.split_at 2 two_ramps (CurveOps.AtAll [3 / 2; 1 / 2]) false
    = (two_ramps,
       Ok (CurveOps.Returned
             (CurveOps.FirstAnd first (CurveOps.Halves middle last))))
    /\ valid first /\ valid middle /\ valid last
    /\ Curve.length first = 1 / 2
    /\ Curve.length middle = 3 / 2 - 1 / 2
    /\ Curve.length last = Curve.length two_ramps - 3 / 2.
Proof.
  apply (split_at_two_times_nests 0 two_ramps (1 / 2) (3 / 2) [3 / 2; 1 / 2] false
           two_ramps_valid);
    [lra | lra | unfold two_ramps, Curve.length; simpl; lra | now right].
Defined.

End CurveSplitFacts.

(** ** Cutting a curve off at a time *)

Module TruncationFacts.

Import Segment Invariant Model Notions Examples InvariantFacts SegmentFacts
       CurveFacts MutationFacts SplitFacts MaxFacts AppendFacts CurveSplitFacts.

Lemma pop_while_longer_step fuel c x :
  Curve.pop_while_longer (S fuel) c x
  = if Rltb x (Curve.length c) then
      match Curve.pop_segment c with
      | (c', Ok _) => Curve.pop_while_longer fuel c' x
      | (c', Raise e) => (c', Raise e)
      | (c', OutOfFuel) => (c', OutOfFuel)
      end
    else (c, Ok tt).
Proof. reflexivity. Qed.

(** One pop while the curve is longer than [t], [t] being the start of
    a segment or the length: [t] still is one of the two afterwards; the
    start level stays, and what is left is a prefix of the list unless
    [t] is 0 and the only segment has been collapsed. *)
Lemma pop_segment_keeps_boundary c c' t o :
  chain 0 c -> c <> [] ->
  (exists s, In s c /\ start_time s = t) -> t < Curve.length c ->
  Curve.pop_segment c = (c', Ok o) ->
  ((exists s, In s c' /\ start_time s = t) \/ Curve.length c' = t)
  /\ Curve.start_level c' = Curve.start_level c
  /\ ((exists rest, c = c' ++ rest) \/ t = 0).
Proof.
  intros Hch Hne (s0 & Hin & Hs0) Hlt Hpop.
  destruct c as [ | s [ | s2 rest]]; [now contradiction Hne | | ].
  - destruct Hin as [<- | []]. destruct Hch as (Hst & _).
    unfold Curve.pop_segment in Hpop.
    destruct (negb (Reqb (end_time s) (start_time s))
              || negb (Reqb (Segment.end_level s) (Segment.start_level s)));
      [ | discriminate].
    injection Hpop as <- _. split; [ | split].
    + left. eexists. split; [now left | assumption].
    + reflexivity.
    + right. lra.
  - unfold Curve.pop_segment in Hpop.
    destruct (split_last (s :: s2 :: rest) Hne) as (init & l & Heq).
    rewrite Heq in *. rewrite last_segment_app in Hpop.
    rewrite removelast_last in Hpop. injection Hpop as <- _.
    destruct (chain_app_inv 0 init [l] Hch) as [Hch1 Hch2].
    assert (Hinit : init <> []) by (destruct init as [ | ? [ | ? ?]]; discriminate).
    destruct (last_segment_some init Hinit) as [l1 Hl1]. rewrite Hl1 in Hch2.
    destruct Hch2 as (Hst & _).
    split; [ | split].
    + apply in_app_or in Hin as [Hin | [<- | []]].
      * left. now exists s0.
      * right. unfold Curve.length. rewrite Hl1. lra.
    + destruct init; [now contradiction Hinit | reflexivity].
    + left. now exists [l].
Qed.

Lemma pop_while_longer_cuts fuel c t :
  chain 0 c -> c <> [] ->
  (exists s, In s c /\ start_time s = t) \/ Curve.length c = t ->
  snd (Curve.pop_while_longer fuel c t) = Ok tt ->
  Curve.length (fst (Curve.pop_while_longer fuel c t)) = t
  /\ Curve.start_level (fst (Curve.pop_while_longer fuel c t)) = Curve.start_level c
  /\ ((exists rest, c = fst (Curve.pop_while_longer fuel c t) ++ rest) \/ t = 0).
Proof.
  revert c. induction fuel as [ | fuel IH]; intros c Hch Hne Hb Hok;
    [discriminate | ].
  rewrite pop_while_longer_step in *.
  destruct (Rltb t (Curve.length c)) eqn:E.
  - apply Rltb_true in E.
    destruct Hb as [Hb | Hb]; [ | lra].
    destruct (Curve.pop_segment c) as [c' r] eqn:Hpop.
    destruct r as [o | e | ]; try discriminate.
    destruct (pop_segment_chain 0 c c' _ Hch Hne Hpop) as [Hch' Hne'].
    destruct (pop_segment_keeps_boundary c c' t o Hch Hne Hb E Hpop)
      as (Hb' & Hstart & Hprefix).
    destruct (IH c' Hch' Hne' Hb' Hok) as (Hlen & Hstart' & Hprefix').
    split; [assumption | ]. split; [now rewrite Hstart' | ].
    destruct Hprefix' as [(rest' & Hrest') | Ht0]; [ | now right].
    destruct Hprefix as [(rest & Hrest) | Ht0]; [ | now right].
    left. exists (rest' ++ rest). rewrite app_assoc, <- Hrest'. exact Hrest.
  - apply Rltb_false in E. cbn [fst]. split; [ | split].
    + destruct Hb as [(s & Hin & Hs) | Hb]; [ | assumption].
      destruct (chain_bounds 0 c Hch Hne) as [_ Hall].
      rewrite Forall_forall in Hall. destruct (Hall s Hin) as [_ Hend].
      pose proof (chain_well_formed 0 c Hch) as Hwf.
      rewrite Forall_forall in Hwf. specialize (Hwf s Hin).
      unfold well_formed in Hwf. lra.
    + reflexivity.
    + left. exists []. now rewrite app_nil_r.
Qed.

(** A curve cut off at [t]: the same values before [t]. *)
Lemma prefix_values c c' t :
  valid c -> valid c' ->
  Curve.length c' = t -> Curve.start_level c' = Curve.start_level c ->
  (exists rest, c = c' ++ rest) \/ t = 0 ->
  forall x, x < t -> Curve.value_at c' x = Curve.value_at c x.
Proof.
  intros Hv Hv' Hlen Hstart Hprefix x Hx.
  destruct (Rlt_dec x 0) as [Hneg | Hpos].
  { now rewrite !value_at_negative by assumption. }
  destruct Hprefix as [(rest & ->) | Ht0]; [ | lra].
  destruct (located_before_end c' x Hv' ltac:(lra) ltac:(lra)) as (s & Hin & Hsx).
  rewrite (located_value c' s x Hv' Hin Hsx).
  symmetry. apply located_value; try assumption. apply in_or_app. now left.
Qed.

Lemma remove_segments_after_loop_cuts processed remaining c t :
  valid c -> 0 <= t <= Curve.length c ->
  c = processed ++ remaining ->
  Forall (fun s => start_time s <> t /\ ~ (start_time s < t < end_time s))
         processed ->
  let c' := fst (Curve.remove_segments_after_loop remaining c t) in
  Curve.length c' = t
  /\ ((forall s, In s c -> start_time s < t < end_time s -> split_exact s t) ->
      forall x, x < t -> Curve.value_at c' x = Curve.value_at c x).
Proof.
  intros Hv Ht. destruct (proj1 (valid_chain c) Hv) as [Hne Hch].
  revert processed. induction remaining as [ | s rest IH]; intros processed Heq Hall.
  - rewrite app_nil_r in Heq. subst processed. cbn [Curve.remove_segments_after_loop fst].
    assert (HL : Curve.length c = t).
    { destruct (Rlt_dec t (Curve.length c)) as [Hlt | Hge]; [ | lra].
      destruct (located_before_end c t Hv ltac:(lra) Hlt) as (s & Hin & Hs).
      rewrite Forall_forall in Hall. destruct (Hall s Hin) as [H1 H2].
      exfalso. apply H2. lra. }
    split; [assumption | reflexivity].
  - assert (Hin : In s c) by (rewrite Heq; apply in_or_app; right; now left).
    cbn [Curve.remove_segments_after_loop].
    destruct (Reqb t (start_time s)) eqn:E1.
    + apply Reqb_true in E1.
      assert (Hok : snd (Curve.pop_while_longer (S (List.length c)) c t) = Ok tt)
        by (apply pop_while_longer_ok with 0; try assumption; [lra | left; lia]).
      destruct (pop_while_longer_cuts _ c t Hch Hne
                  ltac:(left; exists s; split; [assumption | now symmetry]) Hok)
        as (Hlen & Hstart & Hprefix).
      destruct (pop_while_longer_chain 0 (S (List.length c)) c t Hch Hne)
        as [Hch' Hne'].
      split; [assumption | ]. intros _.
      apply prefix_values; try assumption. apply valid_chain. now split.
    + apply Reqb_false in E1.
      destruct (Rltb (start_time s) t && Rltb t (end_time s)) eqn:E2.
      * apply andb_true_iff in E2 as [E2 E3].
        apply Rltb_true in E2. apply Rltb_true in E3.
        destruct (chain_bounds 0 c Hch Hne) as [_ Hbounds].
        rewrite Forall_forall in Hbounds. destruct (Hbounds s Hin) as [Hs0 HsL].
        destruct (insert_interpolated_inside c t Hv ltac:(lra))
          as (inserted & -> & Hv' & Hlen' & Hex & Hval).
        destruct (proj1 (valid_chain inserted) Hv') as [Hne' Hch'].
        assert (Hok : snd (Curve.pop_while_longer (S (List.length inserted))
                             inserted t) = Ok tt)
          by (apply pop_while_longer_ok with 0; try assumption; [lra | left; lia]).
        destruct (pop_while_longer_cuts _ inserted t Hch' Hne' (or_introl Hex) Hok)
          as (Hlen & Hstart & Hprefix).
        destruct (pop_while_longer_chain 0 (S (List.length inserted)) inserted t
                    Hch' Hne') as [Hch'' Hne''].
        split; [assumption | ]. intros Hexact x Hx.
        rewrite <- (Hval Hexact x).
        apply prefix_values with t; try assumption. apply valid_chain. now split.
      * apply (IH (processed ++ [s])).
        -- rewrite <- app_assoc. exact Heq.
        -- apply Forall_app. split; [assumption | ].
           constructor; [ | constructor]. split; [lra | ].
           intros [H1 H2]. apply (proj2 (Rltb_true _ _)) in H1, H2.
           rewrite H1, H2 in E2. discriminate.
Qed.

Lemma remove_segments_after_loop_beyond remaining c t :
  Forall (fun s => start_time s <= end_time s /\ end_time s < t) remaining ->
  Curve.remove_segments_after_loop remaining c t = (c, Ok tt).
Proof.
  induction 1 as [ | s rest [Hs1 Hs2] _ IH]; [reflexivity | ].
  cbn [Curve.remove_segments_after_loop].
  replace (Reqb t (start_time s)) with false by (symmetry; apply Reqb_false; lra).
  replace (Rltb t (end_time s)) with false by (symmetry; apply Rltb_false; lra).
  rewrite andb_false_r. exact IH.
Qed.

(** X27.  [remove_segments_after(t)] on a valid curve, for a time in
    [[0, length]], leaves a valid curve of length [t] that has the values
    of the curve before [t] (when the segment that holds [t] splits
    without loss); for a time after the end it changes nothing, and for
    a negative time it returns normally too and leaves a single point: a
    curve of length 0 with the start level of the curve. *)
Theorem remove_segments_after_cuts_at (c : Curve.t) (t : R) :
  valid c ->
  (0 <= t <= Curve.length c ->
   snd (Curve.remove_segments_after c t) = Ok tt
   /\ valid (fst (Curve.remove_segments_after c t))
   /\ Curve.length (fst (Curve.remove_segments_after c t)) = t
   /\ ((forall s, In s c -> start_time s < t < end_time s -> split_exact s t) ->
       forall x, x < t ->
         Curve.value_at (fst (Curve.remove_segments_after c t)) x
         = Curve.value_at c x))
  /\ (Curve.length c < t -> Curve.remove_segments_after c t = (c, Ok tt))
  /\ (t < 0 ->
      snd (Curve.remove_segments_after c t) = Ok tt
      /\ collapsed (fst (Curve.remove_segments_after c t))
      /\ Curve.length (fst (Curve.remove_segments_after c t)) = 0
      /\ Curve.start_level (fst (Curve.remove_segments_after c t))
         = Curve.start_level c).
Proof.
  intros Hv. destruct (proj1 (valid_chain c) Hv) as [Hne Hch].
  destruct (remove_segments_after_ok c t Hv) as [Hok Hv'].
  split; [ | split].
  - intros Ht. split; [assumption | ]. split; [assumption | ].
    revert Hok Hv'. unfold Curve.remove_segments_after.
    replace (Rltb t 0) with false by (symmetry; apply Rltb_false; lra).
    intros _ _.
    apply (remove_segments_after_loop_cuts [] c c t Hv Ht eq_refl). constructor.
  - intros Ht. unfold Curve.remove_segments_after.
    replace (Rltb t 0) with false
      by (symmetry; apply Rltb_false; pose proof (valid_length_nonneg c Hv); lra).
    apply remove_segments_after_loop_beyond.
    destruct (chain_bounds 0 c Hch Hne) as [_ Hbounds].
    pose proof (chain_well_formed 0 c Hch) as Hwf.
    rewrite Forall_forall in *. intros s Hin.
    destruct (Hbounds s Hin). specialize (Hwf s Hin). unfold well_formed in Hwf.
    split; lra.
  - intros Ht. split; [exact Hok | ].
    revert Hok Hv'. unfold Curve.remove_segments_after.
    replace (Rltb t 0) with true by (symmetry; now apply Rltb_true).
    destruct (pop_all_ok (S (List.length c)) c Hne) as [Hr Hcol]; [left; lia | ].
    destruct (pop_all_chain 0 (S (List.length c)) c Hch Hne) as [Hch' Hne'].
    assert (Hstart : Curve.start_level (fst (Curve.pop_all (S (List.length c)) c))
                     = Curve.start_level c).
    { clear Hr Hcol Hch' Hne'. generalize (S (List.length c)) as fuel.
      intros fuel. revert c Hv Hne Hch.
      induction fuel as [ | fuel IH]; intros c Hv Hne Hch; [reflexivity | ].
      cbn [Curve.pop_all].
      destruct (Curve.pop_segment c) as [c1 r] eqn:Hpop.
      assert (H1 : Curve.start_level c1 = Curve.start_level c).
      { unfold Curve.pop_segment in Hpop.
        destruct c as [ | s [ | s2 rest]]; [now contradiction Hne | | ].
        - destruct (negb _ || negb _); injection Hpop as <- _; reflexivity.
        - destruct (Curve.last_segment (s :: s2 :: rest));
            injection Hpop as <- _; reflexivity. }
      destruct (pop_segment_chain 0 c c1 r Hch Hne Hpop) as [Hch1 Hne1].
      destruct r as [o | e | ]; [ | destruct e; exact H1 | exact H1].
      rewrite IH; try assumption. apply valid_chain. now split. }
    destruct (Curve.pop_all (S (List.length c)) c) as [c1 r].
    cbn [fst snd] in *. subst r.
    rewrite remove_segments_after_loop_none
      by (eapply Forall_impl; [ | exact (chain_starts_after _ _ Hch')];
          simpl; intros; lra).
    intros _ _. cbn [fst]. split; [assumption | ]. split; [ | assumption].
    destruct Hcol as (s & -> & Hs & _). destruct Hch' as (Hst & _).
    unfold Curve.length. simpl. lra.
Qed.

Lemma remove_segments_after_cuts_at_witness :
  snd (Curve.remove_segments_after two_ramps (1 / 2)) = Ok tt
  /\ valid (fst (Curve.remove_segments_after two_ramps (1 / 2)))
  /\ Curve.length (fst (Curve.remove_segments_after two_ramps (1 / 2))) = 1 / 2.
Proof.
  destruct (remove_segments_after_cuts_at two_ramps (1 / 2) two_ramps_valid)
    as [Hin _].
  destruct Hin as (Hok & Hv & Hlen & _);
    [unfold two_ramps, Curve.length; simpl; lra | ].
  exact (conj Hok (conj Hv Hlen)).
Defined.

End TruncationFacts.

(** ** The steepest slope of a curve *)

Module CurveSlopeFacts.

Import Segment Invariant Model Notions Examples InvariantFacts SegmentFacts
       CurveFacts MaxFacts IntegralFacts SegmentSlopeFacts CurveIntegralFacts
       CurveArithmeticFacts.

Lemma max_absolute_slope_total s :
  exists m, SegmentOps.max_absolute_slope s = Ok m.
Proof.
  unfold SegmentOps.max_absolute_slope.
  destruct (Reqb (duration s) 0) eqn:Edur; [now eexists | ].
  apply Reqb_false in Edur.
  destruct (Rltb (Rabs (curve_shape s)) shape_epsilon) eqn:E.
  - rewrite div_ok by assumption. now eexists.
  - rewrite div_ok by assumption. cbn [bind].
    rewrite div_ok; [now eexists | ].
    apply exp_minus_1_neq_0.
    pose proof (not_linear_neq_0 _ E) as HS.
    intros H0. apply HS. destruct (Rcase_abs (curve_shape s)) as [Hn | Hp].
    + rewrite Rabs_left in H0 by assumption. lra.
    + rewrite Rabs_right in H0 by assumption. lra.
Qed.

Lemma slope_nonneg s m :
  start_time s < end_time s -> SegmentOps.max_absolute_slope s = Ok m -> 0 <= m.
Proof.
  intros Hlt Hm.
  pose proof (interpolate_change s m (start_time s) (end_time s) Hlt Hm
                ltac:(lra) ltac:(lra) ltac:(lra)) as H.
  pose proof (Rabs_pos (interpolate s (normalize s (end_time s))
                        - interpolate s (normalize s (start_time s)))).
  nra.
Qed.

Lemma rise_term s m x y :
  start_time s < end_time s -> SegmentOps.max_absolute_slope s = Ok m -> x <= y ->
  Rabs (interpolate s (normalize s (clamp s y))
        - interpolate s (normalize s (clamp s x)))
  <= m * (clamp s y - clamp s x).
Proof.
  intros Hlt Hm Hxy.
  pose proof (clamp_range s x ltac:(lra)) as [Hx1 Hx2].
  pose proof (clamp_range s y ltac:(lra)) as [Hy1 Hy2].
  pose proof (clamp_step s x y ltac:(lra) Hxy) as [Hs1 Hs2].
  apply interpolate_change; try assumption; lra.
Qed.

Lemma clip_contract a b x y : a <= b -> x <= y -> clip a b y - clip a b x <= y - x.
Proof.
  intros H1 H2. unfold clip, Rmax, Rmin.
  destruct (Rle_dec x b); destruct (Rle_dec y b);
    repeat destruct (Rle_dec _ _); lra.
Qed.

Lemma rise_change a c M x y :
  chain a c -> c <> [] -> positive_durations c ->
  (forall s m, In s c -> SegmentOps.max_absolute_slope s = Ok m -> m <= M) ->
  x <= y ->
  Rabs (rise c y - rise c x)
  <= M * (clip a (Curve.length c) y - clip a (Curve.length c) x).
Proof.
  intros Hch Hne Hpos HM Hxy. revert a Hch.
  induction c as [ | s rest IH]; [now contradiction Hne | ].
  intros a (Hst & Hle & Hrest).
  inversion Hpos as [ | ? ? Hs Hpos']; subst.
  destruct (max_absolute_slope_total s) as [m Hm].
  pose proof (rise_term s m x y Hs Hm Hxy) as Hterm.
  pose proof (HM s m (or_introl eq_refl) Hm) as HmM.
  pose proof (clamp_step s x y Hle Hxy) as [Hstep _].
  assert (Hterm' : Rabs (interpolate s (normalize s (clamp s y))
                         - interpolate s (normalize s (clamp s x)))
                   <= M * (clamp s y - clamp s x)).
  { apply Rle_trans with (1 := Hterm). apply Rmult_le_compat_r; lra. }
  change (clamp s y) with (clip (start_time s) (end_time s) y) in Hterm' at 2.
  change (clamp s x) with (clip (start_time s) (end_time s) x) in Hterm' at 2.
  cbn [rise].
  destruct rest as [ | s2 rest'].
  - cbn [rise]. unfold Curve.length. cbn [Curve.last_segment].
    replace (interpolate s (normalize s (clamp s y)) - Segment.start_level s + 0
             - (interpolate s (normalize s (clamp s x)) - Segment.start_level s + 0))
      with (interpolate s (normalize s (clamp s y))
            - interpolate s (normalize s (clamp s x))) by ring.
    exact Hterm'.
  - assert (Hne' : s2 :: rest' <> []) by discriminate.
    rewrite length_cons by assumption.
    assert (HM' : forall s0 m0, In s0 (s2 :: rest') ->
              SegmentOps.max_absolute_slope s0 = Ok m0 -> m0 <= M)
      by (intros s0 m0 Hin; apply HM; now right).
    specialize (IH Hne' Hpos' HM' (end_time s) Hrest).
    pose proof (chain_bounds _ _ Hrest Hne') as [HeL _].
    pose proof (clip_split (start_time s) (end_time s) (Curve.length (s2 :: rest'))
                  x Hle HeL).
    pose proof (clip_split (start_time s) (end_time s) (Curve.length (s2 :: rest'))
                  y Hle HeL).
    replace (interpolate s (normalize s (clamp s y)) - Segment.start_level s
             + rise (s2 :: rest') y
             - (interpolate s (normalize s (clamp s x)) - Segment.start_level s
                + rise (s2 :: rest') x))
      with ((interpolate s (normalize s (clamp s y))
             - interpolate s (normalize s (clamp s x)))
            + (rise (s2 :: rest') y - rise (s2 :: rest') x)) by ring.
    apply Rle_trans with (1 := Rabs_triang _ _).
    replace (clip (start_time s) (Curve.length (s2 :: rest')) y
             - clip (start_time s) (Curve.length (s2 :: rest')) x)
      with ((clip (start_time s) (end_time s) y
             - clip (start_time s) (end_time s) x)
            + (clip (end_time s) (Curve.length (s2 :: rest')) y
               - clip (end_time s) (Curve.length (s2 :: rest')) x))
      by lra.
    rewrite Rmult_plus_distr_l. lra.
Qed.

Lemma rise_before a c x : chain a c -> x <= a -> rise c x = 0.
Proof.
  revert a. induction c as [ | s rest IH]; intros a Hch Hx; [reflexivity | ].
  destruct Hch as (Hst & Hle & Hrest). cbn [rise].
  rewrite (IH (end_time s)) by (assumption || lra).
  rewrite clamp_before by lra.
  destruct (Req_dec_T (start_time s) (end_time s)) as [Heq | Hne].
  - unfold normalize. replace (start_time s - start_time s) with 0 by ring.
    unfold Rdiv. rewrite Rmult_0_l, interpolate_0. ring.
  - rewrite normalize_start by lra. rewrite interpolate_0. ring.
Qed.

Lemma forward_rise a c x :
  chain a c -> positive_durations c -> level_continuous c -> c <> [] -> a <= x ->
  value_at_forward c (Ok (last_level c)) x = Ok (first_level c + rise c x).
Proof.
  revert a. induction c as [ | s rest IH]; intros a Hch Hpos Hcont Hne Hx;
    [now contradiction Hne | ].
  destruct Hch as (Hst & Hle & Hrest).
  inversion Hpos as [ | ? ? Hs Hpos']; subst.
  cbn [value_at_forward rise first_level].
  destruct (Rltb x (end_time s)) eqn:E.
  - apply Rltb_true in E.
    rewrite value_at_closed by lra. rewrite clamp_inside by lra.
    rewrite (rise_before (end_time s)) by (assumption || lra).
    f_equal. ring.
  - apply Rltb_false in E. rewrite clamp_after by lra.
    rewrite normalize_end, interpolate_1 by assumption.
    destruct rest as [ | s2 rest'].
    + cbn [value_at_forward rise]. unfold last_level. cbn [Curve.last_segment].
      f_equal. ring.
    + destruct Hcont as [Hc Hcont'].
      change (last_level (s :: s2 :: rest')) with (last_level (s2 :: rest')).
      rewrite (IH (end_time s)) by (assumption || discriminate).
      cbn [first_level]. f_equal. lra.
Qed.

Lemma curve_value_rise c x :
  valid c -> positive_durations c -> level_continuous c ->
  Curve.value_at c x = Ok (first_level c + rise c x).
Proof.
  intros Hv Hpos Hcont. destruct (proj1 (valid_chain c) Hv) as [Hne Hch].
  destruct (Rlt_dec x 0) as [Hneg | Hnn].
  - rewrite value_at_negative by assumption.
    rewrite (rise_before 0) by (assumption || lra).
    destruct c as [ | s rest]; [now contradiction Hne | ].
    simpl. f_equal. ring.
  - rewrite value_at_forward_eq by (assumption || lra).
    rewrite end_level_last by assumption.
    apply (forward_rise 0); try assumption. lra.
Qed.

(** X28.  On a valid curve without jumps and without zero-length
    segments [max_absolute_slope] is a number that bounds every change
    of the curve: the values at any two times differ by at most that
    number times the distance of the times. *)
Theorem curve_max_absolute_slope_bounds_changes (c : Curve.t) :
  valid c -> positive_durations c -> level_continuous c ->
  exists M,
    CurveOps.max_absolute_slope c = Ok M
    /\ forall x y vx vy,
         Curve.value_at c x = Ok vx -> Curve.value_at c y = Ok vy ->
         Rabs (vy - vx) <= M * Rabs (y - x).
Proof.
  intros Hv Hpos Hcont. destruct (proj1 (valid_chain c) Hv) as [Hne Hch].
  set (slope := fun s => match SegmentOps.max_absolute_slope s with
                         | Ok m => m
                         | _ => 0
                         end).
  assert (Hslopes : SegmentOps.traverse SegmentOps.max_absolute_slope c
                    = Ok (map slope c)).
  { apply traverse_ok. intros s. unfold slope.
    destruct (max_absolute_slope_total s) as [m ->]. reflexivity. }
  unfold CurveOps.max_absolute_slope. rewrite Hslopes. cbn [bind].
  destruct (Curve.max_of (map slope c)) as [M | e | ] eqn:HM;
    try (destruct c; [now contradiction Hne | discriminate]).
  exists M. split; [reflexivity | ].
  assert (Hupper : forall s m, In s c ->
            SegmentOps.max_absolute_slope s = Ok m -> m <= M).
  { intros s m Hin Hm. apply (max_of_upper _ _ _ HM).
    replace m with (slope s) by (unfold slope; now rewrite Hm).
    now apply in_map. }
  assert (HM0 : 0 <= M).
  { destruct c as [ | s rest]; [now contradiction Hne | ].
    destruct (max_absolute_slope_total s) as [m Hm].
    inversion Hpos as [ | ? ? Hs _]; subst.
    pose proof (slope_nonneg s m Hs Hm).
    pose proof (Hupper s m (or_introl eq_refl) Hm). lra. }
  pose proof (valid_length_nonneg c Hv) as HL.
  assert (Hordered : forall x y, x <= y ->
            Rabs (rise c y - rise c x) <= M * (y - x)).
  { intros x y Hxy.
    apply Rle_trans with (1 := rise_change 0 c M x y Hch Hne Hpos Hupper Hxy).
    apply Rmult_le_compat_l; [assumption | ]. now apply clip_contract. }
  intros x y vx vy Hx Hy.
  rewrite curve_value_rise in Hx, Hy by assumption.
  injection Hx as <-. injection Hy as <-.
  replace (first_level c + rise c y - (first_level c + rise c x))
    with (rise c y - rise c x) by ring.
  destruct (Rle_dec x y) as [Hxy | Hxy].
  - rewrite (Rabs_right (y - x)) by lra. now apply Hordered.
  - rewrite Rabs_minus_sym, (Rabs_left (y - x)) by lra.
    replace (- (y - x)) with (x - y) by ring. apply Hordered. lra.
Qed.

Lemma two_ramps_smooth : positive_durations two_ramps /\ level_continuous two_ramps.
Proof.
  split.
  - repeat constructor; simpl; lra.
  - simpl. split; [reflexivity | exact I].
Qed.

Lemma curve_max_absolute_slope_bounds_changes_witness :
  exists M,
    CurveOps.max_absolute_slope two_ramps = Ok M
    /\ forall x y vx vy,
         Curve.value_at two_ramps x = Ok vx -> Curve.value_at two_ramps y = Ok vy ->
         Rabs (vy - vx) <= M * Rabs (y - x).
Proof.
  exact (curve_max_absolute_slope_bounds_changes two_ramps two_ramps_valid
           (proj1 two_ramps_smooth) (proj2 two_ramps_smooth)).
Defined.

End CurveSlopeFacts.

(** ** Undoing an append, repeating an interpolation *)

Module RoundTripFacts.

Import Segment Invariant Model Notions Examples InvariantFacts SegmentFacts
       CurveFacts MutationFacts SplitFacts MaxFacts AppendFacts CurveSplitFacts.

Lemma pop_segment_app c n :
  c <> [] -> Curve.pop_segment (c ++ [n]) = (c, Ok (Some n)).
Proof.
  intros Hne. destruct c as [ | s rest]; [now contradiction Hne | ].
  change ((s :: rest) ++ [n]) with (s :: (rest ++ [n])).
  destruct (rest ++ [n]) as [ | s2 rest'] eqn:E; [now destruct rest | ].
  unfold Curve.pop_segment. rewrite <- E.
  change (s :: (rest ++ [n])) with ((s :: rest) ++ [n]).
  now rewrite last_segment_app, removelast_last.
Qed.

Lemma append_segment_adds c level d shape tol :
  valid c ->
  List.length (fst (Curve.append_segment c level d shape tol)) = S (List.length c) ->
  fst (Curve.append_segment c level d shape tol)
  = c ++ [mk (Curve.length c) (Curve.length c + d) (last_level c) level shape].
Proof.
  intros Hv Hlen. destruct (proj1 (valid_chain c) Hv) as [Hne Hch].
  destruct (split_last c Hne) as (init & l & ->).
  destruct (chain_last _ _ l Hch (last_segment_app init l)) as [_ Hwf].
  revert Hlen.
  destruct (append_segment_shape init l level d shape tol Hwf)
    as (_ & [-> | (e' & sh' & -> & _)]); intros Hlen.
  - rewrite length_app_last. unfold last_level. rewrite last_segment_app.
    now rewrite <- app_assoc.
  - rewrite !length_app in Hlen. simpl in Hlen. lia.
Qed.

Lemma append_segment_adds_curved c level d shape tol l :
  valid c -> Curve.last_segment c = Some l -> start_time l < end_time l ->
  shape <> 0 ->
  List.length (fst (Curve.append_segment c level d shape tol)) = S (List.length c).
Proof.
  intros Hv Hl Hlt Hshape. unfold Curve.append_segment. rewrite Hl.
  replace (Reqb (duration l) 0) with false
    by (symmetry; apply Reqb_false; unfold duration; lra).
  replace (Reqb shape 0) with false by (symmetry; now apply Reqb_false).
  rewrite andb_false_r. cbn [fst]. rewrite length_app. simpl. lia.
Qed.

(** X29.  Whenever [append_segment] adds a segment to a valid curve
    (rather than stretching the last one), [pop_segment] undoes it: it
    returns the added segment, which runs from the old length and the
    old end level to the new level, and leaves the curve as it was.
    [append_segment] adds a segment whenever the shape is not 0 and the
    last segment has a duration. *)
Theorem pop_undoes_append (c : Curve.t) (level duration curve_shape tolerance : R) :
  valid c ->
  (List.length (fst (Curve.append_segment c level duration curve_shape tolerance))
   = S (List.length c) ->
   exists e,
     Curve.end_level c = Ok e
     /\ Curve.pop_segment
          (fst (Curve.append_segment c level duration curve_shape tolerance))
        = (c, Ok (Some (mk (Curve.length c) (Curve.length c + duration) e level
                           curve_shape))))
  /\ (forall l, Curve.last_segment c = Some l -> start_time l < end_time l ->
      curve_shape <> 0 ->
      List.length (fst (Curve.append_segment c level duration curve_shape tolerance))
      = S (List.length c)).
Proof.
  intros Hv. destruct (proj1 (valid_chain c) Hv) as [Hne Hch]. split.
  - intros Hlen. exists (last_level c). split.
    + unfold Curve.end_level, last_level.
      now destruct (last_segment_some c Hne) as [l ->].
    + rewrite append_segment_adds by assumption. now apply pop_segment_app.
  - intros l Hl Hlt Hshape. now apply append_segment_adds_curved with l.
Qed.

Lemma pop_undoes_append_witness :
  exists e,
    Curve.end_level two_ramps = Ok e
    /\ Curve.pop_segment (fst (Curve.append_segment two_ramps 4 1 2 0))
       = (two_ramps,
          Ok (Some (mk (Curve.length two_ramps) (Curve.length two_ramps + 1) e 4 2))).
Proof.
  destruct (pop_undoes_append two_ramps 4 1 2 0 two_ramps_valid) as [Hpop Hadds].
  apply Hpop. apply (Hadds (mk 1 2 3 2 0)); [reflexivity | simpl; lra | lra].
Defined.

Lemma insert_interpolated_loop_noop a fuel t segments :
  chain a segments -> (List.length segments < fuel)%nat ->
  (exists s, In s segments /\ start_time s = t) ->
  Curve.insert_interpolated_loop fuel t segments = Ok segments.
Proof.
  revert a fuel. induction segments as [ | s0 rest IH];
    intros a fuel Hch Hfuel (s & Hin & Hs); [destruct Hin | ].
  destruct fuel as [ | fuel]; [inversion Hfuel | ].
  destruct Hch as (Hst & Hle & Hrest).
  cbn [Curve.insert_interpolated_loop].
  destruct (Reqb t (start_time s0)) eqn:E1; [reflexivity | ].
  apply Reqb_false in E1.
  destruct Hin as [-> | Hin]; [now contradiction E1 | ].
  pose proof (chain_starts_after _ _ Hrest) as Hafter.
  rewrite Forall_forall in Hafter. specialize (Hafter s Hin).
  replace (contains s0 t) with false
    by (symmetry; apply not_contains_after; lra).
  rewrite (IH (end_time s0) fuel Hrest); [reflexivity | simpl in Hfuel; lia | ].
  now exists s.
Qed.

Lemma insert_interpolated_at_boundary c t :
  valid c -> 0 <= t ->
  (exists s, In s c /\ start_time s = t) \/ t = Curve.length c ->
  Curve.insert_interpolated c t = (c, Ok tt).
Proof.
  intros Hv Ht Hb. destruct (proj1 (valid_chain c) Hv) as [Hne Hch].
  assert (HtL : t <= Curve.length c).
  { destruct Hb as [(s & Hin & Hs) | Hb]; [ | lra].
    destruct (chain_bounds 0 c Hch Hne) as [_ Hall].
    rewrite Forall_forall in Hall. destruct (Hall s Hin) as [_ Hend].
    pose proof (chain_well_formed 0 c Hch) as Hwf.
    rewrite Forall_forall in Hwf. specialize (Hwf s Hin).
    unfold well_formed in Hwf. lra. }
  unfold Curve.insert_interpolated.
  replace (Rleb 0 t) with true by (symmetry; now apply Rleb_true).
  replace (Rleb t (Curve.length c)) with true by (symmetry; now apply Rleb_true).
  destruct (Reqb t (Curve.length c)) eqn:E; [reflexivity | ].
  apply Reqb_false in E. destruct Hb as [Hb | Hb]; [ | contradiction].
  now rewrite (insert_interpolated_loop_noop 0 _ t c Hch (Nat.lt_succ_diag_r _) Hb).
Qed.

(** X30.  [insert_interpolated(t)] raises [AssertionError] for a time
    outside [[0, length]] and leaves the curve as it was.  At a time
    where a segment already starts, and at the end of the curve, it
    changes nothing; so a second call at the same time changes nothing
    after the first. *)
Theorem insert_interpolated_once_is_enough (c : Curve.t) (t : R) :
  valid c ->
  (t < 0 \/ Curve.length c < t ->
   Curve.insert_interpolated c t = (c, Raise AssertionError))
  /\ (0 <= t ->
      (exists s, In s c /\ start_time s = t) \/ t = Curve.length c ->
      Curve.insert_interpolated c t = (c, Ok tt))
  /\ (0 <= t <= Curve.length c ->
      Curve.insert_interpolated (fst (Curve.insert_interpolated c t)) t
      = (fst (Curve.insert_interpolated c t), Ok tt)).
Proof.
  intros Hv. destruct (proj1 (valid_chain c) Hv) as [Hne Hch].
  split; [ | split].
  - intros Hout. unfold Curve.insert_interpolated.
    destruct (Rleb 0 t) eqn:E0; [ | reflexivity].
    apply Rleb_true in E0.
    replace (Rleb t (Curve.length c)) with false; [reflexivity | ].
    symmetry. apply Rleb_false. lra.
  - intros Ht Hb. now apply insert_interpolated_at_boundary.
  - intros [Ht0 HtL].
    destruct (Req_dec_T t (Curve.length c)) as [Hend | Hnend].
    { rewrite (insert_interpolated_at_boundary c t Hv Ht0 (or_intror Hend)).
      cbn [fst]. apply insert_interpolated_at_boundary; auto. }
    destruct (Req_dec_T t 0) as [Hzero | Hnzero].
    { assert (Hb : exists s, In s c /\ start_time s = t).
      { destruct c as [ | s rest]; [now contradiction Hne | ].
        destruct Hch as (Hst & _). exists s. split; [now left | lra]. }
      rewrite (insert_interpolated_at_boundary c t Hv Ht0 (or_introl Hb)).
      cbn [fst]. apply insert_interpolated_at_boundary; auto. }
    destruct (insert_interpolated_inside c t Hv ltac:(lra))
      as (inserted & -> & Hv' & _ & Hex & _).
    cbn [fst]. apply insert_interpolated_at_boundary; auto.
Qed.

Lemma insert_interpolated_once_is_enough_witness :
  Curve.insert_interpolated (fst (Curve.insert_interpolated two_ramps (1 / 2)))
    (1 / 2)
  = (fst (Curve.insert_interpolated two_ramps (1 / 2)), Ok tt).
Proof.
  destruct (insert_interpolated_once_is_enough two_ramps (1 / 2) two_ramps_valid)
    as (_ & _ & Hagain).
  apply Hagain. unfold two_ramps, Curve.length. simpl. lra.
Defined.

End RoundTripFacts.
